(** * The i18n translation engine of static/js/i18n.js

    A shallow embedding of the [I18N] object: the JavaScript values it
    handles, the key resolver [getValue], the namespace fallback engine
    [t], the language store, the loader, the path resolver and the DOM
    applicator, followed by the properties proved about them. *)

From Stdlib Require Import ZArith Ascii String.
From stdpp Require Import gmap strings list.

Local Set Warnings "-register-all".
Local Open Scope string_scope.
Local Open Scope Z_scope.
Local Open Scope list_scope.

(** ** JavaScript values *)

Module JS.

(** Objects that are reachable from parsed JSON only through the prototype
    chain: the built-in functions and the two prototype objects. *)
Inductive host :=
| HFunction (name : string)
| HObjectProto
| HArrayProto.

(** A number is modelled by an integer: this code only ever tests a number
    for zero (truthiness) or uses it as an array index, and a fractional
    value behaves there as any non-zero integer does. *)
Inductive value :=
| VUndefined
| VNull
| VBool (b : bool)
| VNum (n : Z)
| VStr (s : string)
| VArr (xs : list value)
| VObj (props : list (string * value))
| VHost (h : host).

(** [{}] *)
Definition empty_object : value := VObj [].

(** ToBoolean. *)
Definition truthy (v : value) : bool :=
  match v with
  | VUndefined | VNull => false
  | VBool b => b
  | VNum n => negb (n =? 0)
  | VStr s => negb (String.eqb s "")
  | VArr _ | VObj _ | VHost _ => true
  end.

(** [typeof v === 'object'] *)
Definition typeof_object (v : value) : bool :=
  match v with
  | VNull | VArr _ | VObj _ => true
  | VHost HObjectProto | VHost HArrayProto => true
  | _ => false
  end.

(** [Array.isArray(v)]; [Array.prototype] is itself an array. *)
Definition isArray (v : value) : bool :=
  match v with
  | VArr _ | VHost HArrayProto => true
  | _ => false
  end.

(** [v !== null && v !== undefined] *)
Definition found (v : value) : bool :=
  match v with
  | VUndefined | VNull => false
  | _ => true
  end.

(** [v !== key] for a string [key]: strict inequality never coerces. *)
Definition strict_neq_str (v : value) (key : string) : bool :=
  match v with
  | VStr s => negb (String.eqb s key)
  | _ => true
  end.

(** *** Strings *)

(** A string is its UTF-8 encoding, one character per byte: the separators
    and digits that the engine looks for are single bytes and never part of
    a longer sequence. *)

Definition code (c : ascii) : nat := nat_of_ascii c.

Definition in_range (lo hi : ascii) (c : ascii) : bool :=
  (code lo <=? code c)%nat && (code c <=? code hi)%nat.

(** The white space and line terminator characters below 128. *)
Definition is_ws (c : ascii) : bool :=
  match code c with
  | 9%nat | 10%nat | 11%nat | 12%nat | 13%nat | 32%nat => true
  | _ => false
  end.

Definition is_digit (c : ascii) : bool := in_range "0" "9" c.

Definition lower_ascii (c : ascii) : ascii :=
  if in_range "A" "Z" c then ascii_of_nat (code c + 32) else c.

(** [s.toLowerCase()] for a string whose letters are below 128, as those of
    a percent-encoded [pathname] are. *)
Fixpoint toLowerCase (s : string) : string :=
  match s with
  | EmptyString => EmptyString
  | String c r => String (lower_ascii c) (toLowerCase r)
  end.

(** [s.split(sep)] for a one-character separator: never empty. *)
Fixpoint split (sep : ascii) (s : string) : list string :=
  match s with
  | EmptyString => [EmptyString]
  | String c r =>
      if Ascii.eqb c sep then EmptyString :: split sep r
      else match split sep r with
           | seg :: segs => String c seg :: segs
           | [] => [String c EmptyString]
           end
  end.

(** Leading white space removed.  Strings are UTF-8: beyond [is_ws] the
    white space characters are U+00A0, U+1680, U+2000 to U+200A, U+2028,
    U+2029, U+202F, U+205F, U+3000 and U+FEFF. *)
Fixpoint ltrim (s : string) : string :=
  match s with
  | EmptyString => EmptyString
  | String c r =>
      if is_ws c then ltrim r
      else
        match code c, r with
        | 194%nat, String c1 r1 =>
            if (code c1 =? 160)%nat then ltrim r1 else s
        | 225%nat, String c1 (String c2 r2) =>
            if (code c1 =? 154)%nat && (code c2 =? 128)%nat then ltrim r2 else s
        | 226%nat, String c1 (String c2 r2) =>
            if (code c1 =? 128)%nat
               && (((128 <=? code c2)%nat && (code c2 <=? 138)%nat)
                   || (code c2 =? 168)%nat || (code c2 =? 169)%nat
                   || (code c2 =? 175)%nat)
            then ltrim r2
            else if (code c1 =? 129)%nat && (code c2 =? 159)%nat then ltrim r2
            else s
        | 227%nat, String c1 (String c2 r2) =>
            if (code c1 =? 128)%nat && (code c2 =? 128)%nat then ltrim r2 else s
        | 239%nat, String c1 (String c2 r2) =>
            if (code c1 =? 187)%nat && (code c2 =? 191)%nat then ltrim r2 else s
        | _, _ => s
        end
  end.

(** Trailing white space removed: a suffix that is all white space goes. *)
Fixpoint rtrim (s : string) : string :=
  match s with
  | EmptyString => EmptyString
  | String c r =>
      if String.eqb (ltrim s) "" then EmptyString else String c (rtrim r)
  end.

Definition trim (s : string) : string := rtrim (ltrim s).

(** The longest prefix of characters satisfying [p], and the rest. *)
Fixpoint span (p : ascii -> bool) (s : string) : string * string :=
  match s with
  | String c r =>
      if p c then let '(a, b) := span p r in (String c a, b)
      else (EmptyString, s)
  | EmptyString => (EmptyString, EmptyString)
  end.

Definition nonempty (s : string) : bool := negb (String.eqb s "").

Definition all_of (p : ascii -> bool) (s : string) : bool :=
  String.eqb (snd (span p s)) "".

Definition strip_sign (s : string) : bool * string :=
  match s with
  | String "-" r => (true, r)
  | String "+" r => (false, r)
  | _ => (false, s)
  end.

(** *** String to number *)

Definition is_hex (c : ascii) : bool :=
  is_digit c || in_range "a" "f" c || in_range "A" "F" c.
Definition is_oct (c : ascii) : bool := in_range "0" "7" c.
Definition is_bin (c : ascii) : bool := in_range "0" "1" c.

(** ExponentPart_opt at the end of a decimal literal. *)
Definition exponent_opt (s : string) : bool :=
  match s with
  | EmptyString => true
  | String c r =>
      (Ascii.eqb c "e" || Ascii.eqb c "E") &&
      (let d := snd (strip_sign r) in nonempty d && all_of is_digit d)
  end.

(** StrUnsignedDecimalLiteral. *)
Definition unsigned_decimal (s : string) : bool :=
  String.eqb s "Infinity" ||
  (let '(int, r1) := span is_digit s in
   match r1 with
   | String "." r2 =>
       let '(frac, r3) := span is_digit r2 in
       (nonempty int || nonempty frac) && exponent_opt r3
   | _ => nonempty int && exponent_opt r1
   end).

(** NonDecimalIntegerLiteral: [0x], [0o], [0b] prefixes, unsigned. *)
Definition non_decimal (s : string) : bool :=
  match s with
  | String "0" (String x r) =>
      nonempty r &&
      (if Ascii.eqb x "x" || Ascii.eqb x "X" then all_of is_hex r
       else if Ascii.eqb x "o" || Ascii.eqb x "O" then all_of is_oct r
       else if Ascii.eqb x "b" || Ascii.eqb x "B" then all_of is_bin r
       else false)
  | _ => false
  end.

(** [isNaN(s)] for a string [s]: whether [Number(s)] is NaN.  The empty and
    the all-blank string convert to 0. *)
Definition isNaN (s : string) : bool :=
  let s' := trim s in
  negb (String.eqb s' "" || non_decimal s' || unsigned_decimal (snd (strip_sign s'))).

Definition digit_val (c : ascii) : Z :=
  if is_digit c then Z.of_nat (code c) - 48
  else if in_range "a" "f" c then Z.of_nat (code c) - 87
  else Z.of_nat (code c) - 55.

Fixpoint digits_val (radix : Z) (acc : Z) (s : string) : Z :=
  match s with
  | EmptyString => acc
  | String c r => digits_val radix (radix * acc + digit_val c) r
  end.

(** [parseInt(s)] without a radix; [None] is NaN.  The mathematical value is
    kept exactly: rounding to a double only affects values far beyond the
    length of any array. *)
Definition parseInt (s : string) : option Z :=
  let '(neg, r) := strip_sign (ltrim s) in
  let '(radix, isd, r') :=
    match r with
    | String "0" (String x r2) =>
        if Ascii.eqb x "x" || Ascii.eqb x "X" then (16, is_hex, r2)
        else (10, is_digit, r)
    | _ => (10, is_digit, r)
    end in
  let ds := fst (span isd r') in
  if nonempty ds
  then Some (if neg then - digits_val radix 0 ds else digits_val radix 0 ds)
  else None.

(** *** Properties of objects *)

(** The string-keyed members of [Object.prototype] and [Array.prototype]
    (ECMAScript 2023, with the legacy accessors of Annex B). *)
Definition object_proto_names : list string :=
  ["constructor"; "hasOwnProperty"; "isPrototypeOf"; "propertyIsEnumerable";
   "toLocaleString"; "toString"; "valueOf"; "__defineGetter__";
   "__defineSetter__"; "__lookupGetter__"; "__lookupSetter__"].

Definition array_proto_names : list string :=
  ["constructor"; "at"; "concat"; "copyWithin"; "entries"; "every"; "fill";
   "filter"; "find"; "findIndex"; "findLast"; "findLastIndex"; "flat";
   "flatMap"; "forEach"; "includes"; "indexOf"; "join"; "keys";
   "lastIndexOf"; "map"; "pop"; "push"; "reduce"; "reduceRight"; "reverse";
   "shift"; "slice"; "some"; "sort"; "splice"; "toLocaleString";
   "toReversed"; "toSorted"; "toSpliced"; "toString"; "unshift"; "values";
   "with"].

Definition mem (k : string) (ks : list string) : bool :=
  existsb (String.eqb k) ks.

Definition builtin (owner k : string) : value :=
  VHost (HFunction (if String.eqb k "constructor" then owner
                    else owner +:+ ".prototype." +:+ k)).

Fixpoint assoc (props : list (string * value)) (k : string) : option value :=
  match props with
  | [] => None
  | (k', v) :: rest => if String.eqb k' k then Some v else assoc rest k
  end.

(** A canonical array index: a decimal numeral without leading zeros. *)
Definition canonical_index (k : string) : option nat :=
  match k with
  | EmptyString => None
  | String "0" EmptyString => Some 0%nat
  | String "0" _ => None
  | _ => if all_of is_digit k then Some (Z.to_nat (digits_val 10 0 k)) else None
  end.

(** Own properties of an array: its elements and [length]. *)
Definition array_own (xs : list value) (k : string) : option value :=
  if String.eqb k "length" then Some (VNum (Z.of_nat (length xs)))
  else match canonical_index k with
       | Some i => xs !! i
       | None => None
       end.

(** What [Object.prototype] contributes; [__proto__] is an accessor that
    yields the prototype of the receiver. *)
Definition object_proto_prop (receiver_proto : value) (k : string) : option value :=
  if String.eqb k "__proto__" then Some receiver_proto
  else if mem k object_proto_names then Some (builtin "Object" k)
  else None.

Definition array_proto_own (k : string) : option value :=
  if String.eqb k "length" then Some (VNum 0)
  else if mem k array_proto_names then Some (builtin "Array" k)
  else None.

Definition or_else {A} (o : option A) (alt : option A) : option A :=
  match o with Some _ => o | None => alt end.

(** Property lookup along the prototype chain of an object. *)
Definition find_prop (v : value) (k : string) : option value :=
  match v with
  | VObj props =>
      or_else (assoc props k) (object_proto_prop (VHost HObjectProto) k)
  | VArr xs =>
      or_else (array_own xs k)
        (or_else (array_proto_own k) (object_proto_prop (VHost HArrayProto) k))
  | VHost HArrayProto =>
      or_else (array_proto_own k) (object_proto_prop (VHost HObjectProto) k)
  | VHost HObjectProto => object_proto_prop VNull k
  | _ => None
  end.

(** [k in v] *)
Definition has_prop (v : value) (k : string) : bool :=
  match find_prop v k with Some _ => true | None => false end.

(** [v[k]] *)
Definition get_prop (v : value) (k : string) : value :=
  match find_prop v k with Some x => x | None => VUndefined end.

(** [v[n]] for the number [n] that [parseInt] returned: NaN, a negative or
    an out-of-range number names no property. *)
Definition get_index (v : value) (n : option Z) : value :=
  match v, n with
  | VArr xs, Some i =>
      if i <? 0 then VUndefined
      else match xs !! Z.to_nat i with Some x => x | None => VUndefined end
  | _, _ => VUndefined
  end.

End JS.

Export JS.

(** ** Key resolver *)

(** The body of the [for] loop of [getValue], one segment per step; the two
    [return null] statements end the walk. *)
Fixpoint walk (keys : list string) (result : value) : value :=
  match keys with
  | [] => result
  | key :: keys' =>
      if truthy result && typeof_object result then
        if isArray result && negb (isNaN key) then
          walk keys' (get_index result (parseInt key))
        else if has_prop result key then
          walk keys' (get_prop result key)
        else VNull
      else VNull
  end.

(** [getValue(obj, path)]: nested value by dot notation path. *)
Definition getValue (obj : value) (path : string) : value :=
  if String.eqb path "" then obj
  else walk (split "." path) obj.

(** ** Translation registry *)

(** [this.translations]: an object used as a map from namespace name to
    payload.  It starts as [{}], so a name that is not an own entry is looked
    up along the prototype chain, and the name [__proto__] denotes the
    prototype itself. *)
Record registry := Registry {
  entries : gmap string value;
  prototype : value
}.

Definition empty_registry : registry :=
  {| entries := ∅; prototype := VHost HObjectProto |}.

(** [this.translations[name]] *)
Definition reg_get (r : registry) (name : string) : value :=
  match entries r !! name with
  | Some v => v
  | None =>
      if String.eqb name "__proto__" then prototype r
      else get_prop (prototype r) name
  end.

(** [this.translations[name] = v] *)
Definition reg_set (r : registry) (name : string) (v : value) : registry :=
  if String.eqb name "__proto__" then
    match v with
    | VArr _ | VObj _ | VHost _ | VNull =>
        {| entries := entries r; prototype := v |}
    | _ => r
    end
  else {| entries := <[name := v]> (entries r); prototype := prototype r |}.

(** The registry whose own entries are the given payloads. *)
Definition registry_of (l : list (string * value)) : registry :=
  {| entries := list_to_map l; prototype := VHost HObjectProto |}.

(** ** The I18N object *)

Record I18N := {
  currentLang : option string;
  currentPage : option string;
  translations : registry
}.

(** Truthiness of a value that is [null] or a string. *)
Definition set_and_nonempty (o : option string) : bool :=
  match o with
  | Some s => nonempty s
  | None => false
  end.

(** ** Namespace fallback engine *)

(** A [for (const x of xs)] loop whose body may [return]: the first
    returned value, or the code after the loop. *)
Fixpoint for_of {A} (xs : list A) (body : A -> option value) (after : value) : value :=
  match xs with
  | [] => after
  | x :: xs' =>
      match body x with
      | Some r => r
      | None => for_of xs' body after
      end
  end.

(** [result = this.getValue(this.translations[ns], key);
     if (result !== null && result !== undefined) return result] *)
Definition try_namespace (self : I18N) (ns key : string) : option value :=
  let result := getValue (reg_get (translations self) ns) key in
  if found result then Some result else None.

Definition loaded (self : I18N) (ns : string) : bool :=
  truthy (reg_get (translations self) ns).

Definition pageNamespaces_explicit : list string :=
  ["solutions"; "services"; "index"; "introduction"; "contact"].

Definition pageNamespaces_implicit : list string :=
  ["services"; "solutions"; "index"; "introduction"; "contact"].

Definition sharedNamespaces : list string := ["header"; "footer"].

Definition guarded (g : bool) (r : option value) : option value :=
  if g then r else None.

(** [t(key, namespace)].  [namespace] is the [data-i18n-ns] attribute of the
    element: [None] when absent. *)
Definition t (self : I18N) (key : string) (namespace : option string) : value :=
  if set_and_nonempty namespace then
    let namespace := default "" namespace in
    match try_namespace self namespace key with
    | Some r => r
    | None =>
    match guarded (set_and_nonempty (currentPage self) &&
                   negb (String.eqb (default "" (currentPage self)) namespace))
                  (try_namespace self (default "" (currentPage self)) key) with
    | Some r => r
    | None =>
      for_of pageNamespaces_explicit
        (fun ns => guarded (negb (String.eqb ns namespace) && loaded self ns)
                           (try_namespace self ns key))
        (for_of sharedNamespaces
           (fun ns => try_namespace self ns key)
           (VStr key))
    end
    end
  else
    match guarded (set_and_nonempty (currentPage self) &&
                   loaded self (default "" (currentPage self)))
                  (try_namespace self (default "" (currentPage self)) key) with
    | Some r => r
    | None =>
      for_of pageNamespaces_implicit
        (fun ns => guarded (loaded self ns) (try_namespace self ns key))
        (for_of sharedNamespaces
           (fun ns => guarded (loaded self ns) (try_namespace self ns key))
           (VStr key))
    end.

(** The namespaces whose payload [t] hands to [getValue], in the order in
    which it does so when every lookup misses. *)
Definition current_list (self : I18N) : list string :=
  match currentPage self with
  | Some cur => if nonempty cur then [cur] else []
  | None => []
  end.

Definition consulted (self : I18N) (namespace : option string) : list string :=
  if set_and_nonempty namespace then
    let namespace := default "" namespace in
    [namespace]
    ++ List.filter (fun cur => negb (String.eqb cur namespace)) (current_list self)
    ++ List.filter (fun ns => negb (String.eqb ns namespace) && loaded self ns)
         pageNamespaces_explicit
    ++ sharedNamespaces
  else
    List.filter (loaded self)
      (current_list self ++ pageNamespaces_implicit ++ sharedNamespaces).

(** The first value of a list that is neither [null] nor [undefined]. *)
Fixpoint first_found (vs : list value) (miss : value) : value :=
  match vs with
  | [] => miss
  | v :: vs' => if found v then v else first_found vs' miss
  end.

Definition lookup_ns (self : I18N) (key ns : string) : value :=
  getValue (reg_get (translations self) ns) key.

(** The key is present with value [v] in the loaded payload of [ns]. *)
Definition present (self : I18N) (ns key : string) (v : value) : Prop :=
  loaded self ns = true /\ lookup_ns self key ns = v /\ found v = true.

(** The key resolves to nothing in the payload of [ns]. *)
Definition missing (self : I18N) (ns key : string) : Prop :=
  found (lookup_ns self key ns) = false.

(** ** Path resolver *)

(** A character outside the class of [[^\:\\\/]]. *)
Definition is_sep (c : ascii) : bool :=
  match code c with
  | 58%nat | 92%nat | 47%nat => true
  | _ => false
  end.

(** [s] starts with [pat], letters compared without regard to case ([pat] is
    in lower case). *)
Fixpoint starts_with_ci (pat s : string) : bool :=
  match pat, s with
  | EmptyString, _ => true
  | String p pat', String c s' => Ascii.eqb p (lower_ascii c) && starts_with_ci pat' s'
  | String _ _, EmptyString => false
  end.

(** [([^\:\\\/]+)\.html] matched at the start of [s]: the class is greedy, so
    the group is the longest run that is followed by [.html]. *)
Fixpoint group_at (s : string) : option string :=
  match s with
  | EmptyString => None
  | String c r =>
      if is_sep c then None
      else match group_at r with
           | Some g => Some (String c g)
           | None => if starts_with_ci ".html" r then Some (String c EmptyString) else None
           end
  end.

(** [path.match(/([^\:\\\/]+)\.html/i)]: group 1 of the leftmost match. *)
Fixpoint match_html (s : string) : option string :=
  match group_at s with
  | Some g => Some g
  | None =>
      match s with
      | EmptyString => None
      | String _ r => match_html r
      end
  end.

(** [s.replace(/\/$/, '')] *)
Fixpoint remove_trailing_slash (s : string) : string :=
  match s with
  | EmptyString => EmptyString
  | String c EmptyString => if Ascii.eqb c "/" then EmptyString else s
  | String c r => String c (remove_trailing_slash r)
  end.

Definition pageMap : value :=
  VObj [("index", VStr "index"); ("services", VStr "services");
        ("solutions", VStr "solutions"); ("introduction", VStr "introduction");
        ("contact", VStr "contact")].

(** [pageMap[page] || 'index'] *)
Definition mapped_page (page : string) : value :=
  let result := get_prop pageMap page in
  if truthy result then result else VStr "index".

(** [getPageName()], as a function of [window.location.pathname]. *)
Definition getPageName (path : string) : value :=
  match match_html path with
  | Some g => mapped_page (toLowerCase g)
  | None =>
      let cleanPath := remove_trailing_slash path in
      if String.eqb cleanPath "" || String.eqb cleanPath "/" then VStr "index"
      else
        let segments := split "/" cleanPath in
        mapped_page (List.last segments EmptyString)
  end.

(** ** Language preference store *)

(** [new CustomEvent(type, { detail: { lang: lang } })] *)
Record custom_event := CustomEvent {
  event_type : string;
  detail_lang : string
}.

(** What the engine reads and writes outside the [I18N] object.
    [storage_full] tells that the storage takes no write: its quota is used
    up, and [localStorage.setItem] throws. *)
Record browser := {
  localStorage : gmap string string;
  storage_full : bool;
  navigator_language : option string;
  documentElement_lang : string;
  dispatched : list custom_event
}.

(** How a call ends: it returns, or an exception leaves it. *)
Inductive exception := TypeError | QuotaExceededError.

Inductive completion :=
| Normal
| Throw (e : exception).

Record state := {
  engine : I18N;
  env : browser
}.

Definition starts_with (pat s : string) : bool := String.prefix pat s.

(** [o || d] for [o] that is [null], [undefined] or a string. *)
Definition or_default (o : option string) (d : string) : string :=
  if set_and_nonempty o then default "" o else d.

(** [getCurrentLang()]: the language and the state with the cache filled. *)
Definition getCurrentLang (st : state) : string * state :=
  let self := engine st in
  let cached lang :=
    {| engine := {| currentLang := Some lang;
                    currentPage := currentPage self;
                    translations := translations self |};
       env := env st |} in
  if set_and_nonempty (currentLang self) then (default "" (currentLang self), st)
  else
    let stored := localStorage (env st) !! "lang" in
    if set_and_nonempty stored
       && (String.eqb (default "" stored) "zh" || String.eqb (default "" stored) "en")
    then (default "" stored, cached (default "" stored))
    else
      let browserLang := toLowerCase (or_default (navigator_language (env st)) "zh") in
      let lang := if starts_with "zh" browserLang then "zh" else "en" in
      (lang, cached lang).

(** [setLang(lang)] for an argument of any type: how the call ends and the
    state it leaves.  The cache is written before [localStorage.setItem],
    whose exception ends the call. *)
Definition setLang (lang : value) (st : state) : completion * state :=
  match lang with
  | VStr l =>
      if negb (String.eqb l "zh") && negb (String.eqb l "en") then (Normal, st)
      else
        let self := {| currentLang := Some l;
                       currentPage := currentPage (engine st);
                       translations := translations (engine st) |} in
        if storage_full (env st)
        then (Throw QuotaExceededError, {| engine := self; env := env st |})
        else
          (Normal,
           {| engine := self;
              env := {| localStorage := <["lang" := l]> (localStorage (env st));
                        storage_full := storage_full (env st);
                        navigator_language := navigator_language (env st);
                        documentElement_lang :=
                          if String.eqb l "zh" then "zh-CN" else "en";
                        dispatched :=
                          dispatched (env st) ++ [CustomEvent "langchange" l] |} |})
  | _ => (Normal, st)
  end.

(** ** The key resolver as the specification words it *)

Inductive lookup_result :=
| Found (v : value)
| NotFound.

(** A segment that parses as a non-negative integer: a decimal numeral. *)
Definition nonneg_integer (seg : string) : option nat :=
  if nonempty seg && all_of is_digit seg
  then Some (Z.to_nat (digits_val 10 0 seg))
  else None.

(** One step per segment: index a sequence by an integer segment, descend
    into a mapping that contains the segment as a key, fail otherwise. *)
Fixpoint reference_walk (segments : list string) (current : value) : lookup_result :=
  match segments with
  | [] => Found current
  | seg :: rest =>
      match current with
      | VArr xs =>
          match nonneg_integer seg with
          | Some i =>
              match xs !! i with
              | Some x => reference_walk rest x
              | None => NotFound
              end
          | None => NotFound
          end
      | VObj props =>
          match assoc props seg with
          | Some x => reference_walk rest x
          | None => NotFound
          end
      | _ => NotFound
      end
  end.

(** An empty path returns the payload itself. *)
Definition reference_lookup (payload : value) (path : string) : lookup_result :=
  if String.eqb path "" then Found payload
  else reference_walk (split "." path) payload.

(** The not-found sentinel of [getValue] is [null]. *)
Definition result_value (r : lookup_result) : value :=
  match r with
  | Found v => v
  | NotFound => VNull
  end.

(** [getValue] returned what the reference prescribes; for not-found it
    returns [null], or [undefined] after an out-of-range index. *)
Definition agrees (v : value) (r : lookup_result) : Prop :=
  match r with
  | Found x => v = x
  | NotFound => found v = false
  end.

(** Names that every object answers to without having them as a key. *)
Definition object_inherited (seg : string) : bool :=
  String.eqb seg "__proto__" || mem seg object_proto_names.

(** Names that every sequence answers to besides its indices. *)
Definition array_inherited (seg : string) : bool :=
  String.eqb seg "length" || mem seg array_proto_names || object_inherited seg.

(** The segment means the same to [getValue] and to the reference at the
    value [current].  On a mapping: it is one of its keys, or no name that
    every object inherits.  On a sequence: it is a decimal numeral; or it
    converts to a number whose integer part selects no element; or it does
    not convert to a number and is neither [length] nor inherited.  On any
    other value both stop. *)
Definition plain_at (current : value) (seg : string) : bool :=
  match current with
  | VObj props =>
      match assoc props seg with
      | Some _ => true
      | None => negb (object_inherited seg)
      end
  | VArr _ | VHost HArrayProto =>
      (nonempty seg && all_of is_digit seg)
      || (if isNaN seg then negb (array_inherited seg)
          else negb (found (get_index current (parseInt seg))))
  | VHost HObjectProto => negb (object_inherited seg)
  | _ => true
  end.

(** Every segment of the walk is so at the value it meets. *)
Fixpoint plain_walk (segments : list string) (current : value) : bool :=
  match segments with
  | [] => true
  | seg :: rest =>
      plain_at current seg
      && match reference_walk [seg] current with
         | Found next => plain_walk rest next
         | NotFound => true
         end
  end.

Definition plain_path (payload : value) (path : string) : bool :=
  String.eqb path "" || plain_walk (split "." path) payload.

(** A sequence or a mapping. *)
Definition structure (v : value) : bool :=
  match v with
  | VArr _ | VObj _ => true
  | _ => false
  end.

(** Values that are neither a sequence nor a mapping. *)
Definition scalar (v : value) : bool :=
  match v with
  | VUndefined | VNull | VBool _ | VNum _ | VStr _ => true
  | VArr _ | VObj _ | VHost _ => false
  end.

(** ** Translation loader *)

(** What a promise settles to. *)
Inductive settled (A : Type) :=
| Fulfilled (a : A)
| Rejected (reason : string).
Arguments Fulfilled {A} a.
Arguments Rejected {A} reason.

(** [p.then(f)] and [p.catch(h)] on settled promises. *)
Definition then_ {A B} (p : settled A) (f : A -> settled B) : settled B :=
  match p with
  | Fulfilled a => f a
  | Rejected e => Rejected e
  end.

Definition catch_ {A} (p : settled A) (h : string -> settled A) : settled A :=
  match p with
  | Fulfilled a => Fulfilled a
  | Rejected e => h e
  end.

(** A response: [res.ok] and what [res.json()] settles to (it rejects when
    the body is not JSON). *)
Record response := {
  ok : bool;
  json : settled value
}.

(** [loadTranslation(name)]: what the returned promise settles to, given
    what the [fetch] of [content/<name>.<lang>.json] settles to. *)
Definition loadTranslation (name lang : string) (fetched : settled response) : settled value :=
  catch_
    (then_ fetched (fun res =>
       if negb (ok res)
       then Rejected ("Failed to load: " +:+ name +:+ "." +:+ lang +:+ ".json")
       else json res))
    (fun err => Fulfilled empty_object).

(** [Promise.all]: one slot per input promise; fulfilled with all the values,
    in input order, when the last slot is filled, and rejected by the first
    input that rejects. *)
Record all_promise := {
  slots : list (option value);
  outcome : option (settled (list value))
}.

Fixpoint all_values (s : list (option value)) : option (list value) :=
  match s with
  | [] => Some []
  | None :: _ => None
  | Some v :: s' =>
      match all_values s' with
      | Some vs => Some (v :: vs)
      | None => None
      end
  end.

Definition all_start (n : nat) : all_promise :=
  {| slots := replicate n None;
     outcome := match n with O => Some (Fulfilled []) | S _ => None end |}.

(** The [i]-th input promise settles. *)
Definition all_settle (i : nat) (r : settled value) (p : all_promise) : all_promise :=
  match r with
  | Rejected e =>
      {| slots := slots p;
         outcome := match outcome p with
                    | None => Some (Rejected e)
                    | Some o => Some o
                    end |}
  | Fulfilled v =>
      let slots' := <[i := Some v]> (slots p) in
      {| slots := slots';
         outcome := match outcome p with
                    | None =>
                        match all_values slots' with
                        | Some vs => Some (Fulfilled vs)
                        | None => None
                        end
                    | Some o => Some o
                    end |}
  end.

(** [results[i] || {}] *)
Definition or_empty (v : value) : value :=
  if truthy v then v else empty_object.

(** [names.forEach((name, i) => { this.translations[name] = results[i] || {} })],
    from index [i] on. *)
Fixpoint store_from (i : nat) (names : list string) (results : list value)
    (r : registry) : registry :=
  match names with
  | [] => r
  | name :: names' =>
      store_from (S i) names' results
        (reg_set r name (or_empty (default VUndefined (results !! i))))
  end.

Definition store_results (names : list string) (results : list value)
    (r : registry) : registry :=
  store_from 0 names results r.

(** What the fetch issued for the [i]-th name settles to. *)
Definition network := nat -> settled response.

(** [loadTranslations(names)] in progress: the registry and the aggregate
    promise. *)
Record loading := {
  registry_now : registry;
  aggregate : all_promise
}.

Definition loadTranslations_start (names : list string) (r : registry) : loading :=
  {| registry_now := r; aggregate := all_start (length names) |}.

(** The fetch for the [i]-th name completes: its promise settles, and when
    that fulfils the aggregate the [then] callback stores the results. *)
Definition fetch_completes (names : list string) (lang : string) (net : network)
    (i : nat) (st : loading) : loading :=
  let p := aggregate st in
  let p' := all_settle i (loadTranslation (default "" (names !! i)) lang (net i)) p in
  match outcome p, outcome p' with
  | None, Some (Fulfilled results) =>
      {| registry_now := store_results names results (registry_now st);
         aggregate := p' |}
  | _, _ => {| registry_now := registry_now st; aggregate := p' |}
  end.

(** The fetches complete in the given order. *)
Definition loadTranslations (names : list string) (lang : string) (net : network)
    (order : list nat) (r : registry) : loading :=
  fold_left (fun st i => fetch_completes names lang net i st) order
    (loadTranslations_start names r).

(** The payload that the load of the [i]-th name yields. *)
Definition payload_at (names : list string) (lang : string) (net : network)
    (i : nat) : value :=
  match loadTranslation (default "" (names !! i)) lang (net i) with
  | Fulfilled v => v
  | Rejected _ => VUndefined
  end.

(** The slots of the aggregate after the fetches [done] have completed. *)
Definition slots_after (names : list string) (lang : string) (net : network)
    (done : list nat) : list (option value) :=
  fold_left (fun s i => <[i := Some (payload_at names lang net i)]> s) done
    (replicate (length names) None).

(** The fetch failed: no response, a response that is not ok, or a body
    that is not JSON. *)
Definition fetch_failed (fetched : settled response) : Prop :=
  match fetched with
  | Rejected _ => True
  | Fulfilled res => ok res = false \/ exists e, json res = Rejected e
  end.

(** ** Document tree *)

Inductive node :=
| Text (data : string)
| Element (tag : string) (attrs : list (string * string)) (children : list node).

(** Induction over a tree with the hypothesis on every child. *)
Fixpoint node_forall_ind (P : node -> Prop)
    (HText : forall data, P (Text data))
    (HElement : forall tag attrs children,
        Forall P children -> P (Element tag attrs children))
    (n : node) : P n :=
  match n with
  | Text data => HText data
  | Element tag attrs children =>
      HElement tag attrs children
        ((fix all (cs : list node) : Forall P cs :=
            match cs with
            | [] => List.Forall_nil P
            | c :: cs' =>
                @List.Forall_cons _ P c cs' (node_forall_ind P HText HElement c) (all cs')
            end) children)
  end.

(** The position of a node below the root: child indices from the root. *)
Definition path := list nat.

Fixpoint get (n : node) (p : path) : option node :=
  match p with
  | [] => Some n
  | i :: p' =>
      match n with
      | Element _ _ cs =>
          match cs !! i with
          | Some c => get c p'
          | None => None
          end
      | Text _ => None
      end
  end.

(** The tree with the node at [p] replaced by its image under [f]. *)
Fixpoint update (p : path) (f : node -> node) (n : node) : node :=
  match p with
  | [] => f n
  | i :: p' =>
      match n with
      | Element t a cs => Element t a (alter (update p' f) i cs)
      | Text _ => n
      end
  end.

(** Paths of consecutive children, the first of them at index [i]. *)
Fixpoint indexed (i : nat) (blocks : list (list path)) : list path :=
  match blocks with
  | [] => []
  | b :: bs => map (cons i) b ++ indexed (S i) bs
  end.

(** *** Attributes *)

Definition attributes := list (string * string).

(** [el.getAttribute(name)]; [None] is [null]. *)
Fixpoint getAttribute (a : attributes) (name : string) : option string :=
  match a with
  | [] => None
  | (k, v) :: a' => if String.eqb k name then Some v else getAttribute a' name
  end.

(** [el.setAttribute(name, v)] *)
Fixpoint setAttribute (name v : string) (a : attributes) : attributes :=
  match a with
  | [] => [(name, v)]
  | (k, w) :: a' =>
      if String.eqb k name then (k, v) :: a'
      else (k, w) :: setAttribute name v a'
  end.

Definition hasAttribute (name : string) (a : attributes) : bool :=
  match getAttribute a name with Some _ => true | None => false end.

(** *** Class tokens *)

(** ASCII whitespace as the DOM defines it. *)
Definition is_dom_ws (c : ascii) : bool :=
  match code c with
  | 9%nat | 10%nat | 12%nat | 13%nat | 32%nat => true
  | _ => false
  end.

(** Split on ASCII whitespace. *)
Fixpoint split_ws (s : string) : list string :=
  match s with
  | EmptyString => []
  | String c r =>
      if is_dom_ws c then split_ws r
      else match r with
           | EmptyString => [String c EmptyString]
           | String c' _ =>
               if is_dom_ws c' then String c EmptyString :: split_ws r
               else match split_ws r with
                    | tok :: toks => String c tok :: toks
                    | [] => [String c EmptyString]
                    end
           end
  end.

(** Keep the first occurrence of every token. *)
Fixpoint dedupe (l : list string) : list string :=
  match l with
  | [] => []
  | x :: l' => x :: List.filter (fun y => negb (String.eqb y x)) (dedupe l')
  end.

(** The ordered set serializer: tokens joined by single spaces. *)
Fixpoint serialize (l : list string) : string :=
  match l with
  | [] => EmptyString
  | [x] => x
  | x :: l' => x +:+ " " +:+ serialize l'
  end.

(** [el.classList] *)
Definition classList (a : attributes) : list string :=
  dedupe (split_ws (default "" (getAttribute a "class"))).

Definition contains (l : list string) (token : string) : bool :=
  existsb (String.eqb token) l.

(** [el.classList.toggle(token, force)] *)
Definition classList_toggle (token : string) (force : bool) (a : attributes) : attributes :=
  let tokens := classList a in
  if contains tokens token then
    if force then a
    else setAttribute "class"
           (serialize (List.filter (fun y => negb (String.eqb y token)) tokens)) a
  else
    if force then setAttribute "class" (serialize (tokens ++ [token])) a
    else a.

(** *** Selectors *)

(** The elements among [n] and its descendants that match, in document
    order.  [sel] tests the attributes of an element given what is known of
    its ancestors, which [next] extends by the element itself. *)
Fixpoint matching {C} (sel : C -> attributes -> bool) (next : C -> attributes -> C)
    (c : C) (n : node) : list path :=
  match n with
  | Text _ => []
  | Element _ a cs =>
      (if sel c a then [[]] else [])
      ++ indexed 0 (map (matching sel next (next c a)) cs)
  end.

(** [root.querySelectorAll(selector)]: the matching descendants of [root],
    [root] itself excluded, as a static list. *)
Definition querySelectorAll {C} (sel : C -> attributes -> bool)
    (next : C -> attributes -> C) (c : C) (root : node) : list path :=
  match root with
  | Text _ => []
  | Element _ a cs => indexed 0 (map (matching sel next (next c a)) cs)
  end.

(** [[name]] *)
Definition by_attribute (name : string) : unit -> attributes -> bool :=
  fun _ a => hasAttribute name a.
Definition no_context : unit -> attributes -> unit := fun _ _ => tt.

(** [.lang-switcher [data-lang]]: the context tells whether an ancestor has
    the class. *)
Definition switcher_button : bool -> attributes -> bool :=
  fun inside a => inside && hasAttribute "data-lang" a.
Definition inside_switcher : bool -> attributes -> bool :=
  fun inside a => inside || contains (classList a) "lang-switcher".

(** A class token: not empty and free of whitespace. *)
Fixpoint no_ws (s : string) : bool :=
  match s with
  | EmptyString => true
  | String c r => negb (is_dom_ws c) && no_ws r
  end.

Definition token (s : string) : bool := nonempty s && no_ws s.

(** ** DOM applicator *)

(** [p] lies strictly below [d]. *)
Fixpoint below (d p : path) : bool :=
  match d, p with
  | [], _ :: _ => true
  | i :: d', j :: p' => Nat.eqb i j && below d' p'
  | _, _ => false
  end.

(** The first index of every recorded position is smaller than [i]. *)
Definition heads_lt (i : nat) (det : list path) : Prop :=
  Forall (fun d => match d with j :: _ => (j < i)%nat | [] => False end) det.

(** [s.replace(pat, '')]: the first occurrence of [pat] removed. *)
Fixpoint remove_first (pat s : string) : string :=
  if String.prefix pat s then String.substring (String.length pat) (String.length s) s
  else match s with
       | EmptyString => EmptyString
       | String c r => String c (remove_first pat r)
       end.

Definition attrAttrs : list string :=
  ["data-i18n-attr"; "data-i18n-placeholder"; "data-i18n-title"; "data-i18n-alt"].

Definition on_attributes (f : attributes -> attributes) (n : node) : node :=
  match n with
  | Element t a cs => Element t (f a) cs
  | Text _ => n
  end.


(** The children that [el.textContent = s] leaves. *)
Definition textContent_children (s : string) : list node :=
  if String.eqb s "" then [] else [Text s].

(** [const key = el.getAttribute(marker);
     const namespace = el.getAttribute('data-i18n-ns');
     const value = this.t(key, namespace)], and [Some value] when
    [value !== key]. *)
Definition translated (self : I18N) (marker : string) (a : attributes) : option value :=
  match getAttribute a marker with
  | Some key =>
      let value := t self key (getAttribute a "data-i18n-ns") in
      if strict_neq_str value key then Some value else None
  | None => None
  end.

(** [btn.classList.toggle('active', btn.getAttribute('data-lang') === lang)] *)
Definition switcher_body (lang : string) (a : attributes) : attributes :=
  classList_toggle "active"
    (match getAttribute a "data-lang" with
     | Some l => String.eqb l lang
     | None => false
     end) a.

(** The loop over the language switcher buttons; every turn calls
    [getCurrentLang]. *)
Definition forEach_switcher (snapshot : list path) (st : state) (tree : node) : state * node :=
  fold_left
    (fun '(st, tree) p =>
       let '(lang, st') := getCurrentLang st in
       (st', update p (on_attributes (switcher_body lang)) tree))
    snapshot (st, tree).

(** *** Loops that an exception can end *)

(** What the body of a loop does with an element: nothing, a write, or it
    throws. *)
Inductive action (A : Type) :=
| Nothing
| Write (x : A)
| Throws (e : exception).

Arguments Nothing {A}.
Arguments Write {A} x.
Arguments Throws {A} e.

(** Statements in sequence: an exception skips what follows. *)
Definition and_then {S} (r : completion * S) (next : S -> completion * S)
    : completion * S :=
  match r with
  | (Normal, s) => next s
  | (Throw e, s) => (Throw e, s)
  end.

(** [list.forEach(body)]: one turn per item, in order; an exception in a
    turn ends the loop. *)
Fixpoint forEach {A S} (body : S -> A -> completion * S) (items : list A) (s : S)
    : completion * S :=
  match items with
  | [] => (Normal, s)
  | x :: rest => and_then (body s x) (forEach body rest)
  end.

Section Applicator.

(** The conversion of a value to a string, which throws a [TypeError] where
    it is [None] (an object whose own [toString] is not a function, for
    one), and the HTML fragment parser (context element, markup); both are
    the browser's. *)
Variable ToString : value -> option string.
Variable parseFragment : string -> string -> list node.

(** [if (value !== key) el.textContent = value] *)
Definition text_body (self : I18N) (tag : string) (a : attributes)
    : action (list node) :=
  match translated self "data-i18n" a with
  | Some value =>
      match ToString value with
      | Some s => Write (textContent_children s)
      | None => Throws TypeError
      end
  | None => Nothing
  end.

(** [if (value !== key) el.innerHTML = value] *)
Definition html_body (self : I18N) (tag : string) (a : attributes)
    : action (list node) :=
  match translated self "data-i18n-html" a with
  | Some value =>
      match ToString value with
      | Some s => Write (parseFragment tag s)
      | None => Throws TypeError
      end
  | None => Nothing
  end.

(** [if (value !== key) el.setAttribute(attrName, value)] *)
Definition attr_body (self : I18N) (attr : string) (a : attributes)
    : action attributes :=
  match translated self attr a with
  | Some value =>
      match ToString value with
      | Some s => Write (setAttribute (remove_first "data-i18n-" attr) s a)
      | None => Throws TypeError
      end
  | None => Nothing
  end.

(** One turn of a [forEach] whose body replaces the children of the
    element.  The list is static: an element below one that was rewritten
    earlier in the loop is no longer in the tree; the body runs on it all the
    same, with the attributes it had in [tree0], the tree the list was taken
    from, and its write leaves the tree as it is. *)
Definition write_children (body : string -> attributes -> action (list node))
    (tree0 : node) (st : node * list path) (p : path)
    : completion * (node * list path) :=
  let '(tree, det) := st in
  if existsb (fun d => below d p) det then
    match get tree0 p with
    | Some (Element t a _) =>
        match body t a with
        | Throws e => (Throw e, st)
        | _ => (Normal, st)
        end
    | _ => (Normal, st)
    end
  else match get tree p with
       | Some (Element t a cs) =>
           match body t a with
           | Write cs' => (Normal, (update p (fun _ => Element t a cs') tree, p :: det))
           | Nothing => (Normal, st)
           | Throws e => (Throw e, st)
           end
       | _ => (Normal, st)
       end.

Definition forEach_replacing (snapshot : list path)
    (body : string -> attributes -> action (list node)) (tree : node)
    : completion * node :=
  let r := forEach (write_children body tree) snapshot (tree, []) in
  (fst r, fst (snd r)).

(** One turn of a [forEach] whose body only writes attributes of the
    element. *)
Definition write_attributes (body : attributes -> action attributes)
    (tree : node) (p : path) : completion * node :=
  match get tree p with
  | Some (Element t a cs) =>
      match body a with
      | Write a' => (Normal, update p (fun _ => Element t a' cs) tree)
      | Nothing => (Normal, tree)
      | Throws e => (Throw e, tree)
      end
  | _ => (Normal, tree)
  end.

Definition forEach_updating (snapshot : list path)
    (body : attributes -> action attributes) (tree : node) : completion * node :=
  forEach (write_attributes body) snapshot tree.

(** [applyTranslations(root)]: how the call ends, and the state and the
    tree it leaves.  [inside] tells whether an ancestor of [root] has the
    class [lang-switcher]; for the document it is false.  A conversion that
    throws ends the call where it stands: the later loops do not run. *)
Definition applyTranslations (inside : bool) (st : state) (root : node)
    : completion * (state * node) :=
  let st := snd (getCurrentLang st) in
  let self := engine st in
  let translated_root :=
    and_then
      (and_then
         (forEach_replacing
            (querySelectorAll (by_attribute "data-i18n") no_context tt root)
            (text_body self) root)
         (fun root =>
            forEach_replacing
              (querySelectorAll (by_attribute "data-i18n-html") no_context tt root)
              (html_body self) root))
      (forEach
         (fun root attr =>
            forEach_updating
              (querySelectorAll (by_attribute attr) no_context tt root)
              (attr_body self attr) root)
         attrAttrs) in
  match translated_root with
  | (Normal, root) =>
      (Normal,
       forEach_switcher
         (querySelectorAll switcher_button inside_switcher inside root) st root)
  | (Throw e, root) => (Throw e, (st, root))
  end.

End Applicator.

(** The string of a value, where the conversion answers. *)
Definition converted (ToString : value -> option string) (v : value) : string :=
  default "" (ToString v).

(** *** The loops when no conversion throws *)

(** The same loops for a conversion that always answers.  They give the
    writes of a call in which nothing throws, and are what the passes by
    recursion over the tree are compared with. *)
Section Unfailing.

(** A conversion that always answers. *)
Variable print : value -> string.
Variable parseFragment : string -> string -> list node.

(** The new children of an element with a [data-i18n] marker. *)
Definition text_body_ok (self : I18N) (tag : string) (a : attributes) : option (list node) :=
  match translated self "data-i18n" a with
  | Some value => Some (textContent_children (print value))
  | None => None
  end.

(** The new children of an element with a [data-i18n-html] marker. *)
Definition html_body_ok (self : I18N) (tag : string) (a : attributes) : option (list node) :=
  match translated self "data-i18n-html" a with
  | Some value => Some (parseFragment tag (print value))
  | None => None
  end.

(** The attributes of an element with the marker [attr]. *)
Definition attr_body_ok (self : I18N) (attr : string) (a : attributes) : attributes :=
  match translated self attr a with
  | Some value => setAttribute (remove_first "data-i18n-" attr) (print value) a
  | None => a
  end.

(** One turn of a [forEach] whose body replaces the children of the
    element.  The list is static: an element below one that was rewritten
    earlier is no longer in the tree, and writing to it leaves the tree as
    it is. *)
Definition write_children_ok (body : string -> attributes -> option (list node))
    (st : node * list path) (p : path) : node * list path :=
  let '(tree, det) := st in
  if existsb (fun d => below d p) det then st
  else match get tree p with
       | Some (Element t a cs) =>
           match body t a with
           | Some cs' => (update p (fun _ => Element t a cs') tree, p :: det)
           | None => st
           end
       | _ => st
       end.

Definition forEach_replacing_ok (snapshot : list path)
    (body : string -> attributes -> option (list node)) (tree : node) : node :=
  fst (fold_left (write_children_ok body) snapshot (tree, [])).

(** A [forEach] whose body only writes attributes of the element. *)
Definition forEach_updating_ok (snapshot : list path)
    (body : attributes -> attributes) (tree : node) : node :=
  fold_left (fun tree p => update p (on_attributes body) tree) snapshot tree.

(** [applyTranslations_ok(root)].  [inside] tells whether an ancestor of
    [root] has the class [lang-switcher]; for the document it is false. *)
Definition applyTranslations_ok (inside : bool) (st : state) (root : node) : state * node :=
  let st := snd (getCurrentLang st) in
  let self := engine st in
  let root :=
    forEach_replacing_ok
      (querySelectorAll (by_attribute "data-i18n") no_context tt root)
      (text_body_ok self) root in
  let root :=
    forEach_replacing_ok
      (querySelectorAll (by_attribute "data-i18n-html") no_context tt root)
      (html_body_ok self) root in
  let root :=
    fold_left
      (fun root attr =>
         forEach_updating_ok
           (querySelectorAll (by_attribute attr) no_context tt root)
           (attr_body_ok self attr) root)
      attrAttrs root in
  forEach_switcher
    (querySelectorAll switcher_button inside_switcher inside root) st root.

(** *** The passes by recursion over the tree *)

(** Rewrite the topmost elements for which [body] gives new children. *)
Fixpoint replaced (body : string -> attributes -> option (list node)) (n : node) : node :=
  match n with
  | Text _ => n
  | Element t a cs =>
      match body t a with
      | Some cs' => Element t a cs'
      | None => Element t a (map (replaced body) cs)
      end
  end.

(** Rewrite the attributes of every matching element. *)
Fixpoint updated {C} (sel : C -> attributes -> bool) (next : C -> attributes -> C)
    (f : attributes -> attributes) (c : C) (n : node) : node :=
  match n with
  | Text _ => n
  | Element t a cs =>
      Element t (if sel c a then f a else a)
        (map (updated sel next f (next c a)) cs)
  end.

(** A pass applies to the descendants of the root only. *)
Definition below_root (pass : list node -> list node) (root : node) : node :=
  match root with
  | Text _ => root
  | Element t a cs => Element t a (pass cs)
  end.

(** All the attribute writes on one element: the four attribute markers,
    then the switcher state. *)
Definition all_attributes (self : I18N) (lang : string) (inside : bool)
    (a : attributes) : attributes :=
  let a' := fold_left (fun a attr => attr_body_ok self attr a) attrAttrs a in
  if switcher_button inside a' then switcher_body lang a' else a'.

(** The attribute loops on one descendant of the root. *)
Definition attributes_applied (self : I18N) (lang : string) (inside : bool)
    (n : node) : node :=
  updated switcher_button inside_switcher (switcher_body lang) inside
    (fold_left
       (fun n attr => updated (by_attribute attr) no_context (attr_body_ok self attr) tt n)
       attrAttrs n).

(** The whole of [applyTranslations_ok] on one descendant of the root. *)
Definition applied (self : I18N) (lang : string) (inside : bool) (n : node) : node :=
  attributes_applied self lang inside
    (replaced (html_body_ok self) (replaced (text_body_ok self) n)).

End Unfailing.

(** The attributes that the attribute markers write. *)
Definition targets : list string := ["attr"; "placeholder"; "title"; "alt"].

(** The four attribute loops on the attributes of one element. *)
Definition markers_applied (print : value -> string) (self : I18N)
    (a : attributes) : attributes :=
  fold_left (fun a attr => attr_body_ok print self attr a) attrAttrs a.

(** Every attribute marker with a translation has it in its target. *)
Definition settled_attributes (print : value -> string) (self : I18N)
    (a : attributes) : Prop :=
  forall attr value,
    In attr attrAttrs ->
    translated self attr a = Some value ->
    getAttribute a (remove_first "data-i18n-" attr) = Some (print value).

(** A marker, the namespace override and [data-lang] are never written. *)
Definition kept (name : string) : Prop := ~ In name ("class" :: targets).

(** ** Further notions used in the properties *)

(** The cached language is unset or one of the two codes. *)
Definition cache_valid (st : state) : Prop :=
  currentLang (engine st) = None
  \/ currentLang (engine st) = Some "zh"
  \/ currentLang (engine st) = Some "en".

(** The language tag begins with [zh], in any letter case. *)
Definition zh_tag (s : string) : bool :=
  match s with
  | String c1 (String c2 _) =>
      (Ascii.eqb c1 "z" || Ascii.eqb c1 "Z") && (Ascii.eqb c2 "h" || Ascii.eqb c2 "H")
  | _ => false
  end.

(** No character of the string is a path separator. *)
Fixpoint sep_free (s : string) : bool :=
  match s with
  | EmptyString => true
  | String c r => negb (is_sep c) && sep_free r
  end.

(** The extension [.html] in any letter case. *)
Definition html_extension (ext : string) : bool :=
  starts_with_ci ".html" ext && (String.length ext =? 5)%nat.

(** [P] holds of the attributes of every element of the tree. *)
Fixpoint every_element (P : attributes -> bool) (n : node) : bool :=
  match n with
  | Text _ => true
  | Element _ a cs => P a && forallb (every_element P) cs
  end.

Definition is_some {A} (o : option A) : bool :=
  match o with Some _ => true | None => false end.

(** None of the markers of the element has a translation. *)
Definition no_translation (self : I18N) (a : attributes) : bool :=
  forallb (fun marker => negb (is_some (translated self marker a)))
    ("data-i18n" :: "data-i18n-html" :: attrAttrs).

(** The element has a text or markup marker with a translation, so that
    [applyTranslations] replaces its children. *)
Definition container (self : I18N) (a : attributes) : bool :=
  is_some (translated self "data-i18n" a)
  || is_some (translated self "data-i18n-html" a).

(** [btn.getAttribute('data-lang') === lang] *)
Definition data_lang_is (lang : string) (a : attributes) : bool :=
  match getAttribute a "data-lang" with
  | Some l => String.eqb l lang
  | None => false
  end.

(** Every button of a language switcher in the tree is active exactly when
    its [data-lang] is [lang]. *)
Fixpoint buttons_consistent (lang : string) (inside : bool) (n : node) : bool :=
  match n with
  | Text _ => true
  | Element _ a cs =>
      (if switcher_button inside a
       then Bool.eqb (contains (classList a) "active") (data_lang_is lang a)
       else true)
      && forallb (buttons_consistent lang (inside_switcher inside a)) cs
  end.

(** Whether an ancestor of the node at [p] has the class [lang-switcher],
    [inside] telling it for the ancestors of [n]. *)
Fixpoint context_at (inside : bool) (n : node) (p : path) : bool :=
  match p with
  | [] => inside
  | i :: p' =>
      match n with
      | Element _ a cs =>
          match cs !! i with
          | Some c => context_at (inside_switcher inside a) c p'
          | None => inside
          end
      | Text _ => inside
      end
  end.

(** The position [p] exists below [n], and [n] and every element between it
    and that position are elements whose children [applyTranslations] leaves
    in place. *)
Fixpoint open_path (self : I18N) (n : node) (p : path) : bool :=
  match p with
  | [] => true
  | i :: p' =>
      match n with
      | Element _ a cs =>
          negb (container self a)
          && match cs !! i with
             | Some c => open_path self c p'
             | None => false
             end
      | Text _ => false
      end
  end.

(** The same below the root, whose own markers are not looked at. *)
Definition clear_path (self : I18N) (root : node) (p : path) : bool :=
  match p, root with
  | [], _ => true
  | i :: p', Element _ _ cs =>
      match cs !! i with
      | Some c => open_path self c p'
      | None => false
      end
  | _ :: _, Text _ => false
  end.

(** [n.childNodes] *)
Definition childNodes (n : node) : list node :=
  match n with
  | Element _ _ cs => cs
  | Text _ => []
  end.

(** Whether, for the children of [root], an ancestor has the class
    [lang-switcher]. *)
Definition root_context (inside : bool) (root : node) : bool :=
  match root with
  | Element _ a _ => inside_switcher inside a
  | Text _ => inside
  end.

(** [I18N.applyTranslations(el)] for the element [el] found at [p] in the
    document; the writes happen in the document. *)
Definition applyTranslations_at (ToString : value -> option string)
    (parseFragment : string -> string -> list node)
    (p : path) (st : state) (doc : node) : completion * (state * node) :=
  match get doc p with
  | Some el =>
      let r := applyTranslations ToString parseFragment (context_at false doc p) st el in
      (fst r, (fst (snd r), update p (fun _ => snd (snd r)) doc))
  | None => (Normal, (st, doc))
  end.

(** Two lists of attributes agree on every attribute that is never
    written. *)
Definition same_kept (a b : attributes) : Prop :=
  forall name, kept name -> getAttribute a name = getAttribute b name.

(** One write of [applyTranslations] at the position [q] of a tree: the
    children of an element with a translated text or markup marker are
    replaced, or attributes other than the kept ones are set. *)
Inductive write (self : I18N) : path -> node -> node -> Prop :=
| write_content t a cs cs' :
    container self a = true ->
    write self [] (Element t a cs) (Element t a cs')
| write_attrs t a a' cs :
    same_kept a' a ->
    write self [] (Element t a cs) (Element t a' cs)
| write_child t a cs i q c c' :
    cs !! i = Some c ->
    write self q c c' ->
    write self (i :: q) (Element t a cs) (Element t a (<[i := c']> cs)).

(** The tree [n] has, along [p], what [n0] has there: the same tags and kept
    attributes, no element above the end of [p] whose content is replaced,
    and at the end of [p] as many children, unless its content is
    replaced. *)
Fixpoint same_spine (self : I18N) (p : path) (n0 n : node) {struct p} : Prop :=
  match n0, n with
  | Element t0 a0 cs0, Element t a cs =>
      t = t0 /\ same_kept a a0
      /\ match p with
         | [] => container self a0 = false -> length cs = length cs0
         | i :: p' =>
             container self a0 = false
             /\ match cs0 !! i, cs !! i with
                | Some c0, Some c => same_spine self p' c0 c
                | _, _ => False
                end
         end
  | _, _ => False
  end.

(** Every value that a key can stand for converts to a string. *)
Definition convertible (ToString : value -> option string) (self : I18N) : Prop :=
  forall key namespace, ToString (t self key namespace) <> None.

(** ** Sample inputs *)

Definition page_and_footer : I18N :=
  {| currentLang := Some "zh";
     currentPage := Some "services";
     translations := registry_of
       [("header", VObj [("nav", VObj [("home", VStr "Home")])]);
        ("footer", VObj [("title", VStr "Footer title")]);
        ("services", VObj [("title", VStr "Services title")])] |}.

Definition empty_in_header : I18N :=
  {| currentLang := Some "en";
     currentPage := None;
     translations := registry_of
       [("header", VObj [("k", VStr "")]);
        ("footer", VObj [("k", VStr "x")])] |}.

Definition null_in_header : I18N :=
  {| currentLang := Some "en";
     currentPage := None;
     translations := registry_of
       [("header", VObj [("k", VNull)]);
        ("footer", VObj [("k", VStr "x")])] |}.

Definition services_and_solutions : I18N :=
  {| currentLang := Some "zh";
     currentPage := Some "index";
     translations := registry_of
       [("header", VObj []);
        ("footer", VObj []);
        ("index", VObj [("hero", VStr "Welcome")]);
        ("services", VObj [("k", VStr "from services")]);
        ("solutions", VObj [("k", VStr "from solutions")])] |}.

Definition fresh_state : state :=
  {| engine := {| currentLang := None; currentPage := None;
                  translations := empty_registry |};
     env := {| localStorage := ∅; storage_full := false;
               navigator_language := Some "en-US";
               documentElement_lang := "zh-CN"; dispatched := [] |} |}.

Definition nested_payload : value :=
  VObj [("a", VObj [("b", VArr [VStr "first"; VStr "second"])]);
        ("empty", VStr "");
        ("off", VBool false)].

(** A page payload with keys that are also names of array methods. *)
Definition company_payload : value :=
  VObj [("contact", VObj [("map", VObj [("title", VStr "Find us")]);
                          ("toString", VStr "own")]);
        ("about", VObj [("values", VArr [VStr "care"; VNull]);
                        ("keys", VStr "Key facts")])].

Definition items_payload : value :=
  VObj [("items", VArr [VStr "x"; VStr "y"])].

(** The English file for contact answers 404; header and footer load. *)
Definition contact_404 : network :=
  fun i =>
    match i with
    | 0%nat => Fulfilled {| ok := true; json := Fulfilled (VObj [("nav", VStr "Home")]) |}
    | 1%nat => Fulfilled {| ok := true; json := Fulfilled (VObj [("c", VStr "(c)")]) |}
    | _ => Fulfilled {| ok := false; json := Rejected "Unexpected token <" |}
    end.

(** A browser on the values that the samples use: a string converts to
    itself, an object with an own [toString] that is no function does not
    convert, any other object prints as [[object Object]]; and it parses
    two particular markups. *)
Definition sample_ToString (v : value) : option string :=
  match v with
  | VStr s => Some s
  | VObj props =>
      match assoc props "toString" with
      | Some _ => None
      | None => Some "[object Object]"
      end
  | _ => Some "[object Object]"
  end.

(** A conversion that always answers: what is no string prints as an
    object. *)
Definition plain_ToString (v : value) : option string :=
  Some (match v with
        | VStr s => s
        | _ => "[object Object]"
        end).

Definition sample_parse (tag html : string) : list node :=
  if String.eqb html "<b data-i18n='title'>x</b>"
  then [Element "b" [("data-i18n", "title")] [Text "x"]]
  else if String.eqb html "<b data-i18n='title'><i data-i18n='obj'>x</i></b>"
  then [Element "b" [("data-i18n", "title")]
          [Element "i" [("data-i18n", "obj")] [Text "x"]]]
  else [Text html].

Definition sample_state : state :=
  {| engine := {| currentLang := None;
                  currentPage := Some "services";
                  translations := registry_of
                    [("services",
                      VObj [("title", VStr "Services");
                            ("rich", VStr "<b data-i18n='title'>x</b>");
                            ("ph", VStr "Type here")])] |};
     env := {| localStorage := ∅; storage_full := false;
               navigator_language := Some "en-US";
               documentElement_lang := "zh-CN"; dispatched := [] |} |}.

Definition sample_document : node :=
  Element "body" []
    [Element "h1" [("data-i18n", "title")]
       [Element "span" [("data-i18n", "title")] [Text "old"]];
     Element "div" [("data-i18n-html", "rich")] [];
     Element "input" [("data-i18n-placeholder", "ph"); ("placeholder", "old")] [];
     Element "p" [("data-i18n", "missing")] [Text "keep"];
     Element "div" [("class", " lang-switcher  x ")]
       [Element "a" [("data-lang", "en")] [];
        Element "a" [("data-lang", "zh"); ("class", "active b")] []]].

(** A browser whose storage takes no write. *)
Definition full_storage : state :=
  {| engine := {| currentLang := None; currentPage := None;
                  translations := empty_registry |};
     env := {| localStorage := ∅; storage_full := true;
               navigator_language := Some "en-US";
               documentElement_lang := "zh-CN"; dispatched := [] |} |}.

(** A new session of the same browser: the engine starts afresh, the storage
    is kept, and here the browser reports English. *)
Definition reloaded (st : state) : state :=
  {| engine := {| currentLang := None; currentPage := None;
                  translations := empty_registry |};
     env := {| localStorage := localStorage (env st); storage_full := false;
               navigator_language := Some "en-GB";
               documentElement_lang := "zh-CN"; dispatched := [] |} |}.

(** A stored value that is not one of the two codes, in a Chinese browser. *)
Definition stale_preference : state :=
  {| engine := {| currentLang := None; currentPage := None;
                  translations := empty_registry |};
     env := {| localStorage := {[ "lang" := "fr" ]}; storage_full := false;
               navigator_language := Some "ZH-tw";
               documentElement_lang := "zh-CN"; dispatched := [] |} |}.

(** The engine on the contact page after the load of [contact_404]. *)
Definition after_contact_load (order : list nat) : I18N :=
  {| currentLang := Some "en";
     currentPage := Some "contact";
     translations :=
       registry_now (loadTranslations ["header"; "footer"; "contact"] "en"
                       contact_404 order empty_registry) |}.

(** Every file loads; the page file has a nested title. *)
Definition services_ok : network :=
  fun i =>
    match i with
    | 2%nat =>
        Fulfilled {| ok := true;
                     json := Fulfilled
                       (VObj [("hero", VObj [("title", VStr "Our services")])]) |}
    | _ => Fulfilled {| ok := true; json := Fulfilled (VObj []) |}
    end.

Definition after_services_load (order : list nat) : I18N :=
  {| currentLang := Some "zh";
     currentPage := Some "services";
     translations :=
       registry_now (loadTranslations ["header"; "footer"; "services"] "zh"
                       services_ok order empty_registry) |}.

(** No marker in the document has a translation here. *)
Definition untranslated_document : node :=
  Element "body" []
    [Element "p" [("data-i18n", "missing")] [Text "keep"];
     Element "div" [("class", "lang-switcher")]
       [Element "a" [("data-lang", "en")] [];
        Element "a" [("data-lang", "zh"); ("class", "active")] []]].

(** A registry in which a key stands for an object that does not convert
    to a string, and a markup that has a marker for it. *)
Definition unprintable_state : state :=
  {| engine := {| currentLang := None;
                  currentPage := Some "services";
                  translations := registry_of
                    [("services",
                      VObj [("title", VStr "Services");
                            ("obj", VObj [("toString", VNum 1)]);
                            ("rich",
                             VStr "<b data-i18n='title'><i data-i18n='obj'>x</i></b>")])] |};
     env := {| localStorage := ∅; storage_full := false;
               navigator_language := Some "en-US";
               documentElement_lang := "zh-CN"; dispatched := [] |} |}.

Definition unprintable_document : node :=
  Element "body" [] [Element "div" [("data-i18n-html", "rich")] []].

(** * Properties *)

(** ** The embedding on sample inputs *)

Example isNaN_samples :
  map isNaN [""; " 12 "; "1e3"; "-1"; "0x1f"; "Infinity"; "0x"; "-0x1"; "12px"; "length"]
  = [false; false; false; false; false; false; true; true; true; true].
Proof. vm_compute. reflexivity. Qed.

Example parseInt_samples :
  map parseInt [" 12 "; "1e3"; "-1"; "0x1f"; "12px"; ""; "Infinity"]
  = [Some 12; Some 1; Some (-1); Some 31; Some 12; None; None].
Proof. vm_compute. reflexivity. Qed.

Example getValue_samples :
  getValue nested_payload "a.b.1" = VStr "second"
  /\ getValue nested_payload "off" = VBool false
  /\ getValue nested_payload "a.b.7" = VUndefined
  /\ getValue nested_payload "a.b.7.x" = VNull
  /\ getValue nested_payload "a.x" = VNull
  /\ getValue nested_payload "empty.x" = VNull
  /\ getValue VUndefined "a" = VNull
  /\ getValue nested_payload "constructor" = VHost (HFunction "Object").
Proof. repeat split; vm_compute; reflexivity. Qed.

Example getPageName_samples :
  getPageName "/SERVICES.HTML" = VStr "services"
  /\ getPageName "/site/contact" = VStr "contact"
  /\ getPageName "/E:/path/introduction.html" = VStr "introduction"
  /\ getPageName "/a.html.html" = VStr "index"
  /\ getPageName "/constructor.html" = VHost (HFunction "Object").
Proof. repeat split; vm_compute; reflexivity. Qed.

Example getCurrentLang_samples :
  fst (getCurrentLang fresh_state) = "en"
  /\ fst (getCurrentLang (snd (setLang (VStr "zh") fresh_state))) = "zh".
Proof. split; vm_compute; reflexivity. Qed.

Example applyTranslations_sample :
  fst (applyTranslations sample_ToString sample_parse false sample_state sample_document)
  = Normal
  /\ snd (snd (applyTranslations sample_ToString sample_parse false sample_state
                 sample_document))
  = Element "body" []
      [Element "h1" [("data-i18n", "title")] [Text "Services"];
       Element "div" [("data-i18n-html", "rich")]
         [Element "b" [("data-i18n", "title")] [Text "x"]];
       Element "input"
         [("data-i18n-placeholder", "ph"); ("placeholder", "Type here")] [];
       Element "p" [("data-i18n", "missing")] [Text "keep"];
       Element "div" [("class", " lang-switcher  x ")]
         [Element "a" [("data-lang", "en"); ("class", "active")] [];
          Element "a" [("data-lang", "zh"); ("class", "b")] []]].
Proof. split; vm_compute; reflexivity. Qed.


(** ** Namespace fallback engine *)

Section Fallback.

Variable self : I18N.
Variable key : string.

Lemma first_found_app (xs ys : list value) (miss : value) :
  first_found (xs ++ ys) miss = first_found xs (first_found ys miss).
Proof.
  induction xs as [|v xs IH]; simpl; [reflexivity|].
  destruct (found v); [reflexivity | exact IH].
Qed.

Lemma first_found_all_missing (vs : list value) (miss : value) :
  Forall (fun v => found v = false) vs -> first_found vs miss = miss.
Proof.
  induction 1 as [|v vs Hv _ IH]; simpl; [reflexivity|].
  rewrite Hv. exact IH.
Qed.

Lemma first_found_hit (pre : list value) (v : value) (post : list value) (miss : value) :
  Forall (fun w => found w = false) pre -> found v = true ->
  first_found (pre ++ v :: post) miss = v.
Proof.
  intros Hpre Hv. rewrite first_found_app, first_found_all_missing by exact Hpre.
  simpl. rewrite Hv. reflexivity.
Qed.

(** A loop that tries each admitted namespace returns the first value found
    among the admitted ones. *)
Lemma for_of_try (g : string -> bool) (nss : list string) (after : value) :
  for_of nss (fun ns => guarded (g ns) (try_namespace self ns key)) after
  = first_found (map (lookup_ns self key) (List.filter g nss)) after.
Proof.
  induction nss as [|ns nss IH]; simpl; [reflexivity|].
  unfold guarded at 1. destruct (g ns); simpl; [|exact IH].
  unfold try_namespace, lookup_ns.
  destruct (found (getValue (reg_get (translations self) ns) key)); [reflexivity | exact IH].
Qed.

Lemma for_of_try_all (nss : list string) (after : value) :
  for_of nss (fun ns => try_namespace self ns key) after
  = first_found (map (lookup_ns self key) nss) after.
Proof.
  induction nss as [|ns nss IH]; simpl; [reflexivity|].
  unfold try_namespace at 1, lookup_ns at 1.
  destruct (found (getValue (reg_get (translations self) ns) key)); [reflexivity | exact IH].
Qed.

Lemma guarded_try (g : bool) (ns : string) (after : value) :
  match guarded g (try_namespace self ns key) with
  | Some r => r
  | None => after
  end = first_found (map (lookup_ns self key) (if g then [ns] else [])) after.
Proof.
  destruct g; simpl; [|reflexivity].
  unfold try_namespace, lookup_ns.
  destruct (found (getValue (reg_get (translations self) ns) key)); reflexivity.
Qed.

(** [t] returns the first value found along [consulted], and the key itself
    when there is none. *)
Lemma t_first_found (namespace : option string) :
  t self key namespace
  = first_found (map (lookup_ns self key) (consulted self namespace)) (VStr key).
Proof.
  unfold t, consulted.
  destruct (set_and_nonempty namespace) eqn:Hns.
  - set (nsp := default "" namespace).
    rewrite (guarded_try true nsp).
    rewrite guarded_try, for_of_try, for_of_try_all.
    rewrite !map_app, !first_found_app.
    f_equal. f_equal.
    unfold current_list, set_and_nonempty.
    destruct (currentPage self) as [cur|]; simpl; [|reflexivity].
    destruct (nonempty cur); simpl; [|reflexivity].
    destruct (negb (String.eqb cur nsp)); reflexivity.
  - rewrite guarded_try, !for_of_try.
    rewrite !List.filter_app, !map_app, !first_found_app.
    f_equal. f_equal.
    unfold current_list, set_and_nonempty.
    destruct (currentPage self) as [cur|]; simpl; [|reflexivity].
    destruct (nonempty cur); simpl; [|reflexivity].
    destruct (loaded self cur); reflexivity.
Qed.

End Fallback.

(** C1: with no explicit namespace, [t] consults the current page's
    namespace first, then the page namespaces services, solutions, index,
    introduction, contact, then header, then footer (each only when loaded)
    and returns the first value found; in particular a key present in the
    current page's payload and, with a different value, in the footer payload
    resolves to the current page's value. *)
Theorem t_implicit_order (self : I18N) (key : string) :
  t self key None
  = first_found
      (map (lookup_ns self key)
         (List.filter (loaded self)
            (current_list self
             ++ ["services"; "solutions"; "index"; "introduction"; "contact"]
             ++ ["header"] ++ ["footer"])))
      (VStr key)
  /\ forall cur vpage vfooter,
       currentPage self = Some cur -> cur <> "" ->
       present self cur key vpage ->
       present self "footer" key vfooter ->
       vpage <> vfooter ->
       t self key None = vpage.
Proof.
  split; [apply t_first_found|].
  intros cur vpage vfooter Hcur Hne (Hl & Hv & Hf) _ _.
  rewrite t_first_found. unfold consulted, current_list. simpl.
  rewrite Hcur.
  assert (nonempty cur = true) as ->.
  { unfold nonempty. destruct (String.eqb_spec cur ""); [contradiction | reflexivity]. }
  simpl. rewrite Hl. simpl. rewrite Hv, Hf. reflexivity.
Qed.

Lemma t_implicit_order_witness :
  t page_and_footer "title" None = VStr "Services title".
Proof.
  apply (proj2 (t_implicit_order page_and_footer "title")
           "services" (VStr "Services title") (VStr "Footer title")).
  - reflexivity.
  - discriminate.
  - repeat split; vm_compute; reflexivity.
  - repeat split; vm_compute; reflexivity.
  - discriminate.
Defined.

(** C2, as stated, fails: header is consulted before footer, header stores
    the empty string under the key and footer a non-empty string, and the
    empty string is what [t] returns. *)
Lemma empty_match_stops_search :
  consulted empty_in_header None = ["header"; "footer"]
  /\ lookup_ns empty_in_header "k" "header" = VStr ""
  /\ lookup_ns empty_in_header "k" "footer" = VStr "x"
  /\ t empty_in_header "k" None = VStr ""
  /\ t empty_in_header "k" None <> VStr "x".
Proof. repeat split; try (vm_compute; reflexivity). vm_compute. discriminate. Qed.

(** C2 (amended): the search goes on past every consulted namespace in which
    the key resolves to [null] or [undefined] (absent, or stored as JSON
    null) and stops at the first namespace in which it resolves to anything
    else, the empty string included; that value is returned. *)
Theorem t_skips_missing (self : I18N) (key : string) (namespace : option string)
    (pre : list string) (ns : string) (post : list string) :
  consulted self namespace = (pre ++ ns :: post)%list ->
  Forall (fun n => missing self n key) pre ->
  found (lookup_ns self key ns) = true ->
  t self key namespace = lookup_ns self key ns.
Proof.
  intros Hc Hpre Hns.
  rewrite t_first_found, Hc, map_app. simpl.
  apply first_found_hit; [|exact Hns].
  apply Forall_map. exact Hpre.
Qed.

Lemma t_skips_missing_witness :
  t null_in_header "k" None = VStr "x".
Proof.
  apply (t_skips_missing null_in_header "k" None ["header"] "footer" []).
  - vm_compute. reflexivity.
  - constructor; [vm_compute; reflexivity | constructor].
  - vm_compute. reflexivity.
Defined.

(** C5: when the key resolves in none of the consulted namespaces, with or
    without an explicit namespace, [t] returns the key itself. *)
Theorem t_returns_key_when_unresolved (self : I18N) (key : string)
    (namespace : option string) :
  Forall (fun ns => missing self ns key) (consulted self namespace) ->
  t self key namespace = VStr key.
Proof.
  intros H. rewrite t_first_found.
  apply first_found_all_missing, Forall_map. exact H.
Qed.

Lemma t_returns_key_when_unresolved_witness :
  t page_and_footer "no.such.key" None = VStr "no.such.key"
  /\ t page_and_footer "no.such.key" (Some "contact") = VStr "no.such.key".
Proof.
  split.
  - apply (t_returns_key_when_unresolved page_and_footer "no.such.key" None).
    vm_compute. repeat constructor.
  - apply (t_returns_key_when_unresolved page_and_footer "no.such.key" (Some "contact")).
    vm_compute. repeat constructor.
Defined.

(** C9: when the first namespace that [t] consults holds a payload [P] that
    is not null, the empty key resolves to [P] itself, the whole payload;
    for a payload that is an object or an array this is never the key. *)
Theorem t_empty_key_returns_payload (self : I18N) (namespace : option string)
    (ns : string) (rest : list string) (P : value) :
  consulted self namespace = ns :: rest ->
  reg_get (translations self) ns = P ->
  found P = true ->
  t self "" namespace = P
  /\ (truthy P = true -> t self "" namespace <> VStr "").
Proof.
  intros Hc HP Hf.
  assert (t self "" namespace = P) as Ht.
  { assert (lookup_ns self "" ns = P) as Hl.
    { unfold lookup_ns, getValue. rewrite HP. reflexivity. }
    rewrite t_first_found, Hc. cbn [map first_found].
    rewrite Hl, Hf. reflexivity. }
  split; [exact Ht|].
  intros Htr. rewrite Ht. intros ->. discriminate Htr.
Qed.

Lemma t_empty_key_returns_payload_witness :
  t page_and_footer "" None = VObj [("title", VStr "Services title")]
  /\ t page_and_footer "" (Some "footer") = VObj [("title", VStr "Footer title")].
Proof.
  split.
  - apply (t_empty_key_returns_payload page_and_footer None "services"
             ["services"; "header"; "footer"]); vm_compute; reflexivity.
  - apply (t_empty_key_returns_payload page_and_footer (Some "footer") "footer"
             ["services"; "services"; "header"; "footer"]); vm_compute; reflexivity.
Defined.

(** C10: the two modes use different page lists, solutions before services
    with an explicit namespace and services before solutions without one;
    so when the key is present in the services and solutions payloads and
    resolves neither in the explicit namespace nor in the current page
    (which is neither of the two), the explicit lookup returns the solutions
    value and the lookup without a namespace the services value. *)
Theorem page_lists_differ (self : I18N) (key namespace cur : string)
    (vservices vsolutions : value) :
  pageNamespaces_explicit = ["solutions"; "services"; "index"; "introduction"; "contact"]
  /\ pageNamespaces_implicit = ["services"; "solutions"; "index"; "introduction"; "contact"]
  /\ (namespace <> "" -> missing self namespace key ->
      currentPage self = Some cur -> cur <> "services" -> cur <> "solutions" ->
      missing self cur key ->
      present self "services" key vservices ->
      present self "solutions" key vsolutions ->
      t self key (Some namespace) = vsolutions /\ t self key None = vservices).
Proof.
  split; [reflexivity|]. split; [reflexivity|].
  intros Hne Hmiss Hcur Hc1 Hc2 Hcmiss (Hl1 & Hv1 & Hf1) (Hl2 & Hv2 & Hf2).
  unfold missing in *.
  assert (nonempty namespace = true) as Hn.
  { unfold nonempty. destruct (String.eqb_spec namespace ""); [contradiction | reflexivity]. }
  assert (String.eqb "solutions" namespace = false) as Hs.
  { destruct (String.eqb_spec "solutions" namespace) as [<-|]; [|reflexivity].
    rewrite Hv2 in Hmiss. congruence. }
  split.
  - rewrite t_first_found. unfold consulted.
    change (set_and_nonempty (Some namespace)) with (nonempty namespace).
    rewrite Hn. change (default "" (Some namespace)) with namespace.
    rewrite !map_app, !first_found_app.
    cbn [map first_found]. rewrite Hmiss.
    rewrite (first_found_all_missing (map _ (List.filter _ (current_list self)))).
    2:{ unfold current_list. rewrite Hcur.
        destruct (nonempty cur); simpl; [|constructor].
        destruct (negb (cur =? namespace)%string); simpl; [|constructor].
        constructor; [exact Hcmiss | constructor]. }
    unfold pageNamespaces_explicit. cbn [List.filter].
    rewrite Hs, Hl2. cbn [negb andb map first_found]. rewrite Hv2, Hf2. reflexivity.
  - rewrite t_first_found. unfold consulted.
    cbn [set_and_nonempty].
    rewrite !List.filter_app, !map_app, !first_found_app.
    rewrite (first_found_all_missing (map _ (List.filter _ (current_list self)))).
    2:{ unfold current_list. rewrite Hcur.
        destruct (nonempty cur); simpl; [|constructor].
        destruct (loaded self cur); simpl; [|constructor].
        constructor; [exact Hcmiss | constructor]. }
    unfold pageNamespaces_implicit. cbn [List.filter].
    rewrite Hl1. cbn [map first_found]. rewrite Hv1, Hf1. reflexivity.
Qed.

Lemma page_lists_differ_witness :
  t services_and_solutions "k" (Some "contact") = VStr "from solutions"
  /\ t services_and_solutions "k" None = VStr "from services".
Proof.
  apply (proj2 (proj2 (page_lists_differ services_and_solutions "k" "contact" "index"
                         (VStr "from services") (VStr "from solutions"))));
    try discriminate; try reflexivity;
    repeat split; vm_compute; reflexivity.
Defined.

(** ** Path resolver and language store *)

(** C7: the page identifier is a function of the navigation path alone, and
    [/services.html] gives services, [/] gives index, the clean URL
    [/solutions/] gives solutions, and [/unknown-page.html] gives index. *)
Theorem getPageName_scenarios :
  getPageName "/services.html" = VStr "services"
  /\ getPageName "/" = VStr "index"
  /\ getPageName "/solutions/" = VStr "solutions"
  /\ getPageName "/unknown-page.html" = VStr "index".
Proof. repeat split; vm_compute; reflexivity. Qed.

(** C6, as stated, fails: when the storage takes no write, [setItem] throws
    after the cache was set, and of the four effects only that one occurs. *)
Lemma setLang_storage_refuses :
  fst (setLang (VStr "en") full_storage) = Throw QuotaExceededError
  /\ currentLang (engine (snd (setLang (VStr "en") full_storage))) = Some "en"
  /\ localStorage (env (snd (setLang (VStr "en") full_storage))) !! "lang" = None
  /\ documentElement_lang (env (snd (setLang (VStr "en") full_storage))) = "zh-CN"
  /\ dispatched (env (snd (setLang (VStr "en") full_storage))) = [].
Proof. repeat split. Qed.

(** C6 (amended): [setLang] with anything but ['zh'] or ['en'] returns and
    changes nothing: the cached language, the stored preference, the
    document language attribute and the list of dispatched events are as
    before.  With one of the two codes the cache holds it; when the storage
    takes the write, the call returns, the preference is stored, the document
    attribute is set and one [langchange] event carrying the code is
    dispatched; when the storage refuses the write, the call ends with
    [setItem]'s exception and nothing but the cache has changed. *)
Theorem setLang_effects (lang : value) (st : state) :
  (lang <> VStr "zh" -> lang <> VStr "en" -> setLang lang st = (Normal, st))
  /\ (forall l, lang = VStr l -> l = "zh" \/ l = "en" ->
      currentLang (engine (snd (setLang lang st))) = Some l
      /\ currentPage (engine (snd (setLang lang st))) = currentPage (engine st)
      /\ translations (engine (snd (setLang lang st))) = translations (engine st)
      /\ (storage_full (env st) = false ->
          fst (setLang lang st) = Normal
          /\ localStorage (env (snd (setLang lang st))) !! "lang" = Some l
          /\ documentElement_lang (env (snd (setLang lang st)))
             = (if String.eqb l "zh" then "zh-CN" else "en")
          /\ dispatched (env (snd (setLang lang st)))
             = dispatched (env st) ++ [CustomEvent "langchange" l])
      /\ (storage_full (env st) = true ->
          fst (setLang lang st) = Throw QuotaExceededError
          /\ env (snd (setLang lang st)) = env st)).
Proof.
  split.
  - intros Hzh Hen. destruct lang as [| | | |l| | |]; try reflexivity.
    simpl. destruct (String.eqb_spec l "zh") as [->|]; [contradiction|].
    destruct (String.eqb_spec l "en") as [->|]; [contradiction|]. reflexivity.
  - intros l -> [-> | ->]; unfold setLang;
      cbn [String.eqb Ascii.eqb Bool.eqb negb andb];
      destruct (storage_full (env st)); cbn [fst snd engine env currentLang
        currentPage translations localStorage documentElement_lang dispatched];
      rewrite ?lookup_insert_eq; repeat split; try discriminate.
Qed.

Lemma setLang_effects_witness :
  setLang (VStr "fr") fresh_state = (Normal, fresh_state)
  /\ currentLang (engine (snd (setLang (VStr "en") fresh_state))) = Some "en"
  /\ documentElement_lang (env (snd (setLang (VStr "en") fresh_state))) = "en"
  /\ env (snd (setLang (VStr "en") full_storage)) = env full_storage.
Proof.
  split; [|split; [|split]].
  - apply (proj1 (setLang_effects (VStr "fr") fresh_state)); discriminate.
  - destruct (proj2 (setLang_effects (VStr "en") fresh_state) "en" eq_refl
                (or_intror eq_refl)) as (H1 & _).
    exact H1.
  - destruct (proj2 (setLang_effects (VStr "en") fresh_state) "en" eq_refl
                (or_intror eq_refl)) as (_ & _ & _ & H & _).
    destruct (H eq_refl) as (_ & _ & H3 & _). exact H3.
  - destruct (proj2 (setLang_effects (VStr "en") full_storage) "en" eq_refl
                (or_intror eq_refl)) as (_ & _ & _ & _ & H).
    destruct (H eq_refl) as (_ & H2). exact H2.
Defined.

(** ** Key resolver *)

Lemma all_of_cons (p : ascii -> bool) (c : ascii) (r : string) :
  all_of p (String c r) = p c && all_of p r.
Proof.
  unfold all_of. simpl. destruct (p c); simpl; [|reflexivity].
  destruct (span p r). reflexivity.
Qed.

Lemma span_all (p : ascii -> bool) (s : string) :
  all_of p s = true -> span p s = (s, EmptyString).
Proof.
  induction s as [|c r IH]; [reflexivity|].
  rewrite all_of_cons. intros [Hc Hr]%andb_true_iff.
  simpl. rewrite Hc, (IH Hr). reflexivity.
Qed.

Lemma digit_not_sign (c : ascii) (r : string) :
  is_digit c = true -> strip_sign (String c r) = (false, String c r).
Proof. destruct c as [[] [] [] [] [] [] [] []]; vm_compute; congruence. Qed.

Lemma digit_not_x (c : ascii) :
  is_digit c = true -> Ascii.eqb c "x" || Ascii.eqb c "X" = false.
Proof. destruct c as [[] [] [] [] [] [] [] []]; vm_compute; congruence. Qed.

Lemma ltrim_digit (c : ascii) (r : string) :
  is_digit c = true -> ltrim (String c r) = String c r.
Proof.
  destruct c as [[] [] [] [] [] [] [] []]; intros H; try discriminate H;
    reflexivity.
Qed.

Lemma rtrim_digits (s : string) : all_of is_digit s = true -> rtrim s = s.
Proof.
  induction s as [|c r IH]; [reflexivity|].
  rewrite all_of_cons. intros [Hc Hr]%andb_true_iff.
  cbn [rtrim]. rewrite (ltrim_digit c r Hc), (IH Hr). reflexivity.
Qed.

Lemma ltrim_digits (s : string) : all_of is_digit s = true -> ltrim s = s.
Proof.
  destruct s as [|c r]; [reflexivity|].
  rewrite all_of_cons. intros [Hc _]%andb_true_iff.
  apply ltrim_digit, Hc.
Qed.

Lemma digits_val_nonneg (s : string) (acc : Z) :
  all_of is_digit s = true -> 0 <= acc -> 0 <= digits_val 10 acc s.
Proof.
  revert acc. induction s as [|c r IH]; intros acc; [simpl; lia|].
  rewrite all_of_cons. intros [Hc Hr]%andb_true_iff Hacc.
  simpl. apply IH; [exact Hr|].
  assert (0 <= digit_val c).
  { unfold digit_val. rewrite Hc. unfold is_digit, in_range in Hc.
    apply andb_true_iff in Hc as [Hlo _]. apply Nat.leb_le in Hlo.
    change (code "0") with 48%nat in Hlo. lia. }
  lia.
Qed.

(** A decimal numeral converts to a number, and [parseInt] reads all of it. *)
Lemma numeral_isNaN (s : string) :
  nonempty s = true -> all_of is_digit s = true -> isNaN s = false.
Proof.
  intros Hne Hd. unfold isNaN, trim.
  rewrite (ltrim_digits s Hd), (rtrim_digits s Hd).
  destruct s as [|c r]; [discriminate|].
  pose proof Hd as Hd'. rewrite all_of_cons in Hd'.
  apply andb_true_iff in Hd' as [Hc _].
  rewrite (digit_not_sign c r Hc). cbn [snd].
  unfold unsigned_decimal. rewrite (span_all _ _ Hd).
  cbn [exponent_opt]. rewrite Hne.
  rewrite !orb_true_r. reflexivity.
Qed.

Lemma numeral_parseInt (s : string) :
  nonempty s = true -> all_of is_digit s = true ->
  parseInt s = Some (digits_val 10 0 s).
Proof.
  intros Hne Hd. unfold parseInt. rewrite (ltrim_digits s Hd).
  destruct s as [|c r]; [discriminate|].
  pose proof Hd as Hd'. rewrite all_of_cons in Hd'.
  apply andb_true_iff in Hd' as [Hc Hr].
  rewrite (digit_not_sign c r Hc).
  assert (match String c r with
          | String "0" (String x r2) =>
              if Ascii.eqb x "x" || Ascii.eqb x "X" then (16, is_hex, r2)
              else (10, is_digit, String c r)
          | _ => (10, is_digit, String c r)
          end = (10, is_digit, String c r)) as ->.
  { destruct r as [|x r2].
    - destruct c as [[] [] [] [] [] [] [] []]; reflexivity.
    - rewrite all_of_cons in Hr. apply andb_true_iff in Hr as [Hx _].
      rewrite (digit_not_x x Hx).
      destruct c as [[] [] [] [] [] [] [] []]; reflexivity. }
  rewrite (span_all _ _ Hd). cbn [fst]. rewrite Hne. reflexivity.
Qed.

Lemma canonical_index_numeral (seg : string) (i : nat) :
  canonical_index seg = Some i ->
  nonempty seg = true /\ all_of is_digit seg = true.
Proof.
  unfold canonical_index.
  destruct seg as [|c r]; [discriminate|].
  destruct (all_of is_digit (String c r)) eqn:Hd.
  - intros _. split; reflexivity.
  - destruct c as [[] [] [] [] [] [] [] []]; try discriminate;
      destruct r; discriminate.
Qed.

(** What the engine and the reference compute on a decimal numeral. *)
Lemma numeral_cases (seg : string) :
  nonempty seg && all_of is_digit seg = true ->
  isNaN seg = false
  /\ nonneg_integer seg = Some (Z.to_nat (digits_val 10 0 seg))
  /\ parseInt seg = Some (digits_val 10 0 seg)
  /\ 0 <= digits_val 10 0 seg.
Proof.
  intros H. apply andb_true_iff in H as [Hne Hd]. repeat split.
  - apply numeral_isNaN; assumption.
  - unfold nonneg_integer. rewrite Hne, Hd. reflexivity.
  - apply numeral_parseInt; assumption.
  - apply digits_val_nonneg; [assumption | lia].
Qed.

(** A segment that does not convert to a number is neither a numeral nor an
    index. *)
Lemma isNaN_cases (seg : string) :
  isNaN seg = true ->
  nonempty seg && all_of is_digit seg = false /\ canonical_index seg = None.
Proof.
  intros Hnan. split.
  - destruct (nonempty seg && all_of is_digit seg) eqn:Hd; [|reflexivity].
    apply andb_true_iff in Hd as [Hne Hd].
    rewrite (numeral_isNaN seg Hne Hd) in Hnan. discriminate.
  - destruct (canonical_index seg) as [i|] eqn:Hc; [|reflexivity].
    apply canonical_index_numeral in Hc as [Hne Hd].
    rewrite (numeral_isNaN seg Hne Hd) in Hnan. discriminate.
Qed.

Lemma object_not_inherited (seg : string) :
  object_inherited seg = false -> forall p, object_proto_prop p seg = None.
Proof.
  unfold object_inherited. rewrite orb_false_iff. intros [Hp Ho] p.
  unfold object_proto_prop. rewrite Hp, Ho. reflexivity.
Qed.

Lemma array_not_inherited (seg : string) :
  array_inherited seg = false ->
  String.eqb seg "length" = false
  /\ array_proto_own seg = None
  /\ forall p, object_proto_prop p seg = None.
Proof.
  unfold array_inherited. rewrite !orb_false_iff. intros [[Hl Ha] Ho].
  unfold array_proto_own. rewrite Hl, Ha.
  repeat split. apply object_not_inherited, Ho.
Qed.

(** Once the walk has lost its value, nothing is found. *)
Lemma walk_undefined (keys : list string) : found (walk keys VUndefined) = false.
Proof. destruct keys; reflexivity. Qed.

Lemma walk_scalar (key : string) (keys : list string) (v : value) :
  scalar v = true -> walk (key :: keys) v = VNull.
Proof.
  destruct v; try discriminate; intros _;
    cbn [walk truthy typeof_object]; rewrite ?andb_false_r; reflexivity.
Qed.

Lemma walk_lost (keys : list string) (v : value) :
  found v = false -> found (walk keys v) = false.
Proof.
  destruct v; try discriminate; intros _; destruct keys; reflexivity.
Qed.

(** On a sequence or on [Array.prototype], a plain segment that is no
    numeral finds nothing. *)
Lemma walk_array_nothing (seg : string) (rest : list string) (current : value) :
  isArray current = true ->
  typeof_object current = true -> truthy current = true ->
  (forall k, isNaN k = true -> array_inherited k = false -> has_prop current k = false) ->
  nonempty seg && all_of is_digit seg = false ->
  (if isNaN seg then negb (array_inherited seg)
   else negb (found (get_index current (parseInt seg)))) = true ->
  found (walk (seg :: rest) current) = false.
Proof.
  intros Ha Ho Ht Hin Hnum Hplain. cbn [walk]. rewrite Ht, Ho, Ha. cbn [andb].
  destruct (isNaN seg) eqn:Hnan; cbn [negb].
  - apply negb_true_iff in Hplain. rewrite (Hin seg Hnan Hplain). reflexivity.
  - apply negb_true_iff in Hplain. apply walk_lost, Hplain.
Qed.

Lemma walk_agrees (segments : list string) (current : value) :
  plain_walk segments current = true ->
  agrees (walk segments current) (reference_walk segments current).
Proof.
  revert current.
  induction segments as [|seg rest IH]; intros current Hplain; [reflexivity|].
  cbn [plain_walk] in Hplain. apply andb_true_iff in Hplain as [Hseg Hrest].
  destruct current as [| |b|n|s|xs|props|h].
  1-5: rewrite walk_scalar by reflexivity; reflexivity.
  - (* a sequence *)
    cbn [plain_at] in Hseg.
    destruct (nonempty seg && all_of is_digit seg) eqn:Hnum.
    + destruct (numeral_cases seg Hnum) as (Hnan & Hint & Hparse & Hpos).
      cbn [reference_walk] in Hrest. rewrite Hint in Hrest.
      cbn [walk reference_walk truthy typeof_object isArray andb].
      rewrite Hnan, Hint, Hparse. cbn [negb get_index].
      destruct (Z.ltb_spec (digits_val 10 0 seg) 0) as [Hneg|_]; [lia|].
      destruct (xs !! Z.to_nat (digits_val 10 0 seg)) as [x|].
      * apply IH, Hrest.
      * apply walk_undefined.
    + cbn [orb] in Hseg.
      assert (nonneg_integer seg = None) as Hint.
      { unfold nonneg_integer. rewrite Hnum. reflexivity. }
      cbn [reference_walk]. rewrite Hint.
      apply walk_array_nothing; try reflexivity; try assumption.
      intros k Hk Hinh. destruct (isNaN_cases k Hk) as [_ Hcanon].
      destruct (array_not_inherited k Hinh) as (Hlen & Harr & Hobj).
      unfold has_prop, find_prop, array_own.
      rewrite Hlen, Hcanon, Harr, Hobj. reflexivity.
  - (* a mapping *)
    cbn [plain_at] in Hseg. cbn [reference_walk] in Hrest.
    cbn [walk reference_walk truthy typeof_object isArray andb].
    unfold has_prop, get_prop, find_prop.
    destruct (assoc props seg) as [x|]; cbn [or_else].
    + apply IH, Hrest.
    + apply negb_true_iff in Hseg.
      rewrite (object_not_inherited seg Hseg). reflexivity.
  - (* a built-in *)
    destruct h as [name| |].
    + reflexivity.
    + cbn [plain_at] in Hseg. apply negb_true_iff in Hseg.
      cbn [walk reference_walk truthy typeof_object isArray andb].
      unfold has_prop, find_prop. rewrite (object_not_inherited seg Hseg). reflexivity.
    + cbn [plain_at] in Hseg. cbn [reference_walk].
      destruct (nonempty seg && all_of is_digit seg) eqn:Hnum.
      * destruct (numeral_cases seg Hnum) as (Hnan & _).
        cbn [walk truthy typeof_object isArray andb]. rewrite Hnan.
        cbn [negb get_index]. apply walk_undefined.
      * cbn [orb] in Hseg.
        apply walk_array_nothing; try reflexivity; try assumption.
        intros k Hk Hinh.
        destruct (array_not_inherited k Hinh) as (Hlen & Harr & Hobj).
        unfold has_prop, find_prop. rewrite Harr, Hobj. reflexivity.
Qed.

(** C3, as stated, fails: on a sequence a segment that merely converts to a
    number is indexed at its integer prefix, and [length] is answered, where
    the reference definition finds nothing. *)
Lemma getValue_differs_from_reference :
  reference_lookup items_payload "items.1e3" = NotFound
  /\ getValue items_payload "items.1e3" = VStr "y"
  /\ reference_lookup items_payload "items.length" = NotFound
  /\ getValue items_payload "items.length" = VNum 2
  /\ getValue items_payload "items.1e3"
     <> result_value (reference_lookup items_payload "items.1e3").
Proof. repeat split; try (vm_compute; reflexivity). vm_compute. discriminate. Qed.

(** C3 (amended): an empty path returns the payload unchanged.  [getValue]
    returns the value the reference definition finds and, where the
    reference finds nothing, [null] (or [undefined] after an out-of-range
    index), on every path each of whose segments, at the value the walk has
    reached, is: on a mapping, one of its keys or a name that no object
    inherits; on a sequence, a decimal numeral, or a text that converts to a
    number whose integer part selects no element, or a text that does not
    convert and is neither [length] nor an inherited name.  The sentinel
    differs from a stored empty string or false, and the walk ends with
    [null] as soon as a segment meets a value that is neither a sequence nor
    a mapping.  On the other segments the code goes its own way: on a
    sequence every segment that converts to a number is indexed at its
    integer part; every other segment, and every segment on a mapping, is
    looked up with [in], which also answers for [length] on a sequence and
    for the names that every object inherits. *)
Theorem getValue_agrees_on_plain_paths (payload : value) (path : string) :
  getValue payload "" = payload
  /\ (plain_path payload path = true ->
      agrees (getValue payload path) (reference_lookup payload path))
  /\ (found (VStr "") = true /\ found (VBool false) = true
      /\ found (result_value NotFound) = false)
  /\ (forall key keys v, scalar v = true -> walk (key :: keys) v = VNull)
  /\ (forall key keys xs,
         isNaN key = false ->
         walk (key :: keys) (VArr xs)
         = walk keys (get_index (VArr xs) (parseInt key)))
  /\ (forall key keys current,
         structure current = true ->
         isArray current && negb (isNaN key) = false ->
         walk (key :: keys) current
         = if has_prop current key then walk keys (get_prop current key) else VNull)
  /\ (forall xs, has_prop (VArr xs) "length" = true)
  /\ (forall name current,
         structure current = true -> object_inherited name = true ->
         has_prop current name = true).
Proof.
  split; [reflexivity|]. split; [|split; [repeat split | split; [exact walk_scalar|]]].
  { unfold plain_path, getValue, reference_lookup.
    destruct (String.eqb path ""); [reflexivity|].
    cbn [orb]. apply walk_agrees. }
  split; [|split; [|split]].
  - intros key keys xs Hnan.
    cbn [walk truthy typeof_object isArray andb]. rewrite Hnan. reflexivity.
  - intros key keys current Hs Hb.
    destruct current; try discriminate Hs;
      cbn [walk truthy typeof_object]; cbn [andb]; rewrite Hb; reflexivity.
  - intros xs. reflexivity.
  - intros name current Hs Hinh.
    unfold object_inherited in Hinh.
    assert (forall p, exists x, object_proto_prop p name = Some x) as Hp.
    { intros p. unfold object_proto_prop.
      destruct (String.eqb name "__proto__"); [eexists; reflexivity|].
      cbn [orb] in Hinh. rewrite Hinh. eexists; reflexivity. }
    destruct current as [| | | | |xs|props|]; try discriminate Hs;
      unfold has_prop, find_prop.
    + destruct (array_own xs name); [reflexivity|].
      destruct (array_proto_own name); [reflexivity|].
      destruct (Hp (VHost HArrayProto)) as [x ->]. reflexivity.
    + destruct (assoc props name); [reflexivity|].
      destruct (Hp (VHost HObjectProto)) as [x ->]. reflexivity.
Qed.

Lemma getValue_agrees_on_plain_paths_witness :
  getValue nested_payload "a.b.0" = VStr "first"
  /\ found (getValue nested_payload "a.c.0") = false
  /\ getValue nested_payload "empty" = VStr ""
  /\ getValue company_payload "contact.map.title" = VStr "Find us"
  /\ getValue company_payload "contact.toString" = VStr "own"
  /\ found (getValue company_payload "contact.length") = false
  /\ getValue company_payload "about.keys" = VStr "Key facts"
  /\ found (getValue company_payload "about.values.5e3") = false
  /\ found (getValue company_payload "about.values.1e0.x") = false.
Proof.
  refine (conj _ (conj _ (conj _ (conj _ (conj _ (conj _ (conj _ (conj _ _)))))))).
  - exact (proj1 (proj2 (getValue_agrees_on_plain_paths nested_payload "a.b.0")) eq_refl).
  - exact (proj1 (proj2 (getValue_agrees_on_plain_paths nested_payload "a.c.0")) eq_refl).
  - exact (proj1 (proj2 (getValue_agrees_on_plain_paths nested_payload "empty")) eq_refl).
  - exact (proj1 (proj2 (getValue_agrees_on_plain_paths company_payload
                           "contact.map.title")) eq_refl).
  - exact (proj1 (proj2 (getValue_agrees_on_plain_paths company_payload
                           "contact.toString")) eq_refl).
  - exact (proj1 (proj2 (getValue_agrees_on_plain_paths company_payload
                           "contact.length")) eq_refl).
  - exact (proj1 (proj2 (getValue_agrees_on_plain_paths company_payload
                           "about.keys")) eq_refl).
  - exact (proj1 (proj2 (getValue_agrees_on_plain_paths company_payload
                           "about.values.5e3")) eq_refl).
  - exact (proj1 (proj2 (getValue_agrees_on_plain_paths company_payload
                           "about.values.1e0.x")) eq_refl).
Defined.

(** ** Translation loader *)

(** The promise of [loadTranslation] is always fulfilled. *)
Lemma loadTranslation_fulfilled (name lang : string) (fetched : settled response) :
  exists v, loadTranslation name lang fetched = Fulfilled v.
Proof.
  unfold loadTranslation.
  destruct fetched as [[o j]|e]; simpl; [|eauto].
  destruct o; simpl; [|eauto].
  destruct j; simpl; eauto.
Qed.

Lemma loadTranslation_failed (name lang : string) (fetched : settled response) :
  fetch_failed fetched -> loadTranslation name lang fetched = Fulfilled empty_object.
Proof.
  unfold loadTranslation.
  destruct fetched as [[o j]|e]; simpl; [|reflexivity].
  intros [-> | [e ->]]; [reflexivity|].
  destruct o; reflexivity.
Qed.

Lemma loadTranslation_ok (name lang : string) (v : value) :
  loadTranslation name lang (Fulfilled {| ok := true; json := Fulfilled v |})
  = Fulfilled v.
Proof. reflexivity. Qed.

Section Aggregate.

Variable names : list string.
Variable lang : string.
Variable net : network.
Variable r0 : registry.

Local Abbreviation payload := (payload_at names lang net).
Local Abbreviation run order := (loadTranslations names lang net order r0).
Local Abbreviation slots_after := (slots_after names lang net).

Lemma load_at (i : nat) :
  loadTranslation (default "" (names !! i)) lang (net i) = Fulfilled (payload i).
Proof.
  unfold payload_at.
  destruct (loadTranslation_fulfilled (default "" (names !! i)) lang (net i)) as [v ->].
  reflexivity.
Qed.

Lemma run_snoc (done : list nat) (i : nat) :
  run (done ++ [i]) = fetch_completes names lang net i (run done).
Proof. unfold loadTranslations. rewrite fold_left_app. reflexivity. Qed.

Lemma slots_after_snoc (done : list nat) (i : nat) :
  slots_after (done ++ [i]) = <[i := Some (payload i)]> (slots_after done).
Proof. unfold slots_after. rewrite fold_left_app. reflexivity. Qed.

Lemma run_slots (done : list nat) :
  slots (aggregate (run done)) = slots_after done.
Proof.
  induction done as [|i done IH] using rev_ind; [reflexivity|].
  rewrite run_snoc, slots_after_snoc, <- IH.
  unfold fetch_completes. cbv zeta. rewrite load_at.
  unfold all_settle. cbn [slots outcome].
  destruct (outcome (aggregate (run done))) as [o|]; [reflexivity|].
  destruct (all_values _); reflexivity.
Qed.

Lemma slots_after_length (done : list nat) :
  length (slots_after done) = length names.
Proof.
  induction done as [|i done IH] using rev_ind.
  - unfold slots_after. simpl. apply length_replicate.
  - rewrite slots_after_snoc, length_insert. exact IH.
Qed.

Lemma slots_after_lookup (done : list nat) (j : nat) :
  (j < length names)%nat ->
  slots_after done !! j
  = Some (if bool_decide (j ∈ done) then Some (payload j) else None).
Proof.
  intros Hj. induction done as [|i done IH] using rev_ind.
  - unfold slots_after. simpl. rewrite lookup_replicate_2 by exact Hj.
    reflexivity.
  - rewrite slots_after_snoc.
    destruct (decide (i = j)) as [->|Hne].
    + rewrite list_lookup_insert_eq by (rewrite slots_after_length; exact Hj).
      rewrite bool_decide_eq_true_2 by set_solver. reflexivity.
    + rewrite list_lookup_insert_ne by exact Hne. rewrite IH.
      rewrite (bool_decide_ext (j ∈ done ++ [i]) (j ∈ done)); [reflexivity|].
      rewrite elem_of_app, list_elem_of_singleton. intuition congruence.
Qed.

Lemma all_values_none (s : list (option value)) (j : nat) :
  s !! j = Some None -> all_values s = None.
Proof.
  revert j. induction s as [|o s IH]; intros j; [discriminate|].
  destruct j as [|j]; simpl.
  - intros [= ->]. reflexivity.
  - intros H. destruct o; [|reflexivity]. rewrite (IH j H). reflexivity.
Qed.

Lemma all_values_some (vs : list value) :
  all_values (map Some vs) = Some vs.
Proof. induction vs as [|v vs IH]; simpl; [reflexivity|]. rewrite IH. reflexivity. Qed.

(** While some fetch has not completed the aggregate is pending and the
    registry is as it was. *)
Lemma run_incomplete (done : list nat) (j : nat) :
  (j < length names)%nat -> j ∉ done ->
  outcome (aggregate (run done)) = None /\ registry_now (run done) = r0.
Proof.
  intros Hj. induction done as [|i done IH] using rev_ind; intros Hnot.
  - unfold loadTranslations, loadTranslations_start, all_start. simpl.
    destruct (length names); [lia|]. split; reflexivity.
  - destruct IH as [Ho Hr]; [set_solver|].
    rewrite run_snoc. unfold fetch_completes. cbv zeta. rewrite load_at.
    unfold all_settle. cbn [slots outcome]. rewrite Ho.
    rewrite run_slots, <- slots_after_snoc.
    rewrite (all_values_none _ j).
    + split; [reflexivity | exact Hr].
    + rewrite slots_after_lookup by exact Hj.
      rewrite bool_decide_eq_false_2 by exact Hnot. reflexivity.
Qed.

Lemma slots_after_complete (order : list nat) :
  (forall j, (j < length names)%nat -> j ∈ order) ->
  slots_after order = map Some (map payload (seq 0 (length names))).
Proof.
  intros Hall. apply list_eq. intros j.
  destruct (decide (j < length names)%nat) as [Hj|Hj].
  - rewrite slots_after_lookup by exact Hj.
    rewrite bool_decide_eq_true_2 by auto.
    rewrite !list_lookup_fmap.
    rewrite lookup_seq_lt by exact Hj. reflexivity.
  - rewrite !lookup_ge_None_2; [reflexivity | |].
    + rewrite !length_map, length_seq. lia.
    + rewrite slots_after_length. lia.
Qed.

(** After the last fetch the aggregate is fulfilled with every payload in
    the order of the names, and the callback has stored them. *)
Lemma run_complete (pre : list nat) (l : nat) :
  (l < length names)%nat -> l ∉ pre ->
  (forall j, (j < length names)%nat -> j ∈ pre ++ [l]) ->
  outcome (aggregate (run (pre ++ [l])))
  = Some (Fulfilled (map payload (seq 0 (length names))))
  /\ registry_now (run (pre ++ [l]))
     = store_results names (map payload (seq 0 (length names))) r0.
Proof.
  intros Hl Hnot Hall.
  destruct (run_incomplete pre l Hl Hnot) as [Ho Hr].
  rewrite run_snoc. unfold fetch_completes. cbv zeta. rewrite load_at.
  unfold all_settle. cbn [slots outcome]. rewrite Ho.
  rewrite run_slots, <- slots_after_snoc.
  rewrite (slots_after_complete _ Hall), all_values_some.
  cbn. rewrite Hr. split; reflexivity.
Qed.

End Aggregate.

(** *** Storing the results *)

Lemma reg_get_entry (r : registry) (name : string) (v : value) :
  entries r !! name = Some v -> reg_get r name = v.
Proof. unfold reg_get. intros ->. reflexivity. Qed.

Lemma reg_set_entry (r : registry) (name : string) (v : value) :
  name <> "__proto__" -> entries (reg_set r name v) !! name = Some v.
Proof.
  intros Hne. unfold reg_set.
  destruct (String.eqb_spec name "__proto__"); [contradiction|].
  simpl. apply lookup_insert_eq.
Qed.

Lemma reg_set_other (r : registry) (k name : string) (w v : value) :
  k <> name -> entries r !! name = Some v ->
  entries (reg_set r k w) !! name = Some v.
Proof.
  intros Hne Hv. unfold reg_set.
  destruct (String.eqb k "__proto__").
  - destruct w; exact Hv.
  - simpl. rewrite lookup_insert_ne by exact Hne. exact Hv.
Qed.

Lemma store_from_keeps (i : nat) (names : list string) (results : list value)
    (r : registry) (name : string) (v : value) :
  name ∉ names -> entries r !! name = Some v ->
  entries (store_from i names results r) !! name = Some v.
Proof.
  revert i r. induction names as [|k names IH]; intros i r Hnot Hv; [exact Hv|].
  simpl. apply IH; [set_solver|].
  apply reg_set_other; [set_solver | exact Hv].
Qed.

(** The entry of a name holds the result at the position of its last
    occurrence. *)
Lemma store_from_last (i0 : nat) (names : list string) (results : list value)
    (r : registry) (i : nat) (name : string) :
  names !! i = Some name -> name ∉ drop (S i) names -> name <> "__proto__" ->
  entries (store_from i0 names results r) !! name
  = Some (or_empty (default VUndefined (results !! (i0 + i)%nat))).
Proof.
  revert i0 r i. induction names as [|k names IH]; intros i0 r i Hi Hnot Hne;
    [discriminate|].
  destruct i as [|i]; simpl in *.
  - injection Hi as ->. rewrite Nat.add_0_r.
    apply store_from_keeps; [rewrite drop_0 in Hnot; exact Hnot|].
    apply reg_set_entry, Hne.
  - rewrite (IH (S i0) _ i Hi Hnot Hne).
    replace (S i0 + i)%nat with (i0 + S i)%nat by lia. reflexivity.
Qed.



(** ** Document tree *)

(** *** Attributes *)

Lemma getAttribute_setAttribute (name v : string) (a : attributes) :
  getAttribute (setAttribute name v a) name = Some v.
Proof.
  induction a as [|[k w] a IH]; simpl.
  - rewrite String.eqb_refl. reflexivity.
  - destruct (String.eqb k name) eqn:Hk; simpl; rewrite Hk; [reflexivity | exact IH].
Qed.

Lemma getAttribute_setAttribute_other (name v other : string) (a : attributes) :
  other <> name ->
  getAttribute (setAttribute name v a) other = getAttribute a other.
Proof.
  intros Hne. induction a as [|[k w] a IH]; simpl.
  - destruct (String.eqb_spec name other); [congruence | reflexivity].
  - destruct (String.eqb_spec k name) as [->|Hk]; simpl.
    + destruct (String.eqb_spec name other); [congruence | reflexivity].
    + destruct (String.eqb k other); [reflexivity | exact IH].
Qed.

Lemma setAttribute_same (name v : string) (a : attributes) :
  getAttribute a name = Some v -> setAttribute name v a = a.
Proof.
  induction a as [|[k w] a IH]; simpl; [discriminate|].
  destruct (String.eqb k name).
  - intros [= ->]. reflexivity.
  - intros H. rewrite (IH H). reflexivity.
Qed.

(** *** Class tokens *)

Lemma contains_spec (l : list string) (x : string) :
  contains l x = true <-> In x l.
Proof.
  unfold contains. rewrite existsb_exists. split.
  - intros (y & Hy & ->%String.eqb_eq). exact Hy.
  - intros H. exists x. split; [exact H | apply String.eqb_refl].
Qed.

Lemma contains_ext (l l' : list string) (x : string) :
  (In x l <-> In x l') -> contains l x = contains l' x.
Proof.
  intros H. destruct (contains l' x) eqn:E.
  - apply contains_spec, H, contains_spec, E.
  - destruct (contains l x) eqn:E'; [|reflexivity].
    apply contains_spec, H, contains_spec in E'. congruence.
Qed.

Lemma In_dedupe (l : list string) (x : string) : In x (dedupe l) <-> In x l.
Proof.
  induction l as [|y l IH]; simpl; [tauto|].
  rewrite filter_In, IH, negb_true_iff.
  destruct (String.eqb_spec x y) as [->|Hne]; [tauto|]. intuition congruence.
Qed.

Lemma Forall_dedupe (P : string -> Prop) (l : list string) :
  Forall P l -> Forall P (dedupe l).
Proof.
  intros H. apply List.Forall_forall. intros x Hx.
  apply (proj1 (In_dedupe l x)) in Hx.
  rewrite List.Forall_forall in H. exact (H x Hx).
Qed.

Lemma Forall_list_filter (P : string -> Prop) (f : string -> bool) (l : list string) :
  Forall P l -> Forall P (List.filter f l).
Proof.
  intros H. apply List.Forall_forall. intros x [Hx _]%filter_In.
  rewrite List.Forall_forall in H. exact (H x Hx).
Qed.

Lemma split_ws_tokens (s : string) : Forall (fun x => token x = true) (split_ws s).
Proof.
  induction s as [|c r IH]; [constructor|].
  cbn [split_ws]. destruct (is_dom_ws c) eqn:Hc; [exact IH|].
  assert (token (String c EmptyString) = true) as Hone.
  { unfold token. simpl. rewrite Hc. reflexivity. }
  destruct r as [|c' r']; [repeat constructor; exact Hone|].
  destruct (is_dom_ws c') eqn:Hc'; [constructor; [exact Hone | exact IH]|].
  destruct (split_ws (String c' r')) as [|tok toks];
    [repeat constructor; exact Hone|].
  inversion IH as [|? ? Htok Htoks]; subst. constructor; [|exact Htoks].
  unfold token in *. simpl. rewrite Hc.
  apply andb_true_iff in Htok as [_ Hn]. exact Hn.
Qed.

Lemma split_ws_cons (c : ascii) (r : string) :
  split_ws (String c r)
  = if is_dom_ws c then split_ws r
    else match r with
         | EmptyString => [String c EmptyString]
         | String c' _ =>
             if is_dom_ws c' then String c EmptyString :: split_ws r
             else match split_ws r with
                  | tok :: toks => String c tok :: toks
                  | [] => [String c EmptyString]
                  end
         end.
Proof. reflexivity. Qed.

Lemma split_ws_token_space (tok s : string) :
  token tok = true -> split_ws (tok +:+ " " +:+ s) = tok :: split_ws s.
Proof.
  unfold token. induction tok as [|c r IH]; [discriminate|].
  cbn [nonempty no_ws]. intros [_ [Hc Hr]%andb_true_iff]%andb_true_iff.
  apply negb_true_iff in Hc.
  change (String c r +:+ " " +:+ s) with (String c (r +:+ " " +:+ s)).
  rewrite split_ws_cons, Hc.
  destruct r as [|c' r'].
  - reflexivity.
  - pose proof Hr as Hr'. cbn [no_ws] in Hr'.
    apply andb_true_iff in Hr' as [Hc' _]. apply negb_true_iff in Hc'.
    rewrite IH by (rewrite Hr; reflexivity).
    change (String c' r' +:+ " " +:+ s) with (String c' (r' +:+ " " +:+ s)).
    cbv iota. rewrite Hc'. reflexivity.
Qed.
Lemma split_ws_token (tok : string) : token tok = true -> split_ws tok = [tok].
Proof.
  unfold token. induction tok as [|c r IH]; [discriminate|].
  cbn [nonempty no_ws]. intros [_ [Hc Hr]%andb_true_iff]%andb_true_iff.
  apply negb_true_iff in Hc.
  rewrite split_ws_cons, Hc.
  destruct r as [|c' r']; [reflexivity|].
  pose proof Hr as Hr'. cbn [no_ws] in Hr'.
  apply andb_true_iff in Hr' as [Hc' _]. apply negb_true_iff in Hc'. rewrite Hc'.
  rewrite IH; [reflexivity|]. rewrite Hr. reflexivity.
Qed.

Lemma split_ws_serialize (l : list string) :
  Forall (fun x => token x = true) l -> split_ws (serialize l) = l.
Proof.
  induction 1 as [|x l Hx Hl IH]; [reflexivity|].
  destruct l as [|y l'].
  - simpl. apply split_ws_token, Hx.
  - change (serialize (x :: y :: l')) with (x +:+ " " +:+ serialize (y :: l')).
    rewrite split_ws_token_space by exact Hx. rewrite IH. reflexivity.
Qed.

Lemma classList_tokens (a : attributes) :
  Forall (fun x => token x = true) (classList a).
Proof. apply Forall_dedupe, split_ws_tokens. Qed.

(** What [classList] reads after the class attribute was set from a list
    of tokens. *)
Lemma classList_set (l : list string) (a : attributes) :
  Forall (fun x => token x = true) l ->
  classList (setAttribute "class" (serialize l) a) = dedupe l.
Proof.
  intros Hl. unfold classList.
  rewrite getAttribute_setAttribute. simpl.
  rewrite split_ws_serialize by exact Hl. reflexivity.
Qed.

Lemma contains_classList_set (l : list string) (a : attributes) (x : string) :
  Forall (fun y => token y = true) l ->
  contains (classList (setAttribute "class" (serialize l) a)) x = contains l x.
Proof.
  intros Hl. rewrite classList_set by exact Hl.
  apply contains_ext, In_dedupe.
Qed.

Section Toggle.

Variable tok : string.
Hypothesis tok_token : token tok = true.

Lemma toggle_tokens_removed (a : attributes) :
  Forall (fun y => token y = true)
    (List.filter (fun y => negb (String.eqb y tok)) (classList a)).
Proof. apply Forall_list_filter, classList_tokens. Qed.

Lemma toggle_tokens_added (a : attributes) :
  Forall (fun y => token y = true) (classList a ++ [tok]).
Proof.
  apply Forall_app. split; [apply classList_tokens|].
  constructor; [exact tok_token | constructor].
Qed.

(** Toggling with the same [force] a second time changes nothing. *)
Lemma classList_toggle_idempotent (force : bool) (a : attributes) :
  classList_toggle tok force (classList_toggle tok force a)
  = classList_toggle tok force a.
Proof.
  unfold classList_toggle at 2.
  destruct (contains (classList a) tok) eqn:Hc, force.
  - unfold classList_toggle. rewrite Hc. reflexivity.
  - unfold classList_toggle.
    rewrite contains_classList_set by apply toggle_tokens_removed.
    assert (contains (List.filter (fun y => negb (String.eqb y tok)) (classList a)) tok
            = false) as ->; [|rewrite Hc; reflexivity].
    apply not_true_is_false. intros E.
    apply contains_spec, filter_In in E as [_ E].
    rewrite String.eqb_refl in E. discriminate.
  - unfold classList_toggle.
    rewrite contains_classList_set by apply toggle_tokens_added.
    assert (contains (classList a ++ [tok]) tok = true) as ->; [|rewrite Hc; reflexivity].
    apply contains_spec, in_or_app. right. left. reflexivity.
  - unfold classList_toggle. rewrite Hc. reflexivity.
Qed.

(** Toggling leaves the other tokens as they are. *)
Lemma classList_toggle_other (force : bool) (a : attributes) (x : string) :
  x <> tok ->
  contains (classList (classList_toggle tok force a)) x = contains (classList a) x.
Proof.
  intros Hne. unfold classList_toggle.
  destruct (contains (classList a) tok), force; try reflexivity.
  - rewrite contains_classList_set by apply toggle_tokens_removed.
    apply contains_ext. rewrite filter_In, negb_true_iff.
    destruct (String.eqb_spec x tok); [contradiction | tauto].
  - rewrite contains_classList_set by apply toggle_tokens_added.
    apply contains_ext. rewrite in_app_iff. simpl. intuition congruence.
Qed.

Lemma getAttribute_classList_toggle (force : bool) (a : attributes) (name : string) :
  name <> "class" ->
  getAttribute (classList_toggle tok force a) name = getAttribute a name.
Proof.
  intros Hne. unfold classList_toggle.
  destruct (contains (classList a) tok), force; try reflexivity;
    apply getAttribute_setAttribute_other, Hne.
Qed.

End Toggle.

(** *** Loops over a static list of positions *)

Lemma alter_middle (f : node -> node) (done : list node) (c : node) (todo : list node) :
  alter f (length done) (done ++ c :: todo) = done ++ f c :: todo.
Proof.
  rewrite <- (Nat.add_0_r (length done)), alter_app_r. reflexivity.
Qed.

Section Updating.

Context {C : Type}.
Variable sel : C -> attributes -> bool.
Variable next : C -> attributes -> C.
Variable f : attributes -> attributes.

Local Abbreviation loop ps root :=
  (fold_left (fun x p => update p (on_attributes f) x) ps root).

(** A loop over positions below one child works on that child alone. *)
Lemma updating_child (ps : list path) (t : string) (a : attributes)
      (done : list node) (c : node) (todo : list node) :
  loop (map (cons (length done)) ps) (Element t a (done ++ c :: todo))
  = Element t a (done ++ loop ps c :: todo).
Proof.
  revert c. induction ps as [|p ps IH]; intros c; [reflexivity|].
  cbn [map fold_left update]. rewrite alter_middle. apply IH.
Qed.

Lemma updating_children (t : string) (a : attributes) (c : C)
      (todo : list node) (done : list node) :
  Forall (fun n => forall c, loop (matching sel next c n) n = updated sel next f c n) todo ->
  loop (indexed (length done) (map (matching sel next c) todo))
       (Element t a (done ++ todo))
  = Element t a (done ++ map (updated sel next f c) todo).
Proof.
  intros Hall. revert done.
  induction Hall as [|n todo Hn _ IH]; intros done; [reflexivity|].
  cbn [map indexed]. rewrite fold_left_app, updating_child, Hn.
  specialize (IH (done ++ [updated sel next f c n])).
  rewrite length_app, Nat.add_1_r, <- !app_assoc in IH. exact IH.
Qed.

(** The loop over the matching elements of a tree rewrites each of them. *)
Lemma updating_matching (n : node) (c : C) :
  loop (matching sel next c n) n = updated sel next f c n.
Proof.
  revert c. induction n as [data|t a cs IH] using node_forall_ind; intros c;
    [reflexivity|].
  cbn [matching updated].
  destruct (sel c a); cbn [app fold_left update on_attributes];
    apply (updating_children t _ (next c a) cs []), IH.
Qed.

Lemma forEach_updating_spec (c : C) (root : node) :
  forEach_updating_ok (querySelectorAll sel next c root) f root
  = below_root (fun cs => map (updated sel next f
                                 (match root with
                                  | Element _ a _ => next c a
                                  | Text _ => c
                                  end)) cs) root.
Proof.
  destruct root as [data|t a cs]; [reflexivity|].
  unfold forEach_updating_ok. cbn [querySelectorAll below_root].
  apply (updating_children t a (next c a) cs []).
  apply List.Forall_forall. intros n _ c'. apply updating_matching.
Qed.

End Updating.

Section Replacing.

Variable body : string -> attributes -> option (list node).
Variable marker : string.
Hypothesis body_marker :
  forall t a, hasAttribute marker a = false -> body t a = None.

Local Abbreviation W := (write_children_ok body).
Local Abbreviation M := (matching (by_attribute marker) no_context tt).

Lemma heads_lt_not_below (i : nat) (det : list path) (q : path) :
  heads_lt i det -> existsb (fun d => below d (i :: q)) det = false.
Proof.
  induction 1 as [|d det Hd _ IH]; [reflexivity|].
  cbn [existsb]. rewrite IH, orb_false_r.
  destruct d as [|j d]; [contradiction|].
  cbn [below]. destruct (Nat.eqb_spec j i); [lia | reflexivity].
Qed.

Lemma existsb_below_cons (i : nat) (dl : list path) (p : path) :
  existsb (fun d => below d (i :: p)) (map (cons i) dl)
  = existsb (fun d => below d p) dl.
Proof.
  induction dl as [|d dl IH]; [reflexivity|].
  cbn [map existsb below]. rewrite IH, Nat.eqb_refl. reflexivity.
Qed.

(** Turns on elements that have left the tree change nothing. *)
Lemma replacing_detached (ps : list path) (tree : node) (det : list path) :
  Forall (fun p => existsb (fun d => below d p) det = true) ps ->
  fold_left W ps (tree, det) = (tree, det).
Proof.
  induction 1 as [|p ps Hp _ IH]; [reflexivity|].
  cbn [fold_left]. unfold write_children_ok at 2. rewrite Hp. exact IH.
Qed.

(** A loop over positions below one child works on that child alone. *)
Lemma replacing_child (ps : list path) (t : string) (a : attributes)
      (done : list node) (todo : list node) (d0 : list path)
      (c : node) (dl : list path) :
  heads_lt (length done) d0 ->
  fold_left W (map (cons (length done)) ps)
    (Element t a (done ++ c :: todo), map (cons (length done)) dl ++ d0)
  = (Element t a (done ++ fst (fold_left W ps (c, dl)) :: todo),
     map (cons (length done)) (snd (fold_left W ps (c, dl))) ++ d0).
Proof.
  intros Hd0. revert c dl.
  induction ps as [|p ps IH]; intros c dl; [reflexivity|].
  cbn [map fold_left].
  assert (W (Element t a (done ++ c :: todo), map (cons (length done)) dl ++ d0)
            (length done :: p)
          = (Element t a (done ++ fst (W (c, dl) p) :: todo),
             map (cons (length done)) (snd (W (c, dl) p)) ++ d0)) as ->.
  { unfold write_children_ok.
    rewrite existsb_app, existsb_below_cons, (heads_lt_not_below _ _ _ Hd0), orb_false_r.
    destruct (existsb (fun d => below d p) dl); [reflexivity|].
    cbn [get]. rewrite list_lookup_middle by reflexivity.
    destruct (get c p) as [[data|t' a' cs']|]; try reflexivity.
    destruct (body t' a') as [cs''|]; [|reflexivity].
    cbn [update fst snd map]. rewrite alter_middle. reflexivity. }
  destruct (W (c, dl) p) as [c1 dl1]. apply IH.
Qed.

Lemma indexed_below_root (i : nat) (blocks : list (list path)) :
  Forall (fun p => existsb (fun d => below d p) [[]] = true) (indexed i blocks).
Proof.
  revert i. induction blocks as [|b bs IH]; intros i; [constructor|].
  cbn [indexed]. apply Forall_app. split; [|apply IH].
  apply Forall_map, List.Forall_forall. intros q _. reflexivity.
Qed.

Lemma heads_lt_child (i : nat) (dl d0 : list path) :
  heads_lt i d0 -> heads_lt (S i) (map (cons i) dl ++ d0).
Proof.
  intros Hd0. apply Forall_app. split.
  - apply Forall_map, List.Forall_forall. intros q _. simpl. lia.
  - eapply Forall_impl; [exact Hd0|]. intros [|j d]; simpl; [tauto | lia].
Qed.

Lemma replacing_children (t : string) (a : attributes) (todo : list node)
      (done : list node) (d0 : list path) :
  Forall (fun n => exists dl, fold_left W (M n) (n, []) = (replaced body n, dl)) todo ->
  heads_lt (length done) d0 ->
  exists d1,
    fold_left W (indexed (length done) (map M todo)) (Element t a (done ++ todo), d0)
    = (Element t a (done ++ map (replaced body) todo), d1).
Proof.
  intros Hall. revert done d0.
  induction Hall as [|n todo [dl Hn] _ IH]; intros done d0 Hd0; [eexists; reflexivity|].
  cbn [map indexed]. rewrite fold_left_app.
  pose proof (replacing_child (M n) t a done todo d0 n [] Hd0) as Hc.
  cbn [map app] in Hc. rewrite Hn in Hc. cbn [fst snd] in Hc.
  destruct (IH (done ++ [replaced body n]) (map (cons (length done)) dl ++ d0))
    as [d1 Hd1].
  { rewrite length_app, Nat.add_1_r. apply heads_lt_child, Hd0. }
  rewrite length_app, Nat.add_1_r, <- !app_assoc in Hd1.
  exists d1.
  exact (eq_trans
           (f_equal (fold_left W (indexed (S (length done)) (map M todo))) Hc) Hd1).
Qed.

(** The loop over the marked elements of a tree rewrites the topmost ones
    that have a translation. *)
Lemma replacing_matching (n : node) :
  exists dl, fold_left W (M n) (n, []) = (replaced body n, dl).
Proof.
  induction n as [data|t a cs IH] using node_forall_ind; [eexists; reflexivity|].
  cbn [matching replaced]. unfold by_attribute at 1.
  destruct (hasAttribute marker a) eqn:Hm.
  - cbn [app fold_left]. unfold write_children_ok at 2. cbn [existsb get].
    destruct (body t a) as [cs'|].
    + exists [[]]. cbn [update]. apply replacing_detached, indexed_below_root.
    + apply (replacing_children t a cs [] []); [exact IH | constructor].
  - rewrite (body_marker t a Hm). cbn [app].
    apply (replacing_children t a cs [] []); [exact IH | constructor].
Qed.

Lemma forEach_replacing_spec (root : node) :
  forEach_replacing_ok (querySelectorAll (by_attribute marker) no_context tt root)
    body root
  = below_root (map (replaced body)) root.
Proof.
  destruct root as [data|t a cs]; [reflexivity|].
  unfold forEach_replacing_ok. cbn [querySelectorAll below_root no_context].
  destruct (replacing_children t a cs [] []) as [d1 Hd1].
  - apply List.Forall_forall. intros n _. apply replacing_matching.
  - constructor.
  - cbn [length app] in Hd1.
    exact (f_equal fst Hd1).
Qed.

End Replacing.

(** ** DOM applicator *)

(** Once the language is cached, [getCurrentLang] returns it and leaves the
    state alone. *)
Lemma getCurrentLang_cached (st : state) :
  getCurrentLang (snd (getCurrentLang st))
  = (fst (getCurrentLang st), snd (getCurrentLang st)).
Proof.
  assert (forall lang,
             lang = "zh" \/ lang = "en" ->
             getCurrentLang
               {| engine := {| currentLang := Some lang;
                               currentPage := currentPage (engine st);
                               translations := translations (engine st) |};
                  env := env st |}
             = (lang,
                {| engine := {| currentLang := Some lang;
                                currentPage := currentPage (engine st);
                                translations := translations (engine st) |};
                   env := env st |})) as Hcache.
  { intros lang [-> | ->]; reflexivity. }
  unfold getCurrentLang at 2 3 4.
  destruct (set_and_nonempty (currentLang (engine st))) eqn:Hc.
  - cbn [fst snd]. unfold getCurrentLang. rewrite Hc. reflexivity.
  - cbv zeta.
    destruct (set_and_nonempty (localStorage (env st) !! "lang")
              && (String.eqb (default "" (localStorage (env st) !! "lang")) "zh"
                  || String.eqb (default "" (localStorage (env st) !! "lang")) "en"))
      eqn:Hs; cbn [fst snd].
    + apply Hcache.
      apply andb_true_iff in Hs as [_ Hs]. apply orb_true_iff in Hs.
      destruct Hs as [Hs|Hs]; apply String.eqb_eq in Hs; [left | right]; exact Hs.
    + apply Hcache.
      destruct (starts_with "zh" _); [left | right]; reflexivity.
Qed.

(** What [getCurrentLang] returns, by the state of the cache. *)
Lemma getCurrentLang_cases (st : state) :
  (set_and_nonempty (currentLang (engine st)) = true
   /\ getCurrentLang st = (default "" (currentLang (engine st)), st))
  \/ (set_and_nonempty (currentLang (engine st)) = false
      /\ exists lang,
          (lang = "zh" \/ lang = "en")
          /\ getCurrentLang st
             = (lang,
                {| engine := {| currentLang := Some lang;
                                currentPage := currentPage (engine st);
                                translations := translations (engine st) |};
                   env := env st |})).
Proof.
  unfold getCurrentLang.
  destruct (set_and_nonempty (currentLang (engine st))); [left; split; reflexivity|].
  right. split; [reflexivity|]. cbv zeta.
  destruct (set_and_nonempty (localStorage (env st) !! "lang")
            && (String.eqb (default "" (localStorage (env st) !! "lang")) "zh"
                || String.eqb (default "" (localStorage (env st) !! "lang")) "en"))
    eqn:Hs.
  - eexists. split; [|reflexivity].
    apply andb_true_iff in Hs as [_ Hs]. apply orb_true_iff in Hs.
    destruct Hs as [Hs|Hs]; apply String.eqb_eq in Hs; [left | right]; exact Hs.
  - eexists. split; [|reflexivity].
    destruct (starts_with "zh" _); [left | right]; reflexivity.
Qed.

(** [t] reads the current page and the registry only. *)
Lemma t_ext (self self' : I18N) (key : string) (namespace : option string) :
  currentPage self' = currentPage self ->
  translations self' = translations self ->
  t self' key namespace = t self key namespace.
Proof.
  destruct self as [l p r], self' as [l' p' r']. cbn. intros -> ->. reflexivity.
Qed.

Lemma translated_self (self self' : I18N) (marker : string) (a : attributes) :
  currentPage self' = currentPage self ->
  translations self' = translations self ->
  translated self' marker a = translated self marker a.
Proof.
  intros Hp Hr. unfold translated.
  destruct (getAttribute a marker) as [key|]; [|reflexivity].
  rewrite (t_ext self self' key _ Hp Hr). reflexivity.
Qed.

Lemma getCurrentLang_engine (st : state) :
  currentPage (engine (snd (getCurrentLang st))) = currentPage (engine st)
  /\ translations (engine (snd (getCurrentLang st))) = translations (engine st)
  /\ env (snd (getCurrentLang st)) = env st.
Proof.
  destruct (getCurrentLang_cases st) as [[_ ->] | [_ (l & _ & ->)]];
    repeat split.
Qed.



Section Applied.

Variable print : value -> string.
Variable parseFragment : string -> string -> list node.

Lemma forEach_switcher_cached (snapshot : list path) (st : state) (lang : string)
      (tree : node) :
  getCurrentLang st = (lang, st) ->
  forEach_switcher snapshot st tree
  = (st, forEach_updating_ok snapshot (switcher_body lang) tree).
Proof.
  intros Hst. unfold forEach_switcher, forEach_updating_ok. revert tree.
  induction snapshot as [|p ps IH]; intros tree; [reflexivity|].
  cbn [fold_left]. rewrite Hst. apply IH.
Qed.

Lemma translated_unmarked (self : I18N) (marker : string) (a : attributes) :
  hasAttribute marker a = false -> translated self marker a = None.
Proof.
  unfold hasAttribute, translated.
  destruct (getAttribute a marker); [discriminate | reflexivity].
Qed.

Lemma text_body_unmarked (self : I18N) (t : string) (a : attributes) :
  hasAttribute "data-i18n" a = false -> text_body_ok print self t a = None.
Proof. intros H. unfold text_body_ok. rewrite translated_unmarked by exact H. reflexivity. Qed.

Lemma html_body_unmarked (self : I18N) (t : string) (a : attributes) :
  hasAttribute "data-i18n-html" a = false ->
  html_body_ok print parseFragment self t a = None.
Proof. intros H. unfold html_body_ok. rewrite translated_unmarked by exact H. reflexivity. Qed.

(** [applyTranslations_ok] rewrites every child of the root as [applied]
    does. *)
Lemma applyTranslations_applied (inside : bool) (st : state) (root : node) :
  applyTranslations_ok print parseFragment inside st root
  = (snd (getCurrentLang st),
     below_root
       (map (applied print parseFragment
               (engine (snd (getCurrentLang st))) (fst (getCurrentLang st))
               (match root with
                | Element _ a _ => inside_switcher inside a
                | Text _ => inside
                end)))
       root).
Proof.
  unfold applyTranslations_ok. cbv zeta.
  set (st1 := snd (getCurrentLang st)).
  set (lang := fst (getCurrentLang st)).
  set (self := engine st1).
  rewrite (forEach_replacing_spec _ "data-i18n" (text_body_unmarked self)).
  destruct root as [data|t a cs].
  { reflexivity. }
  cbn [below_root].
  rewrite (forEach_replacing_spec _ "data-i18n-html" (html_body_unmarked self)).
  cbn [below_root attrAttrs fold_left].
  rewrite !forEach_updating_spec. cbn [below_root].
  rewrite (forEach_switcher_cached _ st1 lang) by apply getCurrentLang_cached.
  rewrite forEach_updating_spec. cbn [below_root no_context].
  f_equal. f_equal. rewrite !map_map.
  apply map_ext. intros n. reflexivity.
Qed.

End Applied.

(** *** Applying twice *)

Section Idempotence.

Variable print : value -> string.
Variable parseFragment : string -> string -> list node.
Variable self : I18N.
Variable lang : string.

Local Abbreviation A := (markers_applied print self).
Local Abbreviation attr_body_ok' := (attr_body_ok print self).

(** *** What the attribute writes leave alone *)

Lemma attr_body_other (attr name : string) (a : attributes) :
  name <> remove_first "data-i18n-" attr ->
  getAttribute (attr_body_ok' attr a) name = getAttribute a name.
Proof.
  intros Hne. unfold attr_body_ok. destruct (translated self attr a); [|reflexivity].
  apply getAttribute_setAttribute_other, Hne.
Qed.

Lemma attr_body_own (attr : string) (a : attributes) (v : value) :
  translated self attr a = Some v ->
  getAttribute (attr_body_ok' attr a) (remove_first "data-i18n-" attr)
  = Some (print v).
Proof. intros H. unfold attr_body_ok. rewrite H. apply getAttribute_setAttribute. Qed.

Lemma translated_ext (marker : string) (a b : attributes) :
  getAttribute a marker = getAttribute b marker ->
  getAttribute a "data-i18n-ns" = getAttribute b "data-i18n-ns" ->
  translated self marker a = translated self marker b.
Proof. intros H1 H2. unfold translated. rewrite H1, H2. reflexivity. Qed.

Lemma markers_applied_other (name : string) (a : attributes) :
  ~ In name targets -> getAttribute (A a) name = getAttribute a name.
Proof.
  intros Hn. unfold markers_applied, attrAttrs. cbn [fold_left].
  rewrite !attr_body_other; [reflexivity| | | |];
    intros ->; apply Hn; vm_compute; tauto.
Qed.

Lemma toggle_other (force : bool) (name : string) (a : attributes) :
  name <> "class" ->
  getAttribute (classList_toggle "active" force a) name = getAttribute a name.
Proof. apply getAttribute_classList_toggle. Qed.

Lemma kept_marker (attr : string) : In attr attrAttrs -> kept attr.
Proof.
  intros H Hin. vm_compute in H, Hin.
  repeat match goal with H : _ \/ _ |- _ => destruct H as [H|H] end;
    try contradiction; subst; discriminate.
Qed.

Lemma all_attributes_other (inside : bool) (name : string) (a : attributes) :
  kept name ->
  getAttribute (all_attributes print self lang inside a) name
  = getAttribute a name.
Proof.
  intros Hk. unfold all_attributes. cbv zeta. fold (A a).
  assert (getAttribute (A a) name = getAttribute a name) as HA.
  { apply markers_applied_other. intros H. apply Hk. right. exact H. }
  destruct (switcher_button inside (A a)); [|exact HA].
  unfold switcher_body. rewrite toggle_other; [exact HA|].
  intros ->. apply Hk. left. reflexivity.
Qed.

Lemma translated_all_attributes (inside : bool) (marker : string) (a : attributes) :
  kept marker ->
  translated self marker (all_attributes print self lang inside a)
  = translated self marker a.
Proof.
  intros Hk. apply translated_ext; apply all_attributes_other; [exact Hk|].
  intros H. vm_compute in H. intuition discriminate.
Qed.

(** *** The attribute writes reach a fixed point *)

Lemma translated_markers_applied (marker : string) (a : attributes) :
  kept marker -> translated self marker (A a) = translated self marker a.
Proof.
  intros Hk. apply translated_ext; apply markers_applied_other.
  - intros H. apply Hk. right. exact H.
  - vm_compute. intuition discriminate.
Qed.

Lemma translated_attr_body (marker attr : string) (a : attributes) :
  kept marker -> In attr attrAttrs ->
  translated self marker (attr_body_ok' attr a) = translated self marker a.
Proof.
  intros Hk Hin. apply translated_ext; apply attr_body_other.
  - intros ->. apply Hk. right.
    vm_compute in Hin.
    repeat match goal with H : _ \/ _ |- _ => destruct H as [H|H] end;
      try contradiction; subst; vm_compute; tauto.
  - vm_compute in Hin.
    repeat match goal with H : _ \/ _ |- _ => destruct H as [H|H] end;
      try contradiction; subst; vm_compute; discriminate.
Qed.

Lemma settled_fixed (a : attributes) :
  settled_attributes print self a -> A a = a.
Proof.
  intros Hs.
  assert (forall attr, In attr attrAttrs -> attr_body_ok' attr a = a) as Hfix.
  { intros attr Hin. unfold attr_body_ok.
    destruct (translated self attr a) as [v|] eqn:Hv; [|reflexivity].
    apply setAttribute_same, (Hs attr v Hin Hv). }
  unfold markers_applied, attrAttrs. cbn [fold_left].
  rewrite !Hfix; [reflexivity| | | |]; vm_compute; tauto.
Qed.

Lemma markers_applied_settled (a : attributes) :
  settled_attributes print self (A a).
Proof.
  intros attr v Hin Hv.
  rewrite translated_markers_applied in Hv by (apply kept_marker, Hin).
  unfold markers_applied, attrAttrs. cbn [fold_left].
  vm_compute in Hin.
  repeat match goal with H : _ \/ _ |- _ => destruct H as [H|H] end;
    try contradiction; subst attr.
  - rewrite !attr_body_other by (vm_compute; discriminate).
    apply attr_body_own, Hv.
  - rewrite !attr_body_other by (vm_compute; discriminate).
    apply attr_body_own.
    rewrite !translated_attr_body; [exact Hv | apply kept_marker | ];
      vm_compute; tauto.
  - rewrite !attr_body_other by (vm_compute; discriminate).
    apply attr_body_own.
    rewrite !translated_attr_body; [exact Hv | apply kept_marker | | apply kept_marker | ];
      vm_compute; tauto.
  - apply attr_body_own.
    rewrite !translated_attr_body;
      [exact Hv | apply kept_marker | | apply kept_marker | | apply kept_marker | ];
      vm_compute; tauto.
Qed.

Lemma toggle_settled (force : bool) (a : attributes) :
  settled_attributes print self a ->
  settled_attributes print self (classList_toggle "active" force a).
Proof.
  intros Hs attr v Hin Hv.
  assert (translated self attr (classList_toggle "active" force a)
          = translated self attr a) as Ht.
  { apply translated_ext; apply toggle_other; [|discriminate].
    intros ->. vm_compute in Hin. intuition discriminate. }
  rewrite Ht in Hv. rewrite toggle_other; [exact (Hs attr v Hin Hv)|].
  vm_compute in Hin.
  repeat match goal with H : _ \/ _ |- _ => destruct H as [H|H] end;
    try contradiction; subst attr; vm_compute; discriminate.
Qed.

Lemma switcher_body_other (name : string) (a : attributes) :
  name <> "class" ->
  getAttribute (switcher_body lang a) name = getAttribute a name.
Proof. intros H. unfold switcher_body. apply toggle_other, H. Qed.

Lemma switcher_body_idempotent (a : attributes) :
  switcher_body lang (switcher_body lang a) = switcher_body lang a.
Proof.
  unfold switcher_body at 1. rewrite switcher_body_other by discriminate.
  unfold switcher_body.
  apply (classList_toggle_idempotent "active" eq_refl).
Qed.

Lemma switcher_button_toggle (inside force : bool) (a : attributes) :
  switcher_button inside (classList_toggle "active" force a)
  = switcher_button inside a.
Proof.
  unfold switcher_button, hasAttribute.
  rewrite toggle_other by discriminate. reflexivity.
Qed.

Lemma all_attributes_idempotent (inside : bool) (a : attributes) :
  all_attributes print self lang inside
    (all_attributes print self lang inside a)
  = all_attributes print self lang inside a.
Proof.
  unfold all_attributes. cbv zeta. fold (A a).
  destruct (switcher_button inside (A a)) eqn:Hb.
  - fold (A (switcher_body lang (A a))).
    rewrite (settled_fixed (switcher_body lang (A a)))
      by apply toggle_settled, markers_applied_settled.
    assert (switcher_button inside (switcher_body lang (A a)) = true) as ->.
    { unfold switcher_body. rewrite switcher_button_toggle. exact Hb. }
    apply switcher_body_idempotent.
  - fold (A (A a)).
    rewrite (settled_fixed (A a)) by apply markers_applied_settled.
    rewrite Hb. reflexivity.
Qed.

(** *** The class of an ancestor is read the same before and after *)

Lemma classList_ext (a b : attributes) :
  getAttribute a "class" = getAttribute b "class" -> classList a = classList b.
Proof. unfold classList. intros ->. reflexivity. Qed.

Lemma inside_switcher_markers (inside : bool) (a : attributes) :
  inside_switcher inside (A a) = inside_switcher inside a.
Proof.
  unfold inside_switcher. f_equal. f_equal.
  apply classList_ext, markers_applied_other.
  vm_compute. intuition discriminate.
Qed.

Lemma inside_switcher_all (inside inside' : bool) (a : attributes) :
  inside_switcher inside (all_attributes print self lang inside' a)
  = inside_switcher inside a.
Proof.
  unfold all_attributes. cbv zeta. fold (A a).
  destruct (switcher_button inside' (A a)); [|apply inside_switcher_markers].
  rewrite <- (inside_switcher_markers inside a).
  unfold inside_switcher, switcher_body. f_equal.
  apply (classList_toggle_other "active" eq_refl). discriminate.
Qed.

(** *** One element *)

Local Abbreviation attributes_applied' := (attributes_applied print self lang).
Local Abbreviation applied' := (applied print parseFragment self lang).
Local Abbreviation text_body_ok' := (text_body_ok print self).
Local Abbreviation html_body_ok' := (html_body_ok print parseFragment self).

Lemma attr_body_unmarked (attr : string) (a : attributes) :
  (if by_attribute attr tt a then attr_body_ok' attr a else a) = attr_body_ok' attr a.
Proof.
  unfold by_attribute. destruct (hasAttribute attr a) eqn:H; [reflexivity|].
  unfold attr_body_ok. rewrite translated_unmarked by exact H. reflexivity.
Qed.

Lemma attributes_applied_element (inside : bool) (t : string) (a : attributes)
      (cs : list node) :
  attributes_applied' inside (Element t a cs)
  = Element t (all_attributes print self lang inside a)
      (map (attributes_applied' (inside_switcher inside a)) cs).
Proof.
  unfold attributes_applied, attrAttrs. cbn [fold_left updated].
  rewrite !attr_body_unmarked.
  change (attr_body_ok' "data-i18n-alt"
            (attr_body_ok' "data-i18n-title"
               (attr_body_ok' "data-i18n-placeholder"
                  (attr_body_ok' "data-i18n-attr" a)))) with (A a).
  rewrite inside_switcher_markers, !map_map. reflexivity.
Qed.

Lemma textContent_children_fixed (f : node -> node) (s : string) :
  (forall data, f (Text data) = Text data) ->
  map f (textContent_children s) = textContent_children s.
Proof.
  intros Hf. unfold textContent_children.
  destruct (String.eqb s ""); [reflexivity|]. simpl. rewrite Hf. reflexivity.
Qed.

(** What [applyTranslations_ok] makes of an element: its attributes are
    written; its children are the parsed markup when the element has a
    translated markup marker, else the text when it has a translated text
    marker, else its own children, each treated in the same way. *)
Lemma applied_element (inside : bool) (t : string) (a : attributes) (cs : list node) :
  applied' inside (Element t a cs)
  = Element t (all_attributes print self lang inside a)
      (match html_body_ok' t a with
       | Some fragment =>
           map (attributes_applied' (inside_switcher inside a)) fragment
       | None =>
           match text_body_ok' t a with
           | Some text => text
           | None => map (applied' (inside_switcher inside a)) cs
           end
       end).
Proof.
  unfold applied. cbn [replaced].
  destruct (text_body_ok' t a) as [text|] eqn:Ht; cbn [replaced];
    destruct (html_body_ok' t a) as [fragment|]; rewrite attributes_applied_element.
  - reflexivity.
  - unfold text_body_ok in Ht. destruct (translated self "data-i18n" a); [|discriminate].
    injection Ht as <-.
    rewrite !textContent_children_fixed by reflexivity. reflexivity.
  - reflexivity.
  - rewrite !map_map. reflexivity.
Qed.

Lemma text_body_all_attributes (inside : bool) (t : string) (a : attributes) :
  text_body_ok' t (all_attributes print self lang inside a) = text_body_ok' t a.
Proof.
  unfold text_body_ok. rewrite translated_all_attributes; [reflexivity|].
  vm_compute. intuition discriminate.
Qed.

Lemma html_body_all_attributes (inside : bool) (t : string) (a : attributes) :
  html_body_ok' t (all_attributes print self lang inside a) = html_body_ok' t a.
Proof.
  unfold html_body_ok. rewrite translated_all_attributes; [reflexivity|].
  vm_compute. intuition discriminate.
Qed.

Lemma attributes_applied_idempotent (n : node) (inside : bool) :
  attributes_applied' inside (attributes_applied' inside n)
  = attributes_applied' inside n.
Proof.
  revert inside. induction n as [data|t a cs IH] using node_forall_ind;
    intros inside; [reflexivity|].
  rewrite !attributes_applied_element.
  rewrite all_attributes_idempotent, inside_switcher_all, map_map.
  f_equal. apply map_ext_in. intros n Hn.
  rewrite List.Forall_forall in IH. apply IH, Hn.
Qed.

(** Applying the translations to an element a second time gives the same
    element. *)
Lemma applied_idempotent (n : node) (inside : bool) :
  applied' inside (applied' inside n) = applied' inside n.
Proof.
  revert inside. induction n as [data|t a cs IH] using node_forall_ind;
    intros inside; [reflexivity|].
  rewrite (applied_element inside t a cs), applied_element.
  rewrite html_body_all_attributes, text_body_all_attributes.
  rewrite all_attributes_idempotent, inside_switcher_all.
  f_equal.
  destruct (html_body_ok' t a) as [fragment|]; [reflexivity|].
  destruct (text_body_ok' t a) as [text|]; [reflexivity|].
  rewrite map_map. apply map_ext_in. intros n Hn.
  rewrite List.Forall_forall in IH. apply IH, Hn.
Qed.

End Idempotence.

(** When no conversion throws, applying the translations a second time,
    with the registry, the current page and the language as the first
    application left them, gives the same tree and the same state. *)
Lemma applyTranslations_ok_idempotent (print : value -> string)
    (parseFragment : string -> string -> list node)
    (inside : bool) (st : state) (root : node) :
  applyTranslations_ok print parseFragment inside
    (fst (applyTranslations_ok print parseFragment inside st root))
    (snd (applyTranslations_ok print parseFragment inside st root))
  = applyTranslations_ok print parseFragment inside st root.
Proof.
  rewrite (applyTranslations_applied print parseFragment inside st root).
  cbn [fst snd].
  rewrite applyTranslations_applied, getCurrentLang_cached. cbn [fst snd].
  f_equal.
  destruct root as [data|t a cs]; [reflexivity|].
  cbn [below_root]. rewrite map_map. f_equal.
  apply map_ext. intros n. apply applied_idempotent.
Qed.

(** ** Exceptions in the DOM applicator *)

(** *** Loops *)

Lemma and_then_normal {S} (r : completion * S) (next : S -> completion * S) (s' : S) :
  and_then r next = (Normal, s') ->
  exists s, r = (Normal, s) /\ next s = (Normal, s').
Proof.
  destruct r as [[|e] s]; cbn [and_then]; [|discriminate].
  intros H. exists s. split; [reflexivity | exact H].
Qed.

(** A loop that ended normally made every turn, each ending normally. *)
Lemma forEach_normal {A S} (body : S -> A -> completion * S) (step : S -> A -> S)
      (items : list A) (s s' : S) :
  (forall s x s1, body s x = (Normal, s1) -> step s x = s1) ->
  forEach body items s = (Normal, s') ->
  fold_left step items s = s'.
Proof.
  intros Hstep. revert s. induction items as [|x rest IH]; intros s H.
  - injection H as <-. reflexivity.
  - cbn [forEach] in H. apply and_then_normal in H as (s1 & H1 & H2).
    cbn [fold_left]. rewrite (Hstep s x s1 H1). apply IH, H2.
Qed.

(** Turns that cannot throw make a loop that ends normally. *)
Lemma forEach_never_throws {A S} (body : S -> A -> completion * S)
      (items : list A) (s : S) :
  (forall s x, fst (body s x) = Normal) ->
  fst (forEach body items s) = Normal.
Proof.
  intros Hbody. revert s. induction items as [|x rest IH]; intros s; [reflexivity|].
  cbn [forEach]. specialize (Hbody s x).
  destruct (body s x) as [[|e] s1]; [|discriminate]. apply IH.
Qed.

(** A property of the loop state that every turn keeps, whether it throws
    or not, holds when the loop ends. *)
Lemma forEach_invariant {A S} (I : S -> Prop) (body : S -> A -> completion * S)
      (items : list A) (s : S) :
  (forall s x, In x items -> I s -> I (snd (body s x))) ->
  I s -> I (snd (forEach body items s)).
Proof.
  revert s. induction items as [|x rest IH]; intros s Hbody Hs; [exact Hs|].
  cbn [forEach].
  pose proof (Hbody s x (or_introl eq_refl) Hs) as H1.
  destruct (body s x) as [[|e] s1]; cbn [and_then snd] in *; [|exact H1].
  apply IH; [|exact H1]. intros s2 y Hy. apply Hbody. right. exact Hy.
Qed.

(** *** Writes at a position *)

Lemma update_ext_at (p : path) (f g : node -> node) (tree n : node) :
  get tree p = Some n -> f n = g n -> update p f tree = update p g tree.
Proof.
  revert tree. induction p as [|i p IH]; intros tree H Hfg.
  - injection H as ->. exact Hfg.
  - destruct tree as [data|t a cs]; [discriminate|].
    cbn [get] in H. cbn [update]. f_equal.
    destruct (cs !! i) as [c|] eqn:Hc; [|discriminate].
    apply list_alter_ext; [|reflexivity].
    intros x Hx. rewrite Hc in Hx. injection Hx as <-. apply IH; assumption.
Qed.

Lemma update_get (p : path) (n : node) (doc : node) :
  get doc p = Some n -> update p (fun _ => n) doc = doc.
Proof.
  revert doc. induction p as [|i p IH]; intros doc H.
  - injection H as ->. reflexivity.
  - destruct doc as [data|t a cs]; [discriminate|].
    cbn [get] in H. cbn [update]. f_equal.
    destruct (cs !! i) as [c|] eqn:Hc; [|discriminate].
    apply list_eq. intros j. destruct (decide (j = i)) as [->|Hne].
    + rewrite list_lookup_alter_eq, Hc. cbn. rewrite IH by exact H. reflexivity.
    + rewrite list_lookup_alter_ne by congruence. reflexivity.
Qed.

Lemma update_same (p : path) (f : node -> node) (tree n : node) :
  get tree p = Some n -> f n = n -> update p f tree = tree.
Proof.
  intros H Hf. rewrite (update_ext_at p f (fun _ => n) tree n H Hf).
  apply update_get, H.
Qed.

Lemma update_nowhere (p : path) (f : node -> node) (tree : node) :
  get tree p = None -> update p f tree = tree.
Proof.
  revert tree. induction p as [|i p IH]; intros tree H; [discriminate|].
  destruct tree as [data|t a cs]; [reflexivity|].
  cbn [get] in H. cbn [update]. f_equal.
  apply list_eq. intros j. destruct (decide (j = i)) as [->|Hne].
  - rewrite list_lookup_alter_eq. destruct (cs !! i) as [c|]; [|reflexivity].
    cbn. rewrite IH by exact H. reflexivity.
  - rewrite list_lookup_alter_ne by congruence. reflexivity.
Qed.

Section Normal_runs.

Variable ToString : value -> option string.
Variable parseFragment : string -> string -> list node.

Local Abbreviation print := (converted ToString).

(** *** A call that ends normally *)

Lemma text_body_write (self : I18N) (t : string) (a : attributes) :
  match text_body ToString self t a with
  | Write cs' => text_body_ok print self t a = Some cs'
  | Nothing => text_body_ok print self t a = None
  | Throws _ => True
  end.
Proof.
  unfold text_body, text_body_ok, converted.
  destruct (translated self "data-i18n" a) as [v|]; [|reflexivity].
  destruct (ToString v); [reflexivity | exact I].
Qed.

Lemma html_body_write (self : I18N) (t : string) (a : attributes) :
  match html_body ToString parseFragment self t a with
  | Write cs' => html_body_ok print parseFragment self t a = Some cs'
  | Nothing => html_body_ok print parseFragment self t a = None
  | Throws _ => True
  end.
Proof.
  unfold html_body, html_body_ok, converted.
  destruct (translated self "data-i18n-html" a) as [v|]; [|reflexivity].
  destruct (ToString v); [reflexivity | exact I].
Qed.

Lemma attr_body_write (self : I18N) (attr : string) (a : attributes) :
  match attr_body ToString self attr a with
  | Write a' => attr_body_ok print self attr a = a'
  | Nothing => attr_body_ok print self attr a = a
  | Throws _ => True
  end.
Proof.
  unfold attr_body, attr_body_ok, converted.
  destruct (translated self attr a) as [v|]; [|reflexivity].
  destruct (ToString v); [reflexivity | exact I].
Qed.

Lemma forEach_replacing_normal (body : string -> attributes -> action (list node))
      (body_ok : string -> attributes -> option (list node))
      (snapshot : list path) (tree tree' : node) :
  (forall t a, match body t a with
               | Write cs' => body_ok t a = Some cs'
               | Nothing => body_ok t a = None
               | Throws _ => True
               end) ->
  forEach_replacing snapshot body tree = (Normal, tree') ->
  forEach_replacing_ok snapshot body_ok tree = tree'.
Proof.
  intros Hbody H. unfold forEach_replacing in H. unfold forEach_replacing_ok.
  destruct (forEach (write_children body tree) snapshot (tree, [])) as [c s'] eqn:Hrun.
  cbn [fst snd] in H. injection H as -> <-.
  rewrite (forEach_normal (write_children body tree) (write_children_ok body_ok)
             snapshot (tree, []) s'); [reflexivity| |exact Hrun].
  intros [cur det] p s1. unfold write_children, write_children_ok.
  destruct (existsb (fun d => below d p) det).
  - destruct (get tree p) as [[data|t a cs]|]; try (intros [= <-]; reflexivity).
    destruct (body t a); intros [= <-]; reflexivity.
  - destruct (get cur p) as [[data|t a cs]|]; try (intros [= <-]; reflexivity).
    specialize (Hbody t a).
    destruct (body t a); rewrite ?Hbody; intros [= <-]; reflexivity.
Qed.

Lemma forEach_updating_normal (body : attributes -> action attributes)
      (body_ok : attributes -> attributes)
      (snapshot : list path) (tree tree' : node) :
  (forall a, match body a with
             | Write a' => body_ok a = a'
             | Nothing => body_ok a = a
             | Throws _ => True
             end) ->
  forEach_updating snapshot body tree = (Normal, tree') ->
  forEach_updating_ok snapshot body_ok tree = tree'.
Proof.
  intros Hbody H. unfold forEach_updating in H. unfold forEach_updating_ok.
  apply (forEach_normal (write_attributes body)); [|exact H].
  intros cur p s1. unfold write_attributes.
  destruct (get cur p) as [[data|t a cs]|] eqn:Hget.
  - intros [= <-]. apply (update_same p _ cur (Text data) Hget). reflexivity.
  - specialize (Hbody a). destruct (body a) as [|a'|e]; intros [= <-].
    + apply (update_same p _ cur _ Hget). cbn [on_attributes]. rewrite Hbody. reflexivity.
    + apply (update_ext_at p _ _ cur _ Hget). cbn [on_attributes]. rewrite Hbody. reflexivity.
  - intros [= <-]. apply update_nowhere, Hget.
Qed.

Lemma forEach_updating_attr (self : I18N) (attr : string) (snapshot : list path)
      (tree tree' : node) :
  forEach_updating snapshot (attr_body ToString self attr) tree = (Normal, tree') ->
  forEach_updating_ok snapshot (attr_body_ok print self attr) tree = tree'.
Proof. apply forEach_updating_normal, attr_body_write. Qed.

Lemma forEach_replacing_text (self : I18N) (snapshot : list path) (tree tree' : node) :
  forEach_replacing snapshot (text_body ToString self) tree = (Normal, tree') ->
  forEach_replacing_ok snapshot (text_body_ok print self) tree = tree'.
Proof. apply forEach_replacing_normal, text_body_write. Qed.

Lemma forEach_replacing_html (self : I18N) (snapshot : list path) (tree tree' : node) :
  forEach_replacing snapshot (html_body ToString parseFragment self) tree
  = (Normal, tree') ->
  forEach_replacing_ok snapshot (html_body_ok print parseFragment self) tree = tree'.
Proof. apply forEach_replacing_normal, html_body_write. Qed.

(** A call that ends normally leaves what the loops without exceptions
    leave. *)
Lemma applyTranslations_normal (inside : bool) (st : state) (root : node)
      (r : state * node) :
  applyTranslations ToString parseFragment inside st root = (Normal, r) ->
  applyTranslations_ok print parseFragment inside st root = r.
Proof.
  unfold applyTranslations, applyTranslations_ok. cbv zeta.
  set (st1 := snd (getCurrentLang st)). set (self := engine st1).
  destruct (and_then _ _) as [[|e] root3] eqn:Hrun; [|discriminate].
  intros [= <-].
  apply and_then_normal in Hrun as (root2 & Hrun & Hattr).
  apply and_then_normal in Hrun as (root1 & Htext & Hhtml).
  apply forEach_replacing_text in Htext. apply forEach_replacing_html in Hhtml.
  rewrite Htext, Hhtml.
  unfold attrAttrs in Hattr |- *. cbn [forEach fold_left] in Hattr |- *.
  apply and_then_normal in Hattr as (r1 & H1 & Hattr).
  apply and_then_normal in Hattr as (r2 & H2 & Hattr).
  apply and_then_normal in Hattr as (r3 & H3 & Hattr).
  apply and_then_normal in Hattr as (r4 & H4 & Hattr).
  injection Hattr as <-.
  apply forEach_updating_attr in H1, H2, H3, H4.
  rewrite H1, H2, H3, H4. reflexivity.
Qed.

(** The state that a call leaves, however it ends: that of the first
    [getCurrentLang]. *)
Lemma applyTranslations_state (inside : bool) (st : state) (root : node) :
  fst (snd (applyTranslations ToString parseFragment inside st root))
  = snd (getCurrentLang st).
Proof.
  unfold applyTranslations. cbv zeta.
  destruct (and_then _ _) as [[|e] root3]; [|reflexivity].
  cbn [snd].
  rewrite (forEach_switcher_cached _ _ (fst (getCurrentLang st)));
    [reflexivity | apply getCurrentLang_cached].
Qed.

(** *** Calls that cannot throw *)

Lemma translated_value (self : I18N) (marker : string) (a : attributes) (v : value) :
  translated self marker a = Some v ->
  exists key namespace, v = t self key namespace.
Proof.
  unfold translated. destruct (getAttribute a marker) as [key|]; [|discriminate].
  destruct (strict_neq_str _ key); [|discriminate].
  intros [= <-]. eexists _, _. reflexivity.
Qed.

Lemma write_children_never_throws (body : string -> attributes -> action (list node))
      (tree0 : node) (st : node * list path) (p : path) :
  (forall t a e, body t a <> Throws e) ->
  fst (write_children body tree0 st p) = Normal.
Proof.
  intros Hbody. destruct st as [tree det]. unfold write_children.
  destruct (existsb (fun d => below d p) det).
  - destruct (get tree0 p) as [[data|t a cs]|]; try reflexivity.
    specialize (Hbody t a). destruct (body t a); try reflexivity.
    exfalso. eapply Hbody. reflexivity.
  - destruct (get tree p) as [[data|t a cs]|]; try reflexivity.
    specialize (Hbody t a). destruct (body t a); try reflexivity.
    exfalso. eapply Hbody. reflexivity.
Qed.

Lemma forEach_replacing_never_throws (body : string -> attributes -> action (list node))
      (snapshot : list path) (tree : node) :
  (forall t a e, body t a <> Throws e) ->
  fst (forEach_replacing snapshot body tree) = Normal.
Proof.
  intros Hbody. unfold forEach_replacing. cbn [fst].
  apply forEach_never_throws. intros st p.
  apply write_children_never_throws, Hbody.
Qed.

Lemma forEach_updating_never_throws (body : attributes -> action attributes)
      (snapshot : list path) (tree : node) :
  (forall a e, body a <> Throws e) ->
  fst (forEach_updating snapshot body tree) = Normal.
Proof.
  intros Hbody. apply forEach_never_throws. intros cur p.
  unfold write_attributes.
  destruct (get cur p) as [[data|t a cs]|]; try reflexivity.
  specialize (Hbody a). destruct (body a); try reflexivity.
  exfalso. eapply Hbody. reflexivity.
Qed.

Lemma bodies_never_throw (self : I18N) :
  convertible ToString self ->
  (forall t a e, text_body ToString self t a <> Throws e)
  /\ (forall t a e, html_body ToString parseFragment self t a <> Throws e)
  /\ (forall attr a e, attr_body ToString self attr a <> Throws e).
Proof.
  intros Hconv.
  assert (forall marker a v, translated self marker a = Some v -> ToString v <> None)
    as Hv.
  { intros marker a v H. apply translated_value in H as (key & ns & ->). apply Hconv. }
  repeat split.
  - intros t a e. unfold text_body.
    destruct (translated self "data-i18n" a) as [v|] eqn:E; [|discriminate].
    specialize (Hv _ _ _ E). destruct (ToString v); [discriminate | contradiction].
  - intros t a e. unfold html_body.
    destruct (translated self "data-i18n-html" a) as [v|] eqn:E; [|discriminate].
    specialize (Hv _ _ _ E). destruct (ToString v); [discriminate | contradiction].
  - intros attr a e. unfold attr_body.
    destruct (translated self attr a) as [v|] eqn:E; [|discriminate].
    specialize (Hv _ _ _ E). destruct (ToString v); [discriminate | contradiction].
Qed.

Lemma and_then_never_throws {S} (r : completion * S) (next : S -> completion * S) :
  fst r = Normal -> (forall s, fst (next s) = Normal) ->
  fst (and_then r next) = Normal.
Proof.
  destruct r as [[|e] s]; [|discriminate]. intros _ H. apply H.
Qed.

(** When every value converts, the call ends normally. *)
Lemma applyTranslations_never_throws (inside : bool) (st : state) (root : node) :
  convertible ToString (engine (snd (getCurrentLang st))) ->
  fst (applyTranslations ToString parseFragment inside st root) = Normal.
Proof.
  intros Hconv. apply bodies_never_throw in Hconv as (Htext & Hhtml & Hattr).
  unfold applyTranslations. cbv zeta.
  assert (fst (and_then
    (and_then
       (forEach_replacing
          (querySelectorAll (by_attribute "data-i18n") no_context tt root)
          (text_body ToString (engine (snd (getCurrentLang st)))) root)
       (fun root0 =>
          forEach_replacing
            (querySelectorAll (by_attribute "data-i18n-html") no_context tt root0)
            (html_body ToString parseFragment (engine (snd (getCurrentLang st))))
            root0))
    (forEach
       (fun root0 attr =>
          forEach_updating
            (querySelectorAll (by_attribute attr) no_context tt root0)
            (attr_body ToString (engine (snd (getCurrentLang st))) attr) root0)
       attrAttrs)) = Normal) as Hrun.
  { apply and_then_never_throws.
    - apply and_then_never_throws.
      + apply forEach_replacing_never_throws, Htext.
      + intros s. apply forEach_replacing_never_throws, Hhtml.
    - intros s. apply forEach_never_throws. intros cur attr.
      apply forEach_updating_never_throws, Hattr. }
  destruct (and_then _ _) as [[|e] root3]; [reflexivity | discriminate].
Qed.

End Normal_runs.

Lemma convertible_self (ToString : value -> option string) (self self' : I18N) :
  currentPage self' = currentPage self ->
  translations self' = translations self ->
  convertible ToString self -> convertible ToString self'.
Proof.
  intros Hp Hr H key ns. rewrite (t_ext self self' key ns Hp Hr). apply H.
Qed.




(** ** Language preference store, further properties *)


(** X2: after [setLang] with one of the two codes, [getCurrentLang]
    returns that code and changes nothing, also when the storage refused the
    write and [setLang] ended with an exception. *)
Theorem setLang_then_getCurrentLang (st : state) (l : string) :
  l = "zh" \/ l = "en" ->
  getCurrentLang (snd (setLang (VStr l) st)) = (l, snd (setLang (VStr l) st)).
Proof.
  intros [-> | ->]; unfold setLang; cbn [String.eqb Ascii.eqb Bool.eqb negb andb];
    destruct (storage_full (env st)); reflexivity.
Qed.

(** X3: when the storage takes the write, the preference outlives the
    session: in any state with an empty cache whose storage is the one
    [setLang] left, [getCurrentLang] returns the code that was set, whatever
    the browser language.  When the storage refuses the write, [setLang]
    leaves the storage as it was, so that a later session sees nothing of
    the call. *)
Theorem stored_preference_survives (st st' : state) (l : string) :
  l = "zh" \/ l = "en" ->
  currentLang (engine st') = None ->
  localStorage (env st') = localStorage (env (snd (setLang (VStr l) st))) ->
  (storage_full (env st) = false -> fst (getCurrentLang st') = l)
  /\ (storage_full (env st) = true ->
      localStorage (env st') = localStorage (env st)).
Proof.
  intros Hl Hnone Hstore. split; intros Hfull.
  - unfold getCurrentLang. rewrite Hnone, Hstore.
    cbn [set_and_nonempty]. cbv zeta.
    assert (localStorage (env (snd (setLang (VStr l) st))) !! "lang" = Some l) as ->.
    { destruct Hl as [-> | ->]; unfold setLang;
        cbn [String.eqb Ascii.eqb Bool.eqb negb andb]; rewrite Hfull;
        apply lookup_insert_eq. }
    destruct Hl as [-> | ->]; reflexivity.
  - rewrite Hstore.
    destruct Hl as [-> | ->]; unfold setLang;
      cbn [String.eqb Ascii.eqb Bool.eqb negb andb]; rewrite Hfull; reflexivity.
Qed.




Lemma setLang_then_getCurrentLang_witness :
  getCurrentLang (snd (setLang (VStr "en") full_storage))
  = ("en", snd (setLang (VStr "en") full_storage)).
Proof.
  apply (setLang_then_getCurrentLang full_storage "en"). right. reflexivity.
Defined.

Lemma stored_preference_survives_witness :
  fst (getCurrentLang (reloaded (snd (setLang (VStr "zh") fresh_state)))) = "zh".
Proof.
  apply (proj1 (stored_preference_survives fresh_state
                  (reloaded (snd (setLang (VStr "zh") fresh_state))) "zh"
                  (or_introl eq_refl) eq_refl eq_refl)).
  reflexivity.
Defined.


(** ** Key resolver, further properties *)

Lemma split_nonempty (sep : ascii) (s : string) : split sep s <> [].
Proof.
  induction s as [|c r IH]; [discriminate|].
  simpl. destruct (Ascii.eqb c sep); [discriminate|].
  destruct (split sep r); [contradiction | discriminate].
Qed.

Lemma split_join (sep : ascii) (p q : string) :
  split sep (p +:+ String sep q) = split sep p ++ split sep q.
Proof.
  induction p as [|c r IH].
  - simpl. rewrite Ascii.eqb_refl. reflexivity.
  - change (String c r +:+ String sep q) with (String c (r +:+ String sep q)).
    cbn [split]. rewrite IH.
    destruct (Ascii.eqb c sep); [reflexivity|].
    pose proof (split_nonempty sep r) as Hne.
    destruct (split sep r) as [|seg segs]; [contradiction | reflexivity].
Qed.

Lemma walk_null (keys : list string) : walk keys VNull = VNull.
Proof. destruct keys; reflexivity. Qed.

Lemma walk_app (keys1 keys2 : list string) (v : value) :
  walk (keys1 ++ keys2) v = walk keys2 (walk keys1 v).
Proof.
  revert v. induction keys1 as [|k keys1 IH]; intros v; [reflexivity|].
  cbn [app walk].
  destruct (truthy v && typeof_object v); [|rewrite walk_null; reflexivity].
  destruct (isArray v && negb (isNaN k)); [apply IH|].
  destruct (has_prop v k); [apply IH | rewrite walk_null; reflexivity].
Qed.

Lemma append_nonempty (p s : string) : p <> "" -> String.eqb (p +:+ s) "" = false.
Proof. destruct p; [contradiction | reflexivity]. Qed.

(** X6: lookups compose: resolving [p.q] in a value is resolving [q] in
    what [p] resolves to there, for non-empty [p] and [q]. *)
Theorem getValue_composes (obj : value) (p q : string) :
  p <> "" -> q <> "" ->
  getValue obj (p +:+ "." +:+ q) = getValue (getValue obj p) q.
Proof.
  intros Hp Hq. unfold getValue.
  rewrite (append_nonempty p _ Hp).
  destruct (String.eqb_spec p ""); [contradiction|].
  destruct (String.eqb_spec q ""); [contradiction|].
  change ("." +:+ q) with (String "." q).
  rewrite split_join. apply walk_app.
Qed.

(** ** Namespace fallback engine, further properties *)

Lemma first_found_found (vs : list value) (miss : value) :
  found miss = true -> found (first_found vs miss) = true.
Proof.
  intros Hm. induction vs as [|v vs IH]; [exact Hm|].
  simpl. destruct (found v) eqn:Hv; [exact Hv | exact IH].
Qed.

(** X7: [t] never returns [null] or [undefined]: its result is the key
    itself or what the key resolves to in one of the consulted namespaces. *)
Theorem t_never_null (self : I18N) (key : string) (namespace : option string) :
  found (t self key namespace) = true
  /\ (t self key namespace = VStr key
      \/ exists ns, In ns (consulted self namespace)
                    /\ t self key namespace = lookup_ns self key ns).
Proof.
  rewrite t_first_found. split; [apply first_found_found; reflexivity|].
  induction (consulted self namespace) as [|ns nss IH]; [left; reflexivity|].
  cbn [map first_found].
  destruct (found (lookup_ns self key ns)).
  - right. exists ns. split; [left; reflexivity | reflexivity].
  - destruct IH as [H | (n & Hn & H)]; [left; exact H|].
    right. exists n. split; [right; exact Hn | exact H].
Qed.

(** X8: with an explicit namespace, [t] returns the first value found
    along: that namespace, the current page if it is another one, the loaded
    page namespaces solutions, services, index, introduction, contact other
    than it, then header and footer; so a key found in the explicit namespace
    is returned whatever the others hold, and a key missing there and found
    in the current page resolves to the current page's value. *)
Theorem t_explicit_order (self : I18N) (key namespace : string) :
  namespace <> "" ->
  t self key (Some namespace)
  = first_found
      (map (lookup_ns self key)
         ([namespace]
          ++ List.filter (fun cur => negb (String.eqb cur namespace)) (current_list self)
          ++ List.filter (fun ns => negb (String.eqb ns namespace) && loaded self ns)
               ["solutions"; "services"; "index"; "introduction"; "contact"]
          ++ ["header"; "footer"]))
      (VStr key)
  /\ (found (lookup_ns self key namespace) = true ->
      t self key (Some namespace) = lookup_ns self key namespace)
  /\ (forall cur,
         currentPage self = Some cur -> cur <> "" -> cur <> namespace ->
         missing self namespace key ->
         found (lookup_ns self key cur) = true ->
         t self key (Some namespace) = lookup_ns self key cur).
Proof.
  intros Hne.
  assert (t self key (Some namespace)
          = first_found
              (map (lookup_ns self key)
                 ([namespace]
                  ++ List.filter (fun cur => negb (String.eqb cur namespace))
                       (current_list self)
                  ++ List.filter
                       (fun ns => negb (String.eqb ns namespace) && loaded self ns)
                       ["solutions"; "services"; "index"; "introduction"; "contact"]
                  ++ ["header"; "footer"]))
              (VStr key)) as Ht.
  { rewrite t_first_found. unfold consulted.
    change (set_and_nonempty (Some namespace)) with (nonempty namespace).
    unfold nonempty. destruct (String.eqb_spec namespace ""); [contradiction|].
    reflexivity. }
  split; [exact Ht|]. split.
  - intros Hf. rewrite Ht. cbn [app map first_found]. rewrite Hf. reflexivity.
  - intros cur Hcur Hcne Hns Hmiss Hf. rewrite Ht.
    cbn [app map first_found]. unfold missing in Hmiss. rewrite Hmiss.
    unfold current_list. rewrite Hcur. unfold nonempty.
    destruct (String.eqb_spec cur ""); [contradiction|]. cbn [negb List.filter].
    destruct (String.eqb_spec cur namespace); [contradiction|].
    cbn [negb app map first_found]. rewrite Hf. reflexivity.
Qed.

Lemma getValue_composes_witness :
  getValue nested_payload "a.b.1" = getValue (getValue nested_payload "a") "b.1".
Proof.
  apply (getValue_composes nested_payload "a" "b.1"); discriminate.
Defined.

Lemma t_explicit_order_witness :
  t page_and_footer "title" (Some "footer") = VStr "Footer title"
  /\ t page_and_footer "title" (Some "header") = VStr "Services title".
Proof.
  split.
  - apply (proj1 (proj2 (t_explicit_order page_and_footer "title" "footer"
                           ltac:(discriminate)))).
    reflexivity.
  - apply (proj2 (proj2 (t_explicit_order page_and_footer "title" "header"
                           ltac:(discriminate))) "services");
      try discriminate; reflexivity.
Defined.

(** ** Translation loader, further properties *)

(** Whatever the order of completion, the load ends in one state. *)
Lemma loadTranslations_final (names : list string) (lang : string) (net : network)
      (order : list nat) (r0 : registry) :
  order ≡ₚ seq 0 (length names) ->
  loadTranslations names lang net order r0
  = {| registry_now :=
         store_results names (map (payload_at names lang net) (seq 0 (length names))) r0;
       aggregate :=
         {| slots := map Some (map (payload_at names lang net) (seq 0 (length names)));
            outcome := Some (Fulfilled (map (payload_at names lang net)
                                          (seq 0 (length names)))) |} |}.
Proof.
  intros Hperm.
  assert (NoDup order) as Hnd by (rewrite Hperm; apply NoDup_seq).
  assert (forall j, j ∈ order <-> (j < length names)%nat) as Hmem.
  { intros j. rewrite Hperm, elem_of_seq. lia. }
  assert (length order = length names) as Hlen.
  { rewrite Hperm. apply length_seq. }
  destruct order as [|x order' _] using rev_ind.
  { destruct names; [reflexivity | discriminate Hlen]. }
  assert (x ∉ order') as Hx.
  { apply NoDup_app in Hnd as (_ & Hdisj & _).
    intros Hin. apply (Hdisj x Hin). left. }
  assert ((x < length names)%nat) as Hxlt.
  { apply Hmem. rewrite elem_of_app, list_elem_of_singleton. right. reflexivity. }
  destruct (run_complete names lang net r0 order' x Hxlt Hx) as [Ho Hr].
  { intros j Hj. apply Hmem, Hj. }
  pose proof (run_slots names lang net r0 (order' ++ [x])) as Hs.
  rewrite slots_after_complete in Hs by (intros j Hj; apply Hmem, Hj).
  destruct (loadTranslations names lang net (order' ++ [x]) r0) as [r [s o]].
  cbn in Ho, Hr, Hs. subst. reflexivity.
Qed.

Lemma truthy_or_empty (v : value) : truthy (or_empty v) = true.
Proof. unfold or_empty. destruct (truthy v) eqn:H; [exact H | reflexivity]. Qed.

Lemma or_empty_truthy (v : value) : truthy v = true -> or_empty v = v.
Proof. unfold or_empty. intros ->. reflexivity. Qed.

(** The last position at which a name occurs. *)
Lemma last_occurrence (names : list string) (name : string) :
  In name names ->
  exists i, names !! i = Some name /\ name ∉ drop (S i) names.
Proof.
  induction names as [|k names IH]; [contradiction|].
  intros Hin.
  destruct (decide (name ∈ names)) as [Hlater|Hlater].
  - destruct IH as (i & Hi & Hd); [apply list_elem_of_In, Hlater|].
    exists (S i). split; [exact Hi | exact Hd].
  - destruct Hin as [->|Hin]; [|exfalso; apply Hlater, list_elem_of_In, Hin].
    exists 0%nat. split; [reflexivity|]. simpl. rewrite drop_0. exact Hlater.
Qed.

Lemma store_results_entry (names : list string) (lang : string) (net : network)
      (r0 : registry) (i : nat) (name : string) :
  names !! i = Some name -> name ∉ drop (S i) names -> name <> "__proto__" ->
  entries (store_results names
             (map (payload_at names lang net) (seq 0 (length names))) r0) !! name
  = Some (or_empty (payload_at names lang net i)).
Proof.
  intros Hi Hnot Hne. unfold store_results.
  rewrite (store_from_last 0 names _ r0 i name Hi Hnot Hne).
  rewrite list_lookup_fmap, lookup_seq_lt by (eapply lookup_lt_Some, Hi).
  reflexivity.
Qed.

(** X9: a load leaves the other namespaces alone: an entry of the registry
    whose name is not among the requested ones holds the same payload
    afterwards. *)
Theorem loadTranslations_keeps_others (names : list string) (lang : string)
    (net : network) (order : list nat) (r0 : registry) (name : string) (v : value) :
  order ≡ₚ seq 0 (length names) ->
  entries r0 !! name = Some v ->
  ~ In name names ->
  reg_get (registry_now (loadTranslations names lang net order r0)) name = v.
Proof.
  intros Hperm Hv Hnot.
  rewrite (loadTranslations_final names lang net order r0 Hperm). cbn [registry_now].
  apply reg_get_entry. unfold store_results.
  apply store_from_keeps; [|exact Hv].
  intros Hin. apply Hnot, list_elem_of_In, Hin.
Qed.

(** X10: after a load every requested namespace counts as loaded for [t]
    (its entry is truthy), also when its fetch failed or its file held a
    falsy value. *)
Theorem loadTranslations_loads_all (names : list string) (lang : string)
    (net : network) (order : list nat) (r0 : registry) (self : I18N) (name : string) :
  order ≡ₚ seq 0 (length names) ->
  translations self = registry_now (loadTranslations names lang net order r0) ->
  In name names -> name <> "__proto__" ->
  loaded self name = true.
Proof.
  intros Hperm Hself Hin Hne.
  destruct (last_occurrence names name Hin) as (i & Hi & Hd).
  unfold loaded. rewrite Hself.
  rewrite (loadTranslations_final names lang net order r0 Hperm). cbn [registry_now].
  rewrite (reg_get_entry _ _ _ (store_results_entry names lang net r0 i name Hi Hd Hne)).
  apply truthy_or_empty.
Qed.

(** X11: the order in which the fetches complete does not matter: any two
    orders end in the same registry and the same aggregate. *)
Theorem loadTranslations_order_irrelevant (names : list string) (lang : string)
    (net : network) (order1 order2 : list nat) (r0 : registry) :
  order1 ≡ₚ seq 0 (length names) ->
  order2 ≡ₚ seq 0 (length names) ->
  loadTranslations names lang net order1 r0
  = loadTranslations names lang net order2 r0.
Proof.
  intros H1 H2.
  rewrite (loadTranslations_final names lang net order1 r0 H1).
  rewrite (loadTranslations_final names lang net order2 r0 H2).
  reflexivity.
Qed.

(** X12: what is loaded is what is translated: when the fetch for the
    current page's namespace answers with a payload in which the key
    resolves, [t] without a namespace returns that value after the load. *)
Theorem loaded_page_resolves (names : list string) (lang : string)
    (net : network) (order : list nat) (r0 : registry) (self : I18N)
    (i : nat) (cur key : string) (P : value) :
  order ≡ₚ seq 0 (length names) ->
  translations self = registry_now (loadTranslations names lang net order r0) ->
  currentPage self = Some cur -> cur <> "" -> cur <> "__proto__" ->
  names !! i = Some cur -> cur ∉ drop (S i) names ->
  net i = Fulfilled {| ok := true; json := Fulfilled P |} ->
  truthy P = true ->
  found (getValue P key) = true ->
  t self key None = getValue P key.
Proof.
  intros Hperm Hself Hcur Hne Hproto Hi Hd Hnet HP Hf.
  assert (reg_get (translations self) cur = P) as Hreg.
  { rewrite Hself, (loadTranslations_final names lang net order r0 Hperm).
    cbn [registry_now].
    rewrite (reg_get_entry _ _ _ (store_results_entry names lang net r0 i cur Hi Hd Hproto)).
    unfold payload_at. rewrite Hnet. cbn. apply or_empty_truthy, HP. }
  assert (lookup_ns self key cur = getValue P key) as Hl.
  { unfold lookup_ns. rewrite Hreg. reflexivity. }
  assert (loaded self cur = true) as Hload.
  { unfold loaded. rewrite Hreg. exact HP. }
  rewrite t_first_found. unfold consulted, current_list. cbn [set_and_nonempty].
  rewrite Hcur. unfold nonempty. destruct (String.eqb_spec cur ""); [contradiction|].
  cbn [negb app List.filter]. rewrite Hload.
  cbn [map first_found]. rewrite Hl, Hf. reflexivity.
Qed.

Lemma loadTranslations_keeps_others_witness :
  reg_get (registry_now
             (loadTranslations ["header"; "footer"; "contact"] "en" contact_404
                [1; 2; 0]%nat (translations page_and_footer))) "services"
  = VObj [("title", VStr "Services title")].
Proof.
  apply (loadTranslations_keeps_others ["header"; "footer"; "contact"] "en"
           contact_404 [1; 2; 0]%nat (translations page_and_footer) "services").
  - apply (bool_decide_unpack _). vm_compute. exact I.
  - reflexivity.
  - simpl. intuition discriminate.
Defined.

Lemma loadTranslations_loads_all_witness :
  loaded (after_contact_load [2; 1; 0]%nat) "contact" = true.
Proof.
  apply (loadTranslations_loads_all ["header"; "footer"; "contact"] "en"
           contact_404 [2; 1; 0]%nat empty_registry
           (after_contact_load [2; 1; 0]%nat) "contact").
  - apply (bool_decide_unpack _). vm_compute. exact I.
  - reflexivity.
  - simpl. tauto.
  - discriminate.
Defined.

Lemma loadTranslations_order_irrelevant_witness :
  loadTranslations ["header"; "footer"; "contact"] "en" contact_404
    [2; 0; 1]%nat empty_registry
  = loadTranslations ["header"; "footer"; "contact"] "en" contact_404
      [0; 1; 2]%nat empty_registry.
Proof.
  apply loadTranslations_order_irrelevant;
    apply (bool_decide_unpack _); vm_compute; exact I.
Defined.

Lemma loaded_page_resolves_witness :
  t (after_services_load [2; 0; 1]%nat) "hero.title" None = VStr "Our services".
Proof.
  apply (loaded_page_resolves ["header"; "footer"; "services"] "zh" services_ok
           [2; 0; 1]%nat empty_registry (after_services_load [2; 0; 1]%nat)
           2%nat "services" "hero.title"
           (VObj [("hero", VObj [("title", VStr "Our services")])])).
  - apply (bool_decide_unpack _). vm_compute. exact I.
  - reflexivity.
  - reflexivity.
  - discriminate.
  - discriminate.
  - reflexivity.
  - simpl. apply not_elem_of_nil.
  - reflexivity.
  - reflexivity.
  - reflexivity.
Defined.

(** ** Path resolver, further properties *)

Lemma mapped_page_cases (page : string) :
  (exists s, In s ["index"; "services"; "solutions"; "introduction"; "contact"]
             /\ mapped_page page = VStr s)
  \/ (exists h, mapped_page page = VHost h).
Proof.
  unfold mapped_page, get_prop, find_prop, pageMap. cbn [assoc].
  destruct (String.eqb "index" page);
    [left; exists "index"; split; [simpl; tauto | reflexivity]|].
  destruct (String.eqb "services" page);
    [left; exists "services"; split; [simpl; tauto | reflexivity]|].
  destruct (String.eqb "solutions" page);
    [left; exists "solutions"; split; [simpl; tauto | reflexivity]|].
  destruct (String.eqb "introduction" page);
    [left; exists "introduction"; split; [simpl; tauto | reflexivity]|].
  destruct (String.eqb "contact" page);
    [left; exists "contact"; split; [simpl; tauto | reflexivity]|].
  cbn [or_else]. unfold object_proto_prop.
  destruct (String.eqb page "__proto__"); [right; eexists; reflexivity|].
  destruct (mem page object_proto_names); [right; eexists; reflexivity|].
  left. exists "index". split; [simpl; tauto | reflexivity].
Qed.

Lemma mapped_page_own (page : string) :
  String.eqb page "__proto__" = false -> mem page object_proto_names = false ->
  exists s, In s ["index"; "services"; "solutions"; "introduction"; "contact"]
            /\ mapped_page page = VStr s.
Proof.
  intros Hp Hm.
  unfold mapped_page, get_prop, find_prop, pageMap. cbn [assoc].
  destruct (String.eqb "index" page);
    [exists "index"; split; [simpl; tauto | reflexivity]|].
  destruct (String.eqb "services" page);
    [exists "services"; split; [simpl; tauto | reflexivity]|].
  destruct (String.eqb "solutions" page);
    [exists "solutions"; split; [simpl; tauto | reflexivity]|].
  destruct (String.eqb "introduction" page);
    [exists "introduction"; split; [simpl; tauto | reflexivity]|].
  destruct (String.eqb "contact" page);
    [exists "contact"; split; [simpl; tauto | reflexivity]|].
  cbn [or_else]. unfold object_proto_prop. rewrite Hp, Hm.
  exists "index". split; [simpl; tauto | reflexivity].
Qed.

Lemma getPageName_mapped (path : string) :
  getPageName path = VStr "index" \/ exists page, getPageName path = mapped_page page.
Proof.
  unfold getPageName. destruct (match_html path); [right; eexists; reflexivity|].
  cbv zeta. destruct (_ || _); [left; reflexivity | right; eexists; reflexivity].
Qed.

(** X13: the result of [getPageName] is never empty: it is one of the five
    page identifiers or, when the page name is a member that every object
    inherits (such as [constructor]), the built-in object found under that
    name; a string result is always one of the five. *)
Theorem getPageName_allow_list (path : string) :
  truthy (getPageName path) = true
  /\ (forall s, getPageName path = VStr s ->
        In s ["index"; "services"; "solutions"; "introduction"; "contact"])
  /\ ((exists s, getPageName path = VStr s) \/ (exists h, getPageName path = VHost h)).
Proof.
  assert ((exists s, In s ["index"; "services"; "solutions"; "introduction"; "contact"]
                     /\ getPageName path = VStr s)
          \/ (exists h, getPageName path = VHost h)) as H.
  { destruct (getPageName_mapped path) as [-> | [page ->]].
    - left. exists "index". split; [simpl; tauto | reflexivity].
    - apply mapped_page_cases. }
  destruct H as [(s & Hin & Hs) | (h & Hh)].
  - rewrite Hs. split; [|split].
    + simpl in Hin.
      repeat match goal with H : _ \/ _ |- _ => destruct H as [H|H] end;
        try contradiction; subst; reflexivity.
    + intros s' [= <-]. exact Hin.
    + left. exists s. reflexivity.
  - rewrite Hh. split; [reflexivity|]. split; [discriminate|].
    right. exists h. reflexivity.
Qed.

Lemma sep_lower (c : ascii) : is_sep c = true -> lower_ascii c = c.
Proof. destruct c as [[] [] [] [] [] [] [] []]; try discriminate; reflexivity. Qed.

Lemma starts_with_ci_cut (pat u : string) (c : ascii) (v : string) :
  is_sep c = true -> sep_free pat = true ->
  starts_with_ci pat (u +:+ String c v) = starts_with_ci pat u.
Proof.
  intros Hc. revert u. induction pat as [|p pat IH]; intros u Hfree;
    [destruct u; reflexivity|].
  cbn [sep_free] in Hfree. apply andb_true_iff in Hfree as [Hp Hfree].
  destruct u as [|a r].
  - change ("" +:+ String c v) with (String c v). cbn [starts_with_ci]. rewrite (sep_lower c Hc).
    destruct (Ascii.eqb_spec p c) as [->|_]; [|reflexivity].
    rewrite Hc in Hp. discriminate.
  - change (String a r +:+ String c v) with (String a (r +:+ String c v)).
    cbn [starts_with_ci]. rewrite (IH r Hfree). reflexivity.
Qed.

Lemma group_at_cut (u : string) (c : ascii) (v : string) :
  is_sep c = true -> group_at (u +:+ String c v) = group_at u.
Proof.
  intros Hc. induction u as [|a r IH].
  - change ("" +:+ String c v) with (String c v). cbn [group_at].
    rewrite Hc. reflexivity.
  - change (String a r +:+ String c v) with (String a (r +:+ String c v)).
    cbn [group_at]. rewrite IH, starts_with_ci_cut by (exact Hc || reflexivity).
    reflexivity.
Qed.

Lemma match_html_none (c : ascii) (r : string) :
  match_html (String c r) = None ->
  group_at (String c r) = None /\ match_html r = None.
Proof.
  cbn [match_html]. destruct (group_at (String c r)); [discriminate|].
  intros H. split; [reflexivity | exact H].
Qed.

(** A match, or its absence, before a separator stands whatever follows. *)
Lemma match_html_cut_some (u : string) (c : ascii) (v g : string) :
  is_sep c = true -> match_html u = Some g ->
  match_html (u +:+ String c v) = Some g.
Proof.
  intros Hc. induction u as [|a r IH]; [discriminate|].
  change (String a r +:+ String c v) with (String a (r +:+ String c v)).
  cbn [match_html].
  change (String a (r +:+ String c v)) with (String a r +:+ String c v) at 1.
  rewrite (group_at_cut (String a r) c v Hc).
  destruct (group_at (String a r)); [intros H; exact H | exact IH].
Qed.

Lemma match_html_cut_none (u : string) (c : ascii) (v : string) :
  is_sep c = true -> match_html u = None ->
  match_html (u +:+ String c v) = match_html v.
Proof.
  intros Hc. induction u as [|a r IH]; intros Hu.
  - change ("" +:+ String c v) with (String c v). cbn [match_html group_at].
    rewrite Hc. reflexivity.
  - apply match_html_none in Hu as [Hg Hr].
    change (String a r +:+ String c v) with (String a (r +:+ String c v)).
    cbn [match_html].
    change (String a (r +:+ String c v)) with (String a r +:+ String c v) at 1.
    rewrite (group_at_cut (String a r) c v Hc), Hg. apply IH, Hr.
Qed.

Lemma remove_trailing_slash_added (p : string) :
  remove_trailing_slash (p +:+ "/") = p.
Proof.
  induction p as [|a r IH]; [reflexivity|].
  change (String a r +:+ "/") with (String a (r +:+ "/")).
  cbn [remove_trailing_slash]. rewrite IH.
  destruct r; reflexivity.
Qed.

(** X14: a slash appended to a path that does not end in one does not
    change the page. *)
Theorem getPageName_trailing_slash (path : string) :
  remove_trailing_slash path = path ->
  getPageName (path +:+ "/") = getPageName path.
Proof.
  intros Hp. unfold getPageName.
  destruct (match_html path) as [g|] eqn:Hm.
  - rewrite (match_html_cut_some path "/" "" g eq_refl Hm). reflexivity.
  - rewrite (match_html_cut_none path "/" "" eq_refl Hm). cbn [match_html group_at].
    rewrite remove_trailing_slash_added, Hp. reflexivity.
Qed.

Lemma group_at_length (s g : string) :
  group_at s = Some g -> (6 <= String.length s)%nat.
Proof.
  revert g. induction s as [|a r IH]; intros g; [discriminate|].
  cbn [group_at]. destruct (is_sep a); [discriminate|].
  destruct (group_at r) as [g'|] eqn:Hr.
  - intros _. specialize (IH g' eq_refl). simpl. lia.
  - destruct (starts_with_ci ".html" r) eqn:Hs; [|discriminate]. intros _.
    destruct r as [|? [|? [|? [|? [|? ?]]]]]; simpl in Hs;
      rewrite ?andb_false_r in Hs; try discriminate Hs.
    simpl. lia.
Qed.

Lemma group_at_file (name ext : string) :
  name <> "" -> sep_free name = true -> html_extension ext = true ->
  group_at (name +:+ ext) = Some name.
Proof.
  intros Hne Hfree Hext.
  apply andb_true_iff in Hext as [Hci Hlen]. apply Nat.eqb_eq in Hlen.
  assert (group_at ext = None) as Hnone.
  { destruct (group_at ext) as [g|] eqn:Hg; [|reflexivity].
    apply group_at_length in Hg. lia. }
  induction name as [|a r IH]; [contradiction|].
  cbn [sep_free] in Hfree. apply andb_true_iff in Hfree as [Ha Hr].
  apply negb_true_iff in Ha.
  change (String a r +:+ ext) with (String a (r +:+ ext)).
  cbn [group_at]. rewrite Ha.
  destruct r as [|b r'].
  - change ("" +:+ ext) with ext. rewrite Hnone, Hci. reflexivity.
  - rewrite IH by (discriminate || exact Hr). reflexivity.
Qed.


Lemma getPageName_trailing_slash_witness :
  getPageName "/site/contact/" = getPageName "/site/contact".
Proof.
  apply (getPageName_trailing_slash "/site/contact"). reflexivity.
Defined.


(** ** DOM applicator, further properties *)

Lemma every_element_ext (P Q : attributes -> bool) (n : node) :
  (forall a, P a = Q a) -> every_element P n = every_element Q n.
Proof.
  intros H. induction n as [data|t a cs IH] using node_forall_ind; [reflexivity|].
  cbn [every_element]. rewrite H. f_equal.
  induction IH as [|c cs' Hc _ IHcs]; [reflexivity|].
  cbn [forallb]. rewrite Hc, IHcs. reflexivity.
Qed.

Lemma no_translation_self (self self' : I18N) (a : attributes) :
  currentPage self' = currentPage self ->
  translations self' = translations self ->
  no_translation self' a = no_translation self a.
Proof.
  intros Hp Hr. unfold no_translation, attrAttrs. cbn [forallb].
  rewrite !(translated_self self self' _ a Hp Hr). reflexivity.
Qed.

Lemma container_self (self self' : I18N) (a : attributes) :
  currentPage self' = currentPage self ->
  translations self' = translations self ->
  container self' a = container self a.
Proof.
  intros Hp Hr. unfold container.
  rewrite !(translated_self self self' _ a Hp Hr). reflexivity.
Qed.

Lemma open_path_self (self self' : I18N) (n : node) (p : path) :
  currentPage self' = currentPage self ->
  translations self' = translations self ->
  open_path self' n p = open_path self n p.
Proof.
  intros Hp Hr. revert n. induction p as [|i p IH]; intros n; [reflexivity|].
  destruct n as [data|t a cs]; [reflexivity|]. cbn [open_path].
  rewrite (container_self self self' a Hp Hr).
  destruct (cs !! i); [rewrite IH|]; reflexivity.
Qed.

Lemma clear_path_self (self self' : I18N) (root : node) (p : path) :
  currentPage self' = currentPage self ->
  translations self' = translations self ->
  clear_path self' root p = clear_path self root p.
Proof.
  intros Hp Hr. destruct p as [|i p]; [reflexivity|].
  destruct root as [data|t a cs]; [reflexivity|]. cbn [clear_path].
  destruct (cs !! i); [apply open_path_self; assumption | reflexivity].
Qed.

Section Applied_extra.

Variable print : value -> string.
Variable parseFragment : string -> string -> list node.
Variable self : I18N.
Variable lang : string.

Local Abbreviation applied' := (applied print parseFragment self lang).
Local Abbreviation attributes_applied' := (attributes_applied print self lang).
Local Abbreviation all_attributes' := (all_attributes print self lang).

Lemma no_translation_marker (marker : string) (a : attributes) :
  no_translation self a = true ->
  In marker ("data-i18n" :: "data-i18n-html" :: attrAttrs) ->
  translated self marker a = None.
Proof.
  unfold no_translation. rewrite forallb_forall. intros H Hin.
  specialize (H marker Hin). destruct (translated self marker a); [discriminate | reflexivity].
Qed.

Lemma all_attributes_untranslated (inside : bool) (a : attributes) :
  no_translation self a = true ->
  all_attributes' inside a
  = if switcher_button inside a then switcher_body lang a else a.
Proof.
  intros H.
  assert (forall attr, In attr attrAttrs -> attr_body_ok print self attr a = a) as Hfix.
  { intros attr Hin. unfold attr_body_ok.
    rewrite (no_translation_marker attr a H); [reflexivity|].
    right. right. exact Hin. }
  unfold all_attributes, attrAttrs. cbn [fold_left].
  rewrite !Hfix by (vm_compute; tauto). reflexivity.
Qed.

(** Without a translation for any marker, only the switcher state is
    written. *)
Lemma applied_untranslated (n : node) (inside : bool) :
  every_element (no_translation self) n = true ->
  applied' inside n
  = updated switcher_button inside_switcher (switcher_body lang) inside n.
Proof.
  revert inside. induction n as [data|t a cs IH] using node_forall_ind;
    intros inside H; [reflexivity|].
  cbn [every_element] in H. apply andb_true_iff in H as [Ha Hcs].
  rewrite applied_element. cbn [updated].
  unfold html_body_ok, text_body_ok.
  rewrite (no_translation_marker "data-i18n-html" a Ha) by (vm_compute; tauto).
  rewrite (no_translation_marker "data-i18n" a Ha) by (vm_compute; tauto).
  rewrite all_attributes_untranslated by exact Ha.
  f_equal. apply map_ext_in. intros c Hc.
  rewrite List.Forall_forall in IH. apply IH; [exact Hc|].
  rewrite forallb_forall in Hcs. apply Hcs, Hc.
Qed.

(** Without [data-lang] anywhere, the switcher pass writes nothing. *)
Lemma updated_no_buttons (n : node) (inside : bool) :
  every_element (fun a => negb (hasAttribute "data-lang" a)) n = true ->
  updated switcher_button inside_switcher (switcher_body lang) inside n = n.
Proof.
  revert inside. induction n as [data|t a cs IH] using node_forall_ind;
    intros inside H; [reflexivity|].
  cbn [every_element] in H. apply andb_true_iff in H as [Ha Hcs].
  cbn [updated]. unfold switcher_button at 1.
  apply negb_true_iff in Ha. rewrite Ha, andb_false_r.
  f_equal. rewrite <- (map_id cs) at 2. apply map_ext_in. intros c Hc.
  rewrite List.Forall_forall in IH. apply IH; [exact Hc|].
  rewrite forallb_forall in Hcs. apply Hcs, Hc.
Qed.

Lemma container_bodies (t : string) (a : attributes) :
  container self a = false ->
  html_body_ok print parseFragment self t a = None
  /\ text_body_ok print self t a = None.
Proof.
  unfold container, html_body_ok, text_body_ok. intros H.
  apply orb_false_iff in H as [H1 H2].
  destruct (translated self "data-i18n" a); [discriminate|].
  destruct (translated self "data-i18n-html" a); [discriminate|].
  split; reflexivity.
Qed.

(** An element that is not a container keeps its children, each of them
    treated in turn. *)
Lemma applied_open (inside : bool) (t : string) (a : attributes) (cs : list node) :
  container self a = false ->
  applied' inside (Element t a cs)
  = Element t (all_attributes' inside a) (map (applied' (inside_switcher inside a)) cs).
Proof.
  intros H. rewrite applied_element.
  destruct (container_bodies t a H) as [-> ->]. reflexivity.
Qed.

(** Along an open path the element at [p] is found at [p] afterwards. *)
Lemma get_applied (p : path) (c : node) (inside : bool) :
  open_path self c p = true ->
  get (applied' inside c) p = applied' (context_at inside c p) <$> get c p.
Proof.
  revert c inside. induction p as [|i p IH]; intros c inside H; [reflexivity|].
  destruct c as [data|t a cs]; [discriminate|].
  cbn [open_path] in H. apply andb_true_iff in H as [Ha H].
  apply negb_true_iff in Ha.
  rewrite applied_open by exact Ha.
  cbn [get context_at]. rewrite list_lookup_fmap.
  destruct (cs !! i) as [c'|]; [|discriminate]. cbn [fmap option_fmap option_map].
  apply IH, H.
Qed.

Lemma context_at_applied (p : path) (c : node) (inside : bool) :
  open_path self c p = true ->
  context_at inside (applied' inside c) p = context_at inside c p.
Proof.
  revert c inside. induction p as [|i p IH]; intros c inside H; [reflexivity|].
  destruct c as [data|t a cs]; [discriminate|].
  cbn [open_path] in H. apply andb_true_iff in H as [Ha H].
  apply negb_true_iff in Ha.
  rewrite applied_open by exact Ha.
  cbn [context_at]. rewrite list_lookup_fmap.
  destruct (cs !! i) as [c'|]; [|discriminate]. cbn [fmap option_fmap option_map].
  rewrite (inside_switcher_all print parseFragment). apply IH, H.
Qed.

Lemma get_below_root (root : node) (p : path) (inside : bool) :
  p <> [] ->
  clear_path self root p = true ->
  get (below_root (map (applied' (root_context inside root))) root) p
  = applied' (context_at inside root p) <$> get root p.
Proof.
  intros Hp H. destruct p as [|i p]; [contradiction|].
  destruct root as [data|t a cs]; [discriminate|].
  cbn [clear_path] in H. cbn [below_root get context_at root_context].
  rewrite list_lookup_fmap.
  destruct (cs !! i) as [c|]; [|discriminate]. cbn [fmap option_fmap option_map].
  apply get_applied, H.
Qed.

Lemma context_at_below_root (root : node) (p : path) (inside : bool) :
  clear_path self root p = true ->
  context_at inside (below_root (map (applied' (root_context inside root))) root) p
  = context_at inside root p.
Proof.
  intros H. destruct p as [|i p]; [reflexivity|].
  destruct root as [data|t a cs]; [discriminate|].
  cbn [clear_path] in H. cbn [below_root context_at root_context].
  rewrite list_lookup_fmap.
  destruct (cs !! i) as [c|]; [|discriminate]. cbn [fmap option_fmap option_map].
  apply context_at_applied, H.
Qed.

(** *** Switcher state *)

Lemma toggle_contains (force : bool) (a : attributes) :
  contains (classList (classList_toggle "active" force a)) "active" = force.
Proof.
  unfold classList_toggle.
  destruct (contains (classList a) "active") eqn:Hc, force.
  - exact Hc.
  - rewrite contains_classList_set by apply toggle_tokens_removed.
    apply not_true_is_false. intros E.
    apply contains_spec, filter_In in E as [_ E].
    rewrite String.eqb_refl in E. discriminate.
  - rewrite contains_classList_set by (apply toggle_tokens_added; reflexivity).
    apply contains_spec, in_or_app. right. left. reflexivity.
  - exact Hc.
Qed.

Lemma data_lang_toggle (force : bool) (a : attributes) :
  data_lang_is lang (classList_toggle "active" force a) = data_lang_is lang a.
Proof.
  unfold data_lang_is. rewrite toggle_other by discriminate. reflexivity.
Qed.

Lemma all_attributes_consistent (inside : bool) (a : attributes) :
  (if switcher_button inside (all_attributes' inside a)
   then Bool.eqb (contains (classList (all_attributes' inside a)) "active")
          (data_lang_is lang (all_attributes' inside a))
   else true) = true.
Proof.
  unfold all_attributes. cbv zeta.
  set (a' := fold_left _ attrAttrs a).
  destruct (switcher_button inside a') eqn:Hb; [|rewrite Hb; reflexivity].
  unfold switcher_body. rewrite switcher_button_toggle, Hb.
  rewrite toggle_contains, data_lang_toggle.
  apply Bool.eqb_reflx.
Qed.

Lemma attributes_applied_consistent (n : node) (inside : bool) :
  buttons_consistent lang inside (attributes_applied' inside n) = true.
Proof.
  revert inside. induction n as [data|t a cs IH] using node_forall_ind;
    intros inside; [reflexivity|].
  rewrite (attributes_applied_element print parseFragment). cbn [buttons_consistent].
  rewrite all_attributes_consistent, (inside_switcher_all print parseFragment). cbn [andb].
  rewrite forallb_forall. intros c Hc. apply in_map_iff in Hc as (c0 & <- & Hc0).
  rewrite List.Forall_forall in IH. apply IH, Hc0.
Qed.

Lemma applied_consistent (n : node) (inside : bool) :
  buttons_consistent lang inside (applied' inside n) = true.
Proof.
  revert inside. induction n as [data|t a cs IH] using node_forall_ind;
    intros inside; [reflexivity|].
  rewrite applied_element. cbn [buttons_consistent].
  rewrite all_attributes_consistent, (inside_switcher_all print parseFragment). cbn [andb].
  rewrite forallb_forall. intros c Hc.
  destruct (html_body_ok print parseFragment self t a) as [fragment|].
  { apply in_map_iff in Hc as (c0 & <- & _). apply attributes_applied_consistent. }
  destruct (text_body_ok print self t a) as [text|] eqn:Ht.
  { unfold text_body_ok in Ht. destruct (translated self "data-i18n" a); [|discriminate].
    injection Ht as <-. unfold textContent_children in Hc.
    destruct (String.eqb _ ""); [contradiction|].
    destruct Hc as [<-|[]]. reflexivity. }
  apply in_map_iff in Hc as (c0 & <- & Hc0).
  rewrite List.Forall_forall in IH. apply IH, Hc0.
Qed.

End Applied_extra.

Lemma applyTranslations_root (print : value -> string)
    (parseFragment : string -> string -> list node)
    (inside : bool) (st : state) (root : node) :
  applyTranslations_ok print parseFragment inside st root
  = (snd (getCurrentLang st),
     below_root
       (map (applied print parseFragment (engine (snd (getCurrentLang st)))
               (fst (getCurrentLang st)) (root_context inside root)))
       root).
Proof. apply applyTranslations_applied. Qed.


Lemma applyTranslations_ok_untranslated (print : value -> string)
    (parseFragment : string -> string -> list node)
    (inside : bool) (st : state) (root : node) :
  forallb (every_element (no_translation (engine st))) (childNodes root) = true ->
  snd (applyTranslations_ok print parseFragment inside st root)
  = below_root
      (map (updated switcher_button inside_switcher
              (switcher_body (fst (getCurrentLang st))) (root_context inside root)))
      root
  /\ (forallb (every_element (fun a => negb (hasAttribute "data-lang" a)))
        (childNodes root) = true ->
      snd (applyTranslations_ok print parseFragment inside st root) = root).
Proof.
  intros H. rewrite applyTranslations_root. cbn [snd].
  destruct root as [data|t a cs]; [split; reflexivity|].
  cbn [childNodes] in *. cbn [below_root root_context].
  destruct (getCurrentLang_engine st) as (Hp & Hr & _).
  assert (map (applied print parseFragment (engine (snd (getCurrentLang st)))
                 (fst (getCurrentLang st)) (inside_switcher inside a)) cs
          = map (updated switcher_button inside_switcher
                   (switcher_body (fst (getCurrentLang st)))
                   (inside_switcher inside a)) cs) as ->.
  { apply map_ext_in. intros c Hc. apply applied_untranslated.
    rewrite forallb_forall in H.
    rewrite <- (H c Hc). apply every_element_ext. intros b.
    apply no_translation_self; assumption. }
  split; [reflexivity|]. intros Hb. f_equal.
  rewrite <- (map_id cs) at 2. apply map_ext_in. intros c Hc.
  apply updated_no_buttons. rewrite forallb_forall in Hb. apply Hb, Hc.
Qed.

Lemma applyTranslations_ok_content (print : value -> string)
    (parseFragment : string -> string -> list node)
    (inside : bool) (st : state) (root : node) (p : path)
    (tag : string) (a : attributes) (cs : list node) (v : value) :
  p <> [] ->
  clear_path (engine st) root p = true ->
  get root p = Some (Element tag a cs) ->
  (translated (engine st) "data-i18n-html" a = Some v ->
   exists a',
     get (snd (applyTranslations_ok print parseFragment inside st root)) p
     = Some (Element tag a'
               (map (attributes_applied print (engine (snd (getCurrentLang st)))
                       (fst (getCurrentLang st))
                       (inside_switcher (context_at inside root p) a))
                  (parseFragment tag (print v)))))
  /\ (translated (engine st) "data-i18n-html" a = None ->
      translated (engine st) "data-i18n" a = Some v ->
      exists a',
        get (snd (applyTranslations_ok print parseFragment inside st root)) p
        = Some (Element tag a' (textContent_children (print v)))).
Proof.
  intros Hne Hclear Hget. rewrite applyTranslations_root. cbn [snd].
  destruct (getCurrentLang_engine st) as (Hp & Hr & _).
  rewrite get_below_root; [|exact Hne|].
  2:{ rewrite (clear_path_self (engine st)); assumption. }
  rewrite Hget. cbn [fmap option_fmap option_map]. rewrite applied_element.
  unfold html_body_ok, text_body_ok.
  rewrite !(translated_self (engine st) _ _ a Hp Hr).
  split.
  - intros ->. eexists. reflexivity.
  - intros -> ->. eexists. reflexivity.
Qed.

Lemma applyTranslations_ok_switcher_state (print : value -> string)
    (parseFragment : string -> string -> list node)
    (inside : bool) (st : state) (root : node) :
  forallb (buttons_consistent (fst (getCurrentLang st)) (root_context inside root))
    (childNodes (snd (applyTranslations_ok print parseFragment inside st root)))
  = true.
Proof.
  rewrite applyTranslations_root. cbn [snd].
  destruct root as [data|t a cs]; [reflexivity|].
  cbn [below_root childNodes root_context].
  rewrite forallb_forall. intros c Hc.
  apply in_map_iff in Hc as (c0 & <- & _). apply applied_consistent.
Qed.

(** When no conversion throws: after the whole document was translated, the
    element at [p] is such that translating it again leaves it as it is. *)
Lemma applyTranslations_ok_scoped (print : value -> string)
    (parseFragment : string -> string -> list node)
    (st : state) (doc : node) (p : path)
    (tag : string) (a : attributes) (cs : list node) :
  clear_path (engine st) doc p = true ->
  get doc p = Some (Element tag a cs) ->
  container (engine st) a = false ->
  exists el,
    get (snd (applyTranslations_ok print parseFragment false st doc)) p = Some el
    /\ applyTranslations_ok print parseFragment
         (context_at false (snd (applyTranslations_ok print parseFragment false st doc)) p)
         (fst (applyTranslations_ok print parseFragment false st doc)) el
       = (fst (applyTranslations_ok print parseFragment false st doc), el).
Proof.
  intros Hclear Hget Hc. rewrite applyTranslations_root. cbn [fst snd].
  destruct (getCurrentLang_engine st) as (Hp & Hr & _).
  set (st1 := snd (getCurrentLang st)) in *.
  set (lang := fst (getCurrentLang st)).
  set (self := engine st1) in *.
  assert (getCurrentLang st1 = (lang, st1)) as Hcached by apply getCurrentLang_cached.
  assert (clear_path self doc p = true) as Hclear'.
  { rewrite (clear_path_self (engine st)); assumption. }
  assert (container self a = false) as Hc'.
  { rewrite (container_self (engine st)); assumption. }
  destruct (decide (p = [])) as [->|Hne].
  - eexists. split; [reflexivity|].
    cbn [context_at]. rewrite applyTranslations_root.
    rewrite Hcached. cbn [fst snd]. f_equal.
    cbn [get] in Hget. injection Hget as ->. cbn [below_root].
    f_equal. rewrite map_map. apply map_ext. intros c.
    apply applied_idempotent.
  - rewrite context_at_below_root by exact Hclear'.
    rewrite (get_below_root _ _ self lang doc p false Hne Hclear').
    rewrite Hget. cbn [fmap option_fmap option_map].
    rewrite applied_open by exact Hc'.
    eexists. split; [reflexivity|].
    rewrite applyTranslations_root. rewrite Hcached. cbn [fst snd below_root root_context].
    rewrite (inside_switcher_all print parseFragment).
    rewrite map_map.
    rewrite (map_ext _ _ (fun c => applied_idempotent print parseFragment self lang c _)).
    reflexivity.
Qed.


(** *** Every write keeps the elements outside replaced content *)

Lemma alter_insert (f : node -> node) (i : nat) (cs : list node) (c : node) :
  cs !! i = Some c -> alter f i cs = <[i := f c]> cs.
Proof.
  intros Hc. apply list_eq. intros j. destruct (decide (j = i)) as [->|Hne].
  - rewrite list_lookup_alter_eq, Hc.
    rewrite list_lookup_insert_eq by (apply lookup_lt_Some in Hc; exact Hc).
    reflexivity.
  - rewrite list_lookup_alter_ne, list_lookup_insert_ne by congruence. reflexivity.
Qed.

Lemma write_at (self : I18N) (p : path) (tree m m' : node) :
  get tree p = Some m -> write self [] m m' ->
  write self p tree (update p (fun _ => m') tree).
Proof.
  intros Hget Hw. revert tree Hget. induction p as [|i p IH]; intros tree Hget.
  - injection Hget as ->. exact Hw.
  - destruct tree as [data|t a cs]; [discriminate|].
    cbn [get] in Hget. cbn [update].
    destruct (cs !! i) as [c|] eqn:Hc; [|discriminate].
    rewrite (alter_insert _ i cs c Hc).
    apply (write_child self t a cs i p c _ Hc). apply IH, Hget.
Qed.

Lemma same_kept_container (self : I18N) (a b : attributes) :
  same_kept a b -> container self a = container self b.
Proof.
  intros H. unfold container.
  assert (forall marker, kept marker -> translated self marker a = translated self marker b)
    as Ht.
  { intros marker Hk. apply translated_ext; apply H; [exact Hk|].
    intros Hin. vm_compute in Hin. intuition discriminate. }
  rewrite !Ht; [reflexivity| |]; intros Hin; vm_compute in Hin; intuition discriminate.
Qed.

Lemma same_spine_write (self : I18N) (q : path) (n n' : node) :
  write self q n n' ->
  forall p n0, same_spine self p n0 n -> same_spine self p n0 n'.
Proof.
  induction 1 as [t a cs cs' Hc | t a a' cs Hk | t a cs i q c c' Hi Hw IH];
    intros p n0 Hs; destruct n0 as [data|t0 a0 cs0]; try (destruct p; contradiction).
  - destruct p as [|j p]; cbn [same_spine] in Hs |- *.
    + destruct Hs as (Ht & Hk & _). split; [exact Ht|]. split; [exact Hk|].
      intros H0. rewrite (same_kept_container self a a0 Hk), H0 in Hc. discriminate.
    + destruct Hs as (_ & Hk & H0 & _).
      rewrite (same_kept_container self a a0 Hk), H0 in Hc. discriminate.
  - destruct p as [|j p]; cbn [same_spine] in Hs |- *.
    + destruct Hs as (Ht & Hk0 & Hlen). split; [exact Ht|]. split; [|exact Hlen].
      intros name Hn. rewrite (Hk name Hn). apply Hk0, Hn.
    + destruct Hs as (Ht & Hk0 & Hrest). split; [exact Ht|]. split; [|exact Hrest].
      intros name Hn. rewrite (Hk name Hn). apply Hk0, Hn.
  - destruct p as [|j p]; cbn [same_spine] in Hs |- *.
    + destruct Hs as (Ht & Hk & Hlen). split; [exact Ht|]. split; [exact Hk|].
      rewrite length_insert. exact Hlen.
    + destruct Hs as (Ht & Hk & H0 & Hrest). split; [exact Ht|]. split; [exact Hk|].
      split; [exact H0|].
      destruct (cs0 !! j) as [c0|]; [|contradiction].
      destruct (decide (j = i)) as [->|Hne].
      * rewrite Hi in Hrest.
        rewrite list_lookup_insert_eq by (apply lookup_lt_Some in Hi; exact Hi).
        apply IH, Hrest.
      * rewrite list_lookup_insert_ne by congruence. exact Hrest.
Qed.

Lemma same_kept_refl (a : attributes) : same_kept a a.
Proof. intros name _. reflexivity. Qed.

Lemma same_spine_refl (self : I18N) (p : path) (c : node)
      (tag : string) (a : attributes) (cs : list node) :
  open_path self c p = true -> get c p = Some (Element tag a cs) ->
  same_spine self p c c.
Proof.
  revert c. induction p as [|i p IH]; intros c Hopen Hget.
  - injection Hget as ->. cbn [same_spine].
    split; [reflexivity|]. split; [apply same_kept_refl | reflexivity].
  - destruct c as [data|t0 a0 cs0]; [discriminate|].
    cbn [open_path] in Hopen. apply andb_true_iff in Hopen as [Hc Hopen].
    apply negb_true_iff in Hc. cbn [get] in Hget. cbn [same_spine].
    split; [reflexivity|]. split; [apply same_kept_refl|]. split; [exact Hc|].
    destruct (cs0 !! i) as [c0|]; [|discriminate]. apply IH; assumption.
Qed.

Lemma same_spine_get (self : I18N) (p : path) (c0 c : node)
      (tag : string) (a : attributes) (cs : list node) :
  same_spine self p c0 c -> get c0 p = Some (Element tag a cs) ->
  exists a' cs',
    get c p = Some (Element tag a' cs')
    /\ same_kept a' a
    /\ (container self a = false -> length cs' = length cs).
Proof.
  revert c0 c. induction p as [|i p IH]; intros c0 c Hs Hget.
  - injection Hget as ->. destruct c as [data|t1 a1 cs1]; [contradiction|].
    cbn [same_spine] in Hs. destruct Hs as (-> & Hk & Hlen).
    exists a1, cs1. split; [reflexivity|]. split; assumption.
  - destruct c0 as [data|t0 a0 cs0]; [discriminate|].
    destruct c as [data|t1 a1 cs1]; [contradiction|].
    cbn [same_spine] in Hs. destruct Hs as (_ & _ & _ & Hrest).
    cbn [get] in Hget |- *.
    destruct (cs0 !! i) as [d0|]; [|discriminate].
    destruct (cs1 !! i) as [d1|]; [|contradiction].
    apply (IH d0 d1 Hrest Hget).
Qed.

(** The same for the root, whose own markers are not looked at and which is
    never written itself. *)
Lemma same_root_write (self : I18N) (q : path) (root root' : node)
      (t : string) (a : attributes) (cs0 : list node) (p : path) :
  q <> [] -> write self q root root' ->
  (exists cs, root = Element t a cs
     /\ match p with
        | [] => length cs = length cs0
        | i :: p' =>
            match cs0 !! i, cs !! i with
            | Some c0, Some c => same_spine self p' c0 c
            | _, _ => False
            end
        end) ->
  (exists cs, root' = Element t a cs
     /\ match p with
        | [] => length cs = length cs0
        | i :: p' =>
            match cs0 !! i, cs !! i with
            | Some c0, Some c => same_spine self p' c0 c
            | _, _ => False
            end
        end).
Proof.
  intros Hq Hw (cs & -> & Hs).
  inversion Hw as [| | t1 a1 cs1 j q' c c' Hj Hw' Hq' Hn Hn']; subst; try contradiction.
  eexists. split; [reflexivity|].
  destruct p as [|i p'].
  - rewrite length_insert. exact Hs.
  - destruct (cs0 !! i) as [c0|]; [|contradiction].
    destruct (decide (i = j)) as [->|Hne].
    + rewrite Hj in Hs.
      rewrite list_lookup_insert_eq by (apply lookup_lt_Some in Hj; exact Hj).
      apply (same_spine_write self q' c c' Hw'), Hs.
    + rewrite list_lookup_insert_ne by congruence. exact Hs.
Qed.

Lemma querySelectorAll_below {C} (sel : C -> attributes -> bool)
      (next : C -> attributes -> C) (c : C) (root : node) (p : path) :
  In p (querySelectorAll sel next c root) -> p <> [].
Proof.
  intros Hin ->. destruct root as [data|t a cs]; [contradiction|].
  cbn [querySelectorAll] in Hin.
  pose proof (indexed_below_root 0 (map (matching sel next (next c a)) cs)) as H.
  rewrite List.Forall_forall in H. specialize (H [] Hin). discriminate.
Qed.

Lemma fold_left_invariant {A S} (I : S -> Prop) (step : S -> A -> S)
      (items : list A) (s : S) :
  (forall s x, In x items -> I s -> I (step s x)) ->
  I s -> I (fold_left step items s).
Proof.
  revert s. induction items as [|x rest IH]; intros s Hstep Hs; [exact Hs|].
  cbn [fold_left]. apply IH.
  - intros s1 y Hy. apply Hstep. right. exact Hy.
  - apply Hstep; [left; reflexivity | exact Hs].
Qed.

Section Writes.

Variable ToString : value -> option string.
Variable parseFragment : string -> string -> list node.
Variable self : I18N.

(** A property of a tree that no write below the root changes. *)
Variable I : node -> Prop.
Hypothesis I_write :
  forall q tree tree', q <> [] -> write self q tree tree' -> I tree -> I tree'.

Lemma text_body_container (t : string) (a : attributes) (cs' : list node) :
  text_body ToString self t a = Write cs' -> container self a = true.
Proof.
  unfold text_body, container.
  destruct (translated self "data-i18n" a); [reflexivity | discriminate].
Qed.

Lemma html_body_container (t : string) (a : attributes) (cs' : list node) :
  html_body ToString parseFragment self t a = Write cs' -> container self a = true.
Proof.
  unfold html_body, container.
  destruct (translated self "data-i18n-html" a); [|discriminate].
  intros _. apply orb_true_r.
Qed.

Lemma attr_body_kept (attr : string) (a a' : attributes) :
  In attr attrAttrs -> attr_body ToString self attr a = Write a' -> same_kept a' a.
Proof.
  intros Hin. unfold attr_body.
  destruct (translated self attr a) as [v|]; [|discriminate].
  destruct (ToString v) as [s|]; [|discriminate].
  intros [= <-] name Hk. apply getAttribute_setAttribute_other.
  intros ->. apply Hk. right.
  vm_compute in Hin.
  repeat match goal with H : _ \/ _ |- _ => destruct H as [H|H] end;
    try contradiction; subst; vm_compute; tauto.
Qed.

Lemma switcher_body_kept (lang : string) (a : attributes) :
  same_kept (switcher_body lang a) a.
Proof.
  intros name Hk. unfold switcher_body. apply toggle_other.
  intros ->. apply Hk. left. reflexivity.
Qed.

Lemma forEach_replacing_keeps (body : string -> attributes -> action (list node))
      (snapshot : list path) (tree : node) :
  (forall t a cs', body t a = Write cs' -> container self a = true) ->
  (forall p, In p snapshot -> p <> []) ->
  I tree -> I (snd (forEach_replacing snapshot body tree)).
Proof.
  intros Hbody Hne Htree. unfold forEach_replacing. cbn [snd].
  apply (forEach_invariant (fun s => I (fst s))); [|exact Htree].
  intros [cur det] p Hp Hcur. cbn [fst] in Hcur. unfold write_children.
  destruct (existsb (fun d => below d p) det).
  - destruct (get tree p) as [[data|t a cs]|]; try exact Hcur.
    destruct (body t a); exact Hcur.
  - destruct (get cur p) as [[data|t a cs]|] eqn:Hget; try exact Hcur.
    destruct (body t a) as [|cs'|e] eqn:Hb; try exact Hcur.
    cbn [snd fst]. apply (I_write p cur); [apply Hne, Hp| |exact Hcur].
    apply (write_at self p cur _ _ Hget). apply write_content.
    apply (Hbody t a cs' Hb).
Qed.

Lemma forEach_updating_keeps (body : attributes -> action attributes)
      (snapshot : list path) (tree : node) :
  (forall a a', body a = Write a' -> same_kept a' a) ->
  (forall p, In p snapshot -> p <> []) ->
  I tree -> I (snd (forEach_updating snapshot body tree)).
Proof.
  intros Hbody Hne Htree. unfold forEach_updating.
  apply forEach_invariant; [|exact Htree].
  intros cur p Hp Hcur. unfold write_attributes.
  destruct (get cur p) as [[data|t a cs]|] eqn:Hget; try exact Hcur.
  destruct (body a) as [|a'|e] eqn:Hb; try exact Hcur.
  cbn [snd]. apply (I_write p cur); [apply Hne, Hp| |exact Hcur].
  apply (write_at self p cur _ _ Hget). apply write_attrs.
  apply (Hbody a a' Hb).
Qed.

Lemma forEach_switcher_keeps (snapshot : list path) (st : state) (tree : node) :
  (forall p, In p snapshot -> p <> []) ->
  I tree -> I (snd (forEach_switcher snapshot st tree)).
Proof.
  intros Hne Htree. unfold forEach_switcher.
  apply (fold_left_invariant (fun s => I (snd s))); [|exact Htree].
  intros [st1 cur] p Hp Hcur. cbn [snd] in Hcur.
  destruct (getCurrentLang st1) as [lang st2]. cbn [snd].
  destruct (get cur p) as [[data|t a cs]|] eqn:Hget.
  - rewrite (update_same p _ cur (Text data) Hget); [exact Hcur | reflexivity].
  - rewrite (update_ext_at p _ (fun _ => Element t (switcher_body lang a) cs) cur _ Hget)
      by reflexivity.
    apply (I_write p cur); [apply Hne, Hp| |exact Hcur].
    apply (write_at self p cur _ _ Hget). apply write_attrs, switcher_body_kept.
  - rewrite (update_nowhere p _ cur Hget). exact Hcur.
Qed.

End Writes.

(** Whatever [applyTranslations] did when it ended, by return or by
    exception, was done by writes below the root. *)
Lemma applyTranslations_keeps (ToString : value -> option string)
      (parseFragment : string -> string -> list node)
      (I : node -> Prop) (inside : bool) (st : state) (root : node) :
  (forall q tree tree',
      q <> [] -> write (engine (snd (getCurrentLang st))) q tree tree' ->
      I tree -> I tree') ->
  I root ->
  I (snd (snd (applyTranslations ToString parseFragment inside st root))).
Proof.
  intros HI Hroot. unfold applyTranslations. cbv zeta.
  set (st1 := snd (getCurrentLang st)) in *. set (self := engine st1) in *.
  assert (I (snd (and_then
    (and_then
       (forEach_replacing
          (querySelectorAll (by_attribute "data-i18n") no_context tt root)
          (text_body ToString self) root)
       (fun root0 =>
          forEach_replacing
            (querySelectorAll (by_attribute "data-i18n-html") no_context tt root0)
            (html_body ToString parseFragment self) root0))
    (forEach
       (fun root0 attr =>
          forEach_updating
            (querySelectorAll (by_attribute attr) no_context tt root0)
            (attr_body ToString self attr) root0)
       attrAttrs)))) as Hrun.
  { pose proof (forEach_replacing_keeps self I HI
                  (text_body ToString self)
                  (querySelectorAll (by_attribute "data-i18n") no_context tt root) root
                  (text_body_container ToString self)
                  (fun p => querySelectorAll_below _ _ _ _ p) Hroot) as H1.
    destruct (forEach_replacing _ (text_body ToString self) root) as [[|e] root1];
      cbn [and_then snd] in *; [|exact H1].
    pose proof (forEach_replacing_keeps self I HI
                  (html_body ToString parseFragment self)
                  (querySelectorAll (by_attribute "data-i18n-html") no_context tt root1)
                  root1
                  (html_body_container ToString parseFragment self)
                  (fun p => querySelectorAll_below _ _ _ _ p) H1) as H2.
    destruct (forEach_replacing _ (html_body ToString parseFragment self) root1)
      as [[|e] root2]; cbn [and_then snd] in *; [|exact H2].
    apply forEach_invariant; [|exact H2].
    intros cur attr Hattr Hcur.
    apply (forEach_updating_keeps self I HI); [| |exact Hcur].
    - intros b b'. apply (attr_body_kept ToString parseFragment self attr b b' Hattr).
    - intros p. apply querySelectorAll_below. }
  destruct (and_then _ _) as [[|e] root3]; cbn [snd] in *; [|exact Hrun].
  apply (forEach_switcher_keeps self I HI); [|exact Hrun].
  intros p. apply querySelectorAll_below.
Qed.

(** *** A call in which nothing is translated *)

Lemma forEach_fixed {A S} (body : S -> A -> completion * S) (items : list A) (s : S) :
  (forall x, In x items -> body s x = (Normal, s)) ->
  forEach body items s = (Normal, s).
Proof.
  induction items as [|x rest IH]; intros H; [reflexivity|].
  cbn [forEach]. rewrite (H x (or_introl eq_refl)). cbn [and_then].
  apply IH. intros y Hy. apply H. right. exact Hy.
Qed.

Lemma get_every_element (P : attributes -> bool) (p : path) (n : node)
      (t : string) (a : attributes) (cs : list node) :
  every_element P n = true -> get n p = Some (Element t a cs) -> P a = true.
Proof.
  revert n. induction p as [|i p IH]; intros n Hall Hget.
  - injection Hget as ->. cbn [every_element] in Hall.
    apply andb_true_iff in Hall as [H _]. exact H.
  - destruct n as [data|t0 a0 cs0]; [discriminate|].
    cbn [every_element] in Hall. apply andb_true_iff in Hall as [_ Hall].
    cbn [get] in Hget. destruct (cs0 !! i) as [c|] eqn:Hc; [|discriminate].
    apply (IH c); [|exact Hget].
    rewrite forallb_forall in Hall. apply Hall.
    apply list_elem_of_In. apply (list_elem_of_lookup_2 _ _ _ Hc).
Qed.

Lemma get_below_every (P : attributes -> bool) (p : path) (root : node)
      (t : string) (a : attributes) (cs : list node) :
  forallb (every_element P) (childNodes root) = true -> p <> [] ->
  get root p = Some (Element t a cs) -> P a = true.
Proof.
  intros Hall Hne Hget. destruct p as [|i p]; [contradiction|].
  destruct root as [data|t0 a0 cs0]; [discriminate|].
  cbn [childNodes] in Hall. cbn [get] in Hget.
  destruct (cs0 !! i) as [c|] eqn:Hc; [|discriminate].
  apply (get_every_element P p c t a cs); [|exact Hget].
  rewrite forallb_forall in Hall. apply Hall.
  apply list_elem_of_In. apply (list_elem_of_lookup_2 _ _ _ Hc).
Qed.

Section Untranslated.

Variable ToString : value -> option string.
Variable parseFragment : string -> string -> list node.
Variable self : I18N.
Variable root : node.
Hypothesis untranslated :
  forallb (every_element (no_translation self)) (childNodes root) = true.

Lemma untranslated_at (marker : string) (p : path)
      (t : string) (a : attributes) (cs : list node) :
  In marker ("data-i18n" :: "data-i18n-html" :: attrAttrs) ->
  p <> [] -> get root p = Some (Element t a cs) ->
  translated self marker a = None.
Proof.
  intros Hm Hne Hget. apply no_translation_marker; [|exact Hm].
  apply (get_below_every _ p root t a cs untranslated Hne Hget).
Qed.

Lemma forEach_replacing_untranslated (marker : string)
      (body : string -> attributes -> action (list node)) (snapshot : list path) :
  In marker ("data-i18n" :: "data-i18n-html" :: attrAttrs) ->
  (forall t a, translated self marker a = None -> body t a = Nothing) ->
  (forall p, In p snapshot -> p <> []) ->
  forEach_replacing snapshot body root = (Normal, root).
Proof.
  intros Hm Hbody Hne. unfold forEach_replacing.
  rewrite (forEach_fixed _ snapshot (root, [])); [reflexivity|].
  intros p Hp. unfold write_children. cbn [existsb].
  destruct (get root p) as [[data|t a cs]|] eqn:Hget; try reflexivity.
  rewrite Hbody; [reflexivity|].
  apply (untranslated_at marker p t a cs Hm (Hne p Hp) Hget).
Qed.

Lemma forEach_updating_untranslated (attr : string) (snapshot : list path) :
  In attr attrAttrs ->
  (forall p, In p snapshot -> p <> []) ->
  forEach_updating snapshot (attr_body ToString self attr) root = (Normal, root).
Proof.
  intros Hm Hne. unfold forEach_updating. apply forEach_fixed.
  intros p Hp. unfold write_attributes.
  destruct (get root p) as [[data|t a cs]|] eqn:Hget; try reflexivity.
  unfold attr_body.
  rewrite (untranslated_at attr p t a cs); [reflexivity| |apply Hne, Hp|exact Hget].
  right. right. exact Hm.
Qed.

Lemma loops_untranslated :
  and_then
    (and_then
       (forEach_replacing
          (querySelectorAll (by_attribute "data-i18n") no_context tt root)
          (text_body ToString self) root)
       (fun root0 =>
          forEach_replacing
            (querySelectorAll (by_attribute "data-i18n-html") no_context tt root0)
            (html_body ToString parseFragment self) root0))
    (forEach
       (fun root0 attr =>
          forEach_updating
            (querySelectorAll (by_attribute attr) no_context tt root0)
            (attr_body ToString self attr) root0)
       attrAttrs)
  = (Normal, root).
Proof.
  rewrite (forEach_replacing_untranslated "data-i18n");
    [|left; reflexivity
     |intros t a H; unfold text_body; rewrite H; reflexivity
     |intros p; apply querySelectorAll_below].
  cbn [and_then].
  rewrite (forEach_replacing_untranslated "data-i18n-html");
    [|right; left; reflexivity
     |intros t a H; unfold html_body; rewrite H; reflexivity
     |intros p; apply querySelectorAll_below].
  cbn [and_then]. unfold attrAttrs. cbn [forEach].
  rewrite (forEach_updating_untranslated "data-i18n-attr");
    [|vm_compute; tauto | intros p; apply querySelectorAll_below].
  cbn [and_then].
  rewrite (forEach_updating_untranslated "data-i18n-placeholder");
    [|vm_compute; tauto | intros p; apply querySelectorAll_below].
  cbn [and_then].
  rewrite (forEach_updating_untranslated "data-i18n-title");
    [|vm_compute; tauto | intros p; apply querySelectorAll_below].
  cbn [and_then].
  rewrite (forEach_updating_untranslated "data-i18n-alt");
    [|vm_compute; tauto | intros p; apply querySelectorAll_below].
  reflexivity.
Qed.

End Untranslated.




(** X18: however [applyTranslations] ends, an element that is not inside an
    element whose content is replaced is found at the same position
    afterwards, with the same tag and with every attribute other than
    [class], [attr], [placeholder], [title] and [alt] as it was; when its
    own content is not replaced either, it has as many children as
    before. *)
Theorem applyTranslations_keeps_element (ToString : value -> option string)
    (parseFragment : string -> string -> list node)
    (inside : bool) (st : state) (root : node) (p : path)
    (tag : string) (a : attributes) (cs : list node) :
  clear_path (engine st) root p = true ->
  get root p = Some (Element tag a cs) ->
  exists a' cs',
    get (snd (snd (applyTranslations ToString parseFragment inside st root))) p
    = Some (Element tag a' cs')
    /\ (forall name, kept name -> getAttribute a' name = getAttribute a name)
    /\ (container (engine st) a = false -> length cs' = length cs).
Proof.
  intros Hclear Hget.
  destruct (getCurrentLang_engine st) as (Hp & Hr & _).
  set (self := engine (snd (getCurrentLang st))).
  assert (clear_path self root p = true) as Hclear'.
  { unfold self. rewrite (clear_path_self (engine st)); assumption. }
  destruct root as [data|t0 a0 cs0]; [destruct p; discriminate|].
  pose proof (applyTranslations_keeps ToString parseFragment
    (fun tree =>
       exists cs1, tree = Element t0 a0 cs1
         /\ match p with
            | [] => length cs1 = length cs0
            | i :: p' =>
                match cs0 !! i, cs1 !! i with
                | Some c0, Some c => same_spine self p' c0 c
                | _, _ => False
                end
            end)
    inside st (Element t0 a0 cs0)) as Hkeep.
  cbv beta in Hkeep.
  destruct Hkeep as (cs1 & Hres & Hs).
  - intros q tree tree' Hq Hw. apply (same_root_write self q tree tree' t0 a0 cs0 p Hq Hw).
  - exists cs0. split; [reflexivity|].
    destruct p as [|i p']; [reflexivity|].
    cbn [clear_path] in Hclear'. cbn [get] in Hget.
    destruct (cs0 !! i) as [c0|]; [|discriminate].
    apply (same_spine_refl self p' c0 tag a cs Hclear' Hget).
  - rewrite Hres. destruct p as [|i p'].
    + cbn [get] in Hget |- *. injection Hget as -> -> ->.
      exists a, cs1. split; [reflexivity|]. split; [reflexivity|]. intros _. exact Hs.
    + cbn [get] in Hget |- *.
      destruct (cs0 !! i) as [c0|]; [|discriminate].
      destruct (cs1 !! i) as [c1|]; [|contradiction].
      destruct (same_spine_get self p' c0 c1 tag a cs Hs Hget) as (a' & cs' & H1 & H2 & H3).
      exists a', cs'. split; [exact H1|]. split; [exact H2|].
      intros Hc. apply H3. unfold self.
      rewrite (container_self (engine st)); assumption.
Qed.

(** X19: the content of a translated element after a call that ended
    normally.  For an element below the root that is not inside an element
    whose content is replaced: with a translated [data-i18n-html] marker its
    children are the parsed markup of the value's string, in which the
    attribute markers and the switcher buttons were treated and the text and
    markup markers were not, whether or not it has a [data-i18n] marker as
    well; with a translated [data-i18n] marker only, its content is the
    value's string as one text node, or nothing when that string is
    empty. *)
Theorem applyTranslations_content (ToString : value -> option string)
    (parseFragment : string -> string -> list node)
    (inside : bool) (st : state) (root : node) (p : path)
    (tag : string) (a : attributes) (cs : list node) (v : value) (s : string) :
  fst (applyTranslations ToString parseFragment inside st root) = Normal ->
  ToString v = Some s ->
  p <> [] ->
  clear_path (engine st) root p = true ->
  get root p = Some (Element tag a cs) ->
  (translated (engine st) "data-i18n-html" a = Some v ->
   exists a',
     get (snd (snd (applyTranslations ToString parseFragment inside st root))) p
     = Some (Element tag a'
               (map (attributes_applied (converted ToString)
                       (engine (snd (getCurrentLang st)))
                       (fst (getCurrentLang st))
                       (inside_switcher (context_at inside root p) a))
                  (parseFragment tag s))))
  /\ (translated (engine st) "data-i18n-html" a = None ->
      translated (engine st) "data-i18n" a = Some v ->
      exists a',
        get (snd (snd (applyTranslations ToString parseFragment inside st root))) p
        = Some (Element tag a' (textContent_children s))).
Proof.
  intros Hnormal Hv Hne Hclear Hget.
  destruct (applyTranslations ToString parseFragment inside st root) as [c r] eqn:Hrun.
  cbn [fst] in Hnormal. subst c. apply applyTranslations_normal in Hrun.
  cbn [snd].
  destruct (applyTranslations_ok_content (converted ToString) parseFragment
              inside st root p tag a cs v Hne Hclear Hget) as [H1 H2].
  rewrite Hrun in H1, H2.
  unfold converted in H1 at 2. unfold converted in H2 at 1.
  rewrite Hv in H1, H2. split; assumption.
Qed.

(** X20: after a call of [applyTranslations] that ended normally, every
    language switcher button below the root, also one that came in with
    translated markup, has the class [active] exactly when its [data-lang]
    is the current language. *)
Theorem applyTranslations_switcher_state (ToString : value -> option string)
    (parseFragment : string -> string -> list node)
    (inside : bool) (st : state) (root : node) :
  fst (applyTranslations ToString parseFragment inside st root) = Normal ->
  forallb (buttons_consistent (fst (getCurrentLang st)) (root_context inside root))
    (childNodes (snd (snd (applyTranslations ToString parseFragment inside st root))))
  = true.
Proof.
  intros Hnormal.
  destruct (applyTranslations ToString parseFragment inside st root) as [c r] eqn:Hrun.
  cbn [fst] in Hnormal. subst c. apply applyTranslations_normal in Hrun.
  cbn [snd]. rewrite <- Hrun. apply applyTranslations_ok_switcher_state.
Qed.



Lemma applyTranslations_keeps_element_witness :
  exists a' cs',
    get (snd (snd (applyTranslations sample_ToString sample_parse false sample_state
                     sample_document))) [4; 1]%nat
    = Some (Element "a" a' cs')
    /\ (forall name, kept name ->
          getAttribute a' name
          = getAttribute [("data-lang", "zh"); ("class", "active b")] name)
    /\ (container (engine sample_state) [("data-lang", "zh"); ("class", "active b")]
        = false -> length cs' = length (@nil node)).
Proof.
  apply (applyTranslations_keeps_element sample_ToString sample_parse false
           sample_state sample_document [4; 1]%nat "a"
           [("data-lang", "zh"); ("class", "active b")] []); reflexivity.
Defined.

Lemma applyTranslations_content_witness :
  exists a',
    get (snd (snd (applyTranslations sample_ToString sample_parse false sample_state
                     sample_document))) [1]%nat
    = Some (Element "div" a'
              (map (attributes_applied (converted sample_ToString)
                      (engine (snd (getCurrentLang sample_state)))
                      (fst (getCurrentLang sample_state))
                      (inside_switcher (context_at false sample_document [1]%nat)
                         [("data-i18n-html", "rich")]))
                 (sample_parse "div" "<b data-i18n='title'>x</b>"))).
Proof.
  apply (proj1 (applyTranslations_content sample_ToString sample_parse false
                  sample_state sample_document [1]%nat "div"
                  [("data-i18n-html", "rich")] []
                  (VStr "<b data-i18n='title'>x</b>") "<b data-i18n='title'>x</b>"
                  ltac:(vm_compute; reflexivity) eq_refl
                  ltac:(discriminate) eq_refl eq_refl)).
  reflexivity.
Defined.

Lemma applyTranslations_switcher_state_witness :
  forallb (buttons_consistent (fst (getCurrentLang sample_state))
             (root_context false sample_document))
    (childNodes (snd (snd (applyTranslations sample_ToString sample_parse false
                             sample_state sample_document))))
  = true.
Proof.
  apply (applyTranslations_switcher_state sample_ToString sample_parse false
           sample_state sample_document).
  vm_compute. reflexivity.
Defined.

